(** * stringwrap: a shallow embedding of [stringwrap.go]

    The wrapping engine of [src/stringwrap.go] is embedded function by
    function.  Go strings and [bytes.Buffer] contents are byte sequences
    ([list Z], every element in 0..255), runes are [Z], Go [int] counters are
    [Z] (every counter of the engine is bounded by the length of the input
    or of a buffer it has filled, so 64-bit wrap-around never occurs on a
    run that returns; running out of memory is not modelled).

    The packages the engine calls but does not contain come in two groups:
    - the Go standard library functions it uses ([unicode/utf8],
      [unicode.IsSpace], [strings.TrimRightFunc], [strings.Repeat],
      [strings.Split]) are written out below after their documented
      behaviour;
    - grapheme segmentation ([uniseg]), display width ([go-runewidth]),
      escape scanning ([ansiwalker]) and the Unicode letter and number
      tables are parameters of the development (class [Collaborators]).
      A small reference instance, exact on the inputs used in the examples,
      is given in module [Ref]. *)

From Stdlib Require Import ZArith List Bool Lia Relations.
From Stdlib Require String Ascii.
Import ListNotations String.StringSyntax.
Local Open Scope Z_scope.

Set Implicit Arguments.

(** ** Byte strings *)

Definition bytes := list Z.
Definition rune := Z.

Definition len (s : bytes) : Z := Z.of_nat (length s).

(** [s[i]] *)
Definition at_ (s : bytes) (i : Z) : Z := nth (Z.to_nat i) s 0.

(** [s[a:]] and [s[:b]] for indices already known to be in range. *)
Definition from (s : bytes) (a : Z) : bytes := skipn (Z.to_nat a) s.
Definition upto (s : bytes) (b : Z) : bytes := firstn (Z.to_nat b) s.

(** The bytes of an ASCII literal. *)
Definition lit (s : String.string) : bytes :=
  map (fun c => Z.of_N (Ascii.N_of_ascii c)) (String.list_ascii_of_string s).

Arguments lit s%_string_scope.

Definition LF : Z := 10.
Definition ESC : Z := 27.
Definition HYPHEN : Z := 45.
Definition SPACE : Z := 32.

(** ** Outcomes of a Go call

    [Ok v]: the call returns [v]; [Panic]: a run-time panic; [Diverge]: the
    fuel given to the model ran out before the call returned. *)

Inductive result (A : Type) : Type :=
| Ok (a : A)
| Panic
| Diverge.

Arguments Ok {A} a.
Arguments Panic {A}.
Arguments Diverge {A}.

Definition bind {A B : Type} (c : result A) (k : A -> result B) : result B :=
  match c with
  | Ok a => k a
  | Panic => Panic
  | Diverge => Diverge
  end.

Notation "x <- c ;; k" := (bind c (fun x => k))
  (at level 61, c at next level, right associativity).
Notation "' p <- c ;; k" := (bind c (fun x => let p := x in k))
  (at level 61, p pattern, c at next level, right associativity).

(** ** [unicode/utf8] *)

Module utf8.

Definition RuneError : rune := 0xFFFD.
Definition RuneSelf : Z := 0x80.
Definition MaxRune : rune := 0x10FFFF.
Definition UTFMax : Z := 4.

(** The [first] table joined with [acceptRanges]: for a leading byte, the
    length of the sequence and the accepted range of the second byte. *)
Definition first (b : Z) : option (Z * Z * Z) :=
  if (0xC2 <=? b) && (b <=? 0xDF) then Some (2, 0x80, 0xBF)
  else if b =? 0xE0 then Some (3, 0xA0, 0xBF)
  else if (0xE1 <=? b) && (b <=? 0xEC) then Some (3, 0x80, 0xBF)
  else if b =? 0xED then Some (3, 0x80, 0x9F)
  else if (0xEE <=? b) && (b <=? 0xEF) then Some (3, 0x80, 0xBF)
  else if b =? 0xF0 then Some (4, 0x90, 0xBF)
  else if (0xF1 <=? b) && (b <=? 0xF3) then Some (4, 0x80, 0xBF)
  else if b =? 0xF4 then Some (4, 0x80, 0x8F)
  else None.

Definition notCont (b : Z) : bool := (b <? 0x80) || (0xBF <? b).

Definition DecodeRuneInString (s : bytes) : rune * Z :=
  match s with
  | [] => (RuneError, 0)
  | s0 :: t =>
    if s0 <? RuneSelf then (s0, 1)
    else
      match first s0 with
      | None => (RuneError, 1)
      | Some (sz, lo, hi) =>
        if len s <? sz then (RuneError, 1)
        else
          match t with
          | [] => (RuneError, 1)
          | s1 :: t1 =>
            if (s1 <? lo) || (hi <? s1) then (RuneError, 1)
            else if sz <=? 2 then
              (Z.lor (Z.shiftl (Z.land s0 0x1F) 6) (Z.land s1 0x3F), 2)
            else
              match t1 with
              | [] => (RuneError, 1)
              | s2 :: t2 =>
                if notCont s2 then (RuneError, 1)
                else if sz <=? 3 then
                  (Z.lor (Z.lor (Z.shiftl (Z.land s0 0x0F) 12)
                                (Z.shiftl (Z.land s1 0x3F) 6))
                         (Z.land s2 0x3F), 3)
                else
                  match t2 with
                  | [] => (RuneError, 1)
                  | s3 :: _ =>
                    if notCont s3 then (RuneError, 1)
                    else
                      (Z.lor (Z.lor (Z.lor (Z.shiftl (Z.land s0 0x07) 18)
                                           (Z.shiftl (Z.land s1 0x3F) 12))
                                    (Z.shiftl (Z.land s2 0x3F) 6))
                             (Z.land s3 0x3F), 4)
                  end
              end
          end
      end
  end.

(** [RuneCountInString]: runes are decoded one after the other, an
    invalid byte counting as one rune of width one. *)
Fixpoint runeCount (fuel : nat) (s : bytes) : Z :=
  match fuel with
  | O => 0
  | S k =>
    match s with
    | [] => 0
    | _ => 1 + runeCount k (from s (snd (DecodeRuneInString s)))
    end
  end.

Definition RuneCountInString (s : bytes) : Z := runeCount (length s) s.

Definition RuneStart (b : Z) : bool := negb (Z.land b 0xC0 =? 0x80).

(** The backward scan of [DecodeLastRuneInString]:
    [for start--; start >= lim; start-- { if RuneStart(s[start]) { break } }]. *)
Fixpoint scanStart (fuel : nat) (s : bytes) (start lim : Z) : Z :=
  match fuel with
  | O => start
  | S k =>
    if start >=? lim then
      if RuneStart (at_ s start) then start else scanStart k s (start - 1) lim
    else start
  end.

Definition DecodeLastRuneInString (s : bytes) : rune * Z :=
  let end_ := len s in
  if end_ =? 0 then (RuneError, 0)
  else
    let start := end_ - 1 in
    let r := at_ s start in
    if r <? RuneSelf then (r, 1)
    else
      let lim := Z.max 0 (end_ - UTFMax) in
      let start := scanStart 4 s (start - 1) lim in
      let start := Z.max 0 start in
      let '(r, size) := DecodeRuneInString (from s start) in
      if negb (start + size =? end_) then (RuneError, 1) else (r, size).

(** [AppendRune] on an empty slice: the UTF-8 encoding of a rune, the
    encoding of [RuneError] for a rune out of range or a surrogate. *)
Definition enc3 (r : rune) : bytes :=
  [Z.lor 0xE0 (Z.shiftr r 12);
   Z.lor 0x80 (Z.land (Z.shiftr r 6) 0x3F);
   Z.lor 0x80 (Z.land r 0x3F)].

Definition EncodeRune (r : rune) : bytes :=
  if (0 <=? r) && (r <? 0x80) then [r]
  else if (0 <=? r) && (r <=? 0x7FF) then
    [Z.lor 0xC0 (Z.shiftr r 6); Z.lor 0x80 (Z.land r 0x3F)]
  else if (r <? 0) || (MaxRune <? r) || ((0xD800 <=? r) && (r <=? 0xDFFF)) then
    enc3 RuneError
  else if r <=? 0xFFFF then enc3 r
  else
    [Z.lor 0xF0 (Z.shiftr r 18);
     Z.lor 0x80 (Z.land (Z.shiftr r 12) 0x3F);
     Z.lor 0x80 (Z.land (Z.shiftr r 6) 0x3F);
     Z.lor 0x80 (Z.land r 0x3F)].

End utf8.

(** ** [unicode.IsSpace]: the Latin-1 spaces and the [White_Space] property. *)

Module unicode.

Definition IsSpace (r : rune) : bool :=
  if (0 <=? r) && (r <=? 0xFF) then
    (r =? 9) || (r =? 10) || (r =? 11) || (r =? 12) || (r =? 13)
    || (r =? 0x20) || (r =? 0x85) || (r =? 0xA0)
  else
    (r =? 0x1680) || ((0x2000 <=? r) && (r <=? 0x200A))
    || (r =? 0x2028) || (r =? 0x2029) || (r =? 0x202F)
    || (r =? 0x205F) || (r =? 0x3000).

End unicode.

(** ** [strings] *)

Module strings.

(** [lastIndexFunc(s, f, truth)]: the index of the last rune [r] with
    [f r = truth], or -1. *)
Fixpoint lastIndexFunc (fuel : nat) (s : bytes) (i : Z)
         (f : rune -> bool) (truth : bool) : Z :=
  match fuel with
  | O => -1
  | S k =>
    if i >? 0 then
      let '(r, size) := utf8.DecodeLastRuneInString (upto s i) in
      let i := i - size in
      if Bool.eqb (f r) truth then i else lastIndexFunc k s i f truth
    else -1
  end.

Definition TrimRightFunc (s : bytes) (f : rune -> bool) : bytes :=
  let i := lastIndexFunc (length s) s (len s) f false in
  let i :=
    if (i >=? 0) && (at_ s i >=? utf8.RuneSelf)
    then i + snd (utf8.DecodeRuneInString (from s i))
    else i + 1 in
  upto s i.

(** [Repeat(s, count)] panics on a negative count. *)
Definition Repeat (b : Z) (count : Z) : result bytes :=
  if count <? 0 then Panic else Ok (repeat b (Z.to_nat count)).

(** [Split(s, sep)] for the one-byte separator [sep]. *)
Fixpoint Split (s : bytes) (sep : Z) : list bytes :=
  match s with
  | [] => [[]]
  | c :: s' =>
    if c =? sep then [] :: Split s' sep
    else
      match Split s' sep with
      | p :: ps => (c :: p) :: ps
      | [] => [[c]]
      end
  end.

(** [Join(parts, sep)] for the one-byte separator [sep]. *)
Fixpoint Join (parts : list bytes) (sep : Z) : bytes :=
  match parts with
  | [] => []
  | [p] => p
  | p :: ps => p ++ sep :: Join ps sep
  end.

End strings.

(** ** Data model *)

(** [LineOffset]: the half-open interval [[Start, End)]. *)
Record LineOffset : Type := { Start : Z; End_ : Z }.

Record WrappedString : Type := {
  CurLineNum : Z;
  OrigLineNum : Z;
  OrigByteOffset : LineOffset;
  OrigRuneOffset : LineOffset;
  SegmentInOrig : Z;
  LastSegmentInOrig : bool;
  NotWithinLimit : bool;
  IsHardBreak : bool;
  Width : Z;
  EndsWithSplitWord : bool
}.

Record WrappedStringSeq : Type := {
  WrappedLines : list WrappedString;
  WordSplitAllowed : bool;
  TabSize : Z;
  Limit : Z
}.

(** [lastWrappedLine]: the last segment, [None] for Go's [nil]. *)
Definition lastWrappedLine (s : WrappedStringSeq) : option WrappedString :=
  last (map Some (WrappedLines s)) None.

Definition appendWrappedSeq (wrapped : WrappedString) (s : WrappedStringSeq)
  : WrappedStringSeq :=
  {| WrappedLines := WrappedLines s ++ [wrapped];
     WordSplitAllowed := WordSplitAllowed s;
     TabSize := TabSize s;
     Limit := Limit s |}.

Definition btoi (b : bool) : Z := if b then 1 else 0.

Record positions : Type := {
  curLineWidth : Z;
  curLineNum : Z;
  origLineNum : Z;
  curWordWidth : Z;
  origLineSegment : Z;
  origStartLineByte : Z;
  origStartLineRune : Z;
  timmedWhiteSpace : Z
}.

Definition set_curLineWidth (v : Z) (p : positions) : positions :=
  {| curLineWidth := v; curLineNum := curLineNum p;
     origLineNum := origLineNum p; curWordWidth := curWordWidth p;
     origLineSegment := origLineSegment p;
     origStartLineByte := origStartLineByte p;
     origStartLineRune := origStartLineRune p;
     timmedWhiteSpace := timmedWhiteSpace p |}.

Definition set_curWordWidth (v : Z) (p : positions) : positions :=
  {| curLineWidth := curLineWidth p; curLineNum := curLineNum p;
     origLineNum := origLineNum p; curWordWidth := v;
     origLineSegment := origLineSegment p;
     origStartLineByte := origStartLineByte p;
     origStartLineRune := origStartLineRune p;
     timmedWhiteSpace := timmedWhiteSpace p |}.

Definition set_origLineSegment (v : Z) (p : positions) : positions :=
  {| curLineWidth := curLineWidth p; curLineNum := curLineNum p;
     origLineNum := origLineNum p; curWordWidth := curWordWidth p;
     origLineSegment := v;
     origStartLineByte := origStartLineByte p;
     origStartLineRune := origStartLineRune p;
     timmedWhiteSpace := timmedWhiteSpace p |}.

Definition set_timmedWhiteSpace (v : Z) (p : positions) : positions :=
  {| curLineWidth := curLineWidth p; curLineNum := curLineNum p;
     origLineNum := origLineNum p; curWordWidth := curWordWidth p;
     origLineSegment := origLineSegment p;
     origStartLineByte := origStartLineByte p;
     origStartLineRune := origStartLineRune p;
     timmedWhiteSpace := v |}.

Definition endCalc (p : positions) (count lineCount : Z) (hard split : bool) : Z :=
  let origEndLine := count + lineCount - 1 + btoi hard - btoi split in
  origEndLine + timmedWhiteSpace p.

Definition endByte (p : positions) (line : bytes) (hard split : bool)
  : Z * LineOffset :=
  let endLine := endCalc p (origStartLineByte p) (len line) hard split in
  (endLine, {| Start := origStartLineByte p; End_ := endLine |}).

Definition endRune (p : positions) (line : bytes) (hard split : bool)
  : Z * LineOffset :=
  let endLine :=
    endCalc p (origStartLineRune p) (utf8.RuneCountInString line) hard split in
  (endLine, {| Start := origStartLineRune p; End_ := endLine |}).

Definition curWritePosition (p : positions) : Z :=
  curWordWidth p + curLineWidth p.

Definition incrementCurLine (p : positions) : positions :=
  {| curLineWidth := curLineWidth p; curLineNum := curLineNum p + 1;
     origLineNum := origLineNum p; curWordWidth := curWordWidth p;
     origLineSegment := origLineSegment p;
     origStartLineByte := origStartLineByte p;
     origStartLineRune := origStartLineRune p;
     timmedWhiteSpace := timmedWhiteSpace p |}.

Definition incrementOrigLine (p : positions) : positions :=
  {| curLineWidth := curLineWidth p; curLineNum := curLineNum p;
     origLineNum := origLineNum p + 1; curWordWidth := curWordWidth p;
     origLineSegment := origLineSegment p;
     origStartLineByte := origStartLineByte p;
     origStartLineRune := origStartLineRune p;
     timmedWhiteSpace := timmedWhiteSpace p |}.

Record wordWrapConfig : Type := {
  limit : Z;
  tabSize : Z;
  trimWhitespace : bool;
  splitWord : bool
}.

(** [pos] and [wrappedStringSeq] are pointers in the source, each to an
    object owned by the one call of [stringWrap]; the state carries the
    objects themselves. *)
Record wrapStateMachine : Type := {
  lineBuffer : bytes;
  wordBuffer : bytes;
  buffer : bytes;
  pos : positions;
  wrappedStringSeq : WrappedStringSeq;
  config : wordWrapConfig;
  wordHasNbsp : bool
}.

Definition set_lineBuffer (v : bytes) (w : wrapStateMachine) : wrapStateMachine :=
  {| lineBuffer := v; wordBuffer := wordBuffer w; buffer := buffer w;
     pos := pos w; wrappedStringSeq := wrappedStringSeq w;
     config := config w; wordHasNbsp := wordHasNbsp w |}.

Definition set_wordBuffer (v : bytes) (w : wrapStateMachine) : wrapStateMachine :=
  {| lineBuffer := lineBuffer w; wordBuffer := v; buffer := buffer w;
     pos := pos w; wrappedStringSeq := wrappedStringSeq w;
     config := config w; wordHasNbsp := wordHasNbsp w |}.

Definition set_pos (v : positions) (w : wrapStateMachine) : wrapStateMachine :=
  {| lineBuffer := lineBuffer w; wordBuffer := wordBuffer w; buffer := buffer w;
     pos := v; wrappedStringSeq := wrappedStringSeq w;
     config := config w; wordHasNbsp := wordHasNbsp w |}.

Definition set_wordHasNbsp (v : bool) (w : wrapStateMachine) : wrapStateMachine :=
  {| lineBuffer := lineBuffer w; wordBuffer := wordBuffer w; buffer := buffer w;
     pos := pos w; wrappedStringSeq := wrappedStringSeq w;
     config := config w; wordHasNbsp := v |}.

(** ** The external collaborators

    - [ANSIWalk str idx] is [ansiwalker.ANSIWalk]: it returns
      [(r, rSize, next, ok)];
    - [StepString s state] is [uniseg.StepString], of which the engine uses
      the cluster and the new state;
    - [NewGraphemes s] is the sequence of clusters that the iterator
      [uniseg.NewGraphemes(s)] yields through [Next] and [Str];
    - [StringWidth] and [RuneWidth] are those of [go-runewidth];
    - [IsLetter] and [IsNumber] are those of [unicode]. *)
Class Collaborators : Type := {
  ANSIWalk : bytes -> Z -> rune * Z * Z * bool;
  StepString : bytes -> Z -> bytes * Z;
  NewGraphemes : bytes -> list bytes;
  StringWidth : bytes -> Z;
  RuneWidth : rune -> Z;
  IsLetter : rune -> bool;
  IsNumber : rune -> bool
}.

Record graphemeWordIter : Type := {
  subWordBuffer : bytes;
  subWordWidth : Z;
  preLimitCluster : bytes;
  nextClusterWidth : Z;
  cluster : bytes;
  graphemes : list bytes
}.

Definition totalWidth (g : graphemeWordIter) (lineWidth : Z) : Z :=
  subWordWidth g + lineWidth + nextClusterWidth g.

Definition error := String.string.

(** [errors.New] *)
Definition errors_New (text : String.string) : error := text.

Arguments errors_New text%_string_scope.

Section Engine.

Context {C : Collaborators}.

Definition isWordyGrapheme (grapheme : bytes) : bool :=
  let r := fst (utf8.DecodeRuneInString grapheme) in
  IsLetter r || IsNumber r.

Definition needsHyphen (g : graphemeWordIter) : bool :=
  isWordyGrapheme (cluster g) && isWordyGrapheme (preLimitCluster g).

(** [iter]: the loop runs over the clusters still to come; [Next] takes
    the head [c] off them (also when the width test then fails) and [Str]
    is [c]. *)
Fixpoint iterFrom (rest : list bytes) (g : graphemeWordIter)
         (lineWidth limit : Z) : graphemeWordIter :=
  match rest with
  | [] =>
    {| subWordBuffer := subWordBuffer g; subWordWidth := subWordWidth g;
       preLimitCluster := preLimitCluster g;
       nextClusterWidth := nextClusterWidth g;
       cluster := cluster g; graphemes := [] |}
  | c :: rest' =>
    if totalWidth g lineWidth <? limit then
      iterFrom rest'
        {| subWordBuffer := subWordBuffer g ++ cluster g;
           subWordWidth := subWordWidth g + nextClusterWidth g;
           preLimitCluster := cluster g;
           nextClusterWidth := StringWidth c;
           cluster := c;
           graphemes := rest' |}
        lineWidth limit
    else
      {| subWordBuffer := subWordBuffer g; subWordWidth := subWordWidth g;
         preLimitCluster := preLimitCluster g;
         nextClusterWidth := nextClusterWidth g;
         cluster := cluster g; graphemes := rest' |}
  end.

Definition iter (g : graphemeWordIter) (lineWidth limit : Z)
  : graphemeWordIter :=
  iterFrom (graphemes g) g lineWidth limit.

(** [graphemeWordIter{graphemes: uniseg.NewGraphemes(word)}] *)
Definition newIter (word : bytes) : graphemeWordIter :=
  {| subWordBuffer := []; subWordWidth := 0; preLimitCluster := [];
     nextClusterWidth := 0; cluster := []; graphemes := NewGraphemes word |}.

Definition writeANSIToLine (str : bytes) (w : wrapStateMachine)
  : wrapStateMachine :=
  set_lineBuffer (lineBuffer w ++ str) w.

Definition writeStrToWord (str : bytes) (w : wrapStateMachine)
  : wrapStateMachine :=
  set_wordBuffer (wordBuffer w ++ str) w.

Definition writeRuneToWord (r : rune) (w : wrapStateMachine)
  : wrapStateMachine :=
  set_wordBuffer (wordBuffer w ++ utf8.EncodeRune r) w.

Definition writeLine (hardBreak endsSplit : bool) (w : wrapStateMachine)
  : wrapStateMachine :=
  let newLine := lineBuffer w in
  let '(newLine, p) :=
    if trimWhitespace (config w) then
      let newLine := strings.TrimRightFunc newLine unicode.IsSpace in
      let trimWidth := StringWidth newLine in
      (newLine,
       set_curLineWidth trimWidth
         (set_timmedWhiteSpace
            (timmedWhiteSpace (pos w) + (curLineWidth (pos w) - trimWidth))
            (pos w)))
    else (newLine, pos w) in
  let newLine := newLine ++ [LF] in
  let p := set_origLineSegment (origLineSegment p + 1) p in
  let '(origEndLineByte, origByteOffset) := endByte p newLine hardBreak endsSplit in
  let '(origEndLineRune, origRuneOffset) := endRune p newLine hardBreak endsSplit in
  let wrappedString :=
    {| OrigLineNum := origLineNum p;
       CurLineNum := curLineNum p;
       OrigByteOffset := origByteOffset;
       OrigRuneOffset := origRuneOffset;
       SegmentInOrig := origLineSegment p;
       LastSegmentInOrig := hardBreak;
       NotWithinLimit := curLineWidth p >? limit (config w);
       IsHardBreak := hardBreak;
       Width := curLineWidth p;
       EndsWithSplitWord := endsSplit |} in
  let p := incrementCurLine p in
  {| lineBuffer := [];
     wordBuffer := wordBuffer w;
     buffer := buffer w ++ newLine;
     pos := {| curLineWidth := 0;
               curLineNum := curLineNum p;
               origLineNum := origLineNum p;
               curWordWidth := curWordWidth p;
               origLineSegment := origLineSegment p;
               origStartLineByte := origEndLineByte;
               origStartLineRune := origEndLineRune;
               timmedWhiteSpace := 0 |};
     wrappedStringSeq := appendWrappedSeq wrappedString (wrappedStringSeq w);
     config := config w;
     wordHasNbsp := wordHasNbsp w |}.

Definition writeHardLine (w : wrapStateMachine) : wrapStateMachine :=
  writeLine true false w.

Definition writeSoftLine (endsSplit : bool) (w : wrapStateMachine)
  : wrapStateMachine :=
  writeLine false endsSplit w.

Definition flushLineBuffer (length : Z) (w : wrapStateMachine)
  : wrapStateMachine :=
  if curLineWidth (pos w) + length >? limit (config w)
  then writeSoftLine false w
  else w.

Definition writeSpaceToLine (r : rune) (w : wrapStateMachine)
  : wrapStateMachine :=
  let w := flushLineBuffer 1 w in
  if negb (trimWhitespace (config w)) || (curLineWidth (pos w) >? 0) then
    set_pos (set_curLineWidth (curLineWidth (pos w) + 1) (pos w))
            (set_lineBuffer (lineBuffer w ++ utf8.EncodeRune r) w)
  else
    set_pos (set_timmedWhiteSpace (timmedWhiteSpace (pos w) + 1) (pos w)) w.

(** [writeTabToLine] returns the state and [adjTabSize]; it panics when
    [strings.Repeat] is given a negative count. *)
Definition writeTabToLine (w : wrapStateMachine)
  : result (wrapStateMachine * Z) :=
  let adjTabSize :=
    if tabSize (config w) >? 0
    then tabSize (config w) - Z.rem (curLineWidth (pos w)) (tabSize (config w))
    else 0 in
  let w := flushLineBuffer adjTabSize w in
  let '(adjTabSize, w) :=
    if len (lineBuffer w) =? 0 then
      if trimWhitespace (config w) then
        (0, set_pos (set_timmedWhiteSpace (timmedWhiteSpace (pos w) + 1) (pos w)) w)
      else (tabSize (config w), w)
    else (adjTabSize, w) in
  tabSpaces <- strings.Repeat SPACE adjTabSize ;;
  Ok (set_lineBuffer (lineBuffer w ++ tabSpaces) w, adjTabSize).

Definition writeWord (w : wrapStateMachine) : wrapStateMachine :=
  set_pos
    (set_curWordWidth 0
       (set_curLineWidth (curLineWidth (pos w) + curWordWidth (pos w)) (pos w)))
    (set_wordBuffer [] (set_lineBuffer (lineBuffer w ++ wordBuffer w) w)).

(** One split step of [flushWordBuffer] (the body of its splitting
    branch, up to the recursive call): the clusters that fit go to the
    line, with a hyphen when [needsHyphen], the line is written and the
    clusters are taken off the word. *)
Definition splitStep (w : wrapStateMachine) : wrapStateMachine :=
  let gIter :=
    iter (newIter (wordBuffer w)) (curLineWidth (pos w)) (limit (config w)) in
  let w := set_lineBuffer (lineBuffer w ++ subWordBuffer gIter) w in
  let w :=
    if needsHyphen gIter then
      set_pos (set_curLineWidth (curLineWidth (pos w) + 1) (pos w))
              (set_lineBuffer (lineBuffer w ++ utf8.EncodeRune HYPHEN) w)
    else w in
  let w :=
    set_pos (set_curLineWidth (curLineWidth (pos w) + subWordWidth gIter) (pos w)) w in
  let w := writeSoftLine (needsHyphen gIter) w in
  let w := set_wordBuffer (from (wordBuffer w) (len (subWordBuffer gIter))) w in
  set_pos (set_curWordWidth (curWordWidth (pos w) - subWordWidth gIter) (pos w)) w.

(** [flushWordBuffer]; [fuel] bounds the depth of its recursion. *)
Fixpoint flushWordBuffer (fuel : nat) (w : wrapStateMachine)
  : result wrapStateMachine :=
  match fuel with
  | O => Diverge
  | S fuel' =>
    let exceedsLimit := curWritePosition (pos w) >? limit (config w) in
    if exceedsLimit && (curWordWidth (pos w) =? 0) then
      Ok (writeSoftLine false w)
    else if exceedsLimit then
      if splitWord (config w) && negb (wordHasNbsp w) then
        w' <- flushWordBuffer fuel' (splitStep w) ;;
        Ok (set_wordHasNbsp false w')
      else
        let w := if curLineWidth (pos w) >? 0 then writeSoftLine false w else w in
        Ok (set_wordHasNbsp false (writeWord w))
    else
      Ok (set_wordHasNbsp false (writeWord w))
  end.

(** [str[a:b]] panics unless [0 <= a <= b <= len(str)]. *)
Definition slice (str : bytes) (a b : Z) : result bytes :=
  if (0 <=? a) && (a <=? b) && (b <=? len str)
  then Ok (upto (from str a) (b - a))
  else Panic.

(** [bytes.Buffer.Truncate(n)] panics unless [0 <= n <= Len()]. *)
Definition Truncate (b : bytes) (n : Z) : result bytes :=
  if (n <? 0) || (len b <? n) then Panic else Ok (upto b n).

Definition isHardBreakRune (r : rune) : bool :=
  (r =? 10) || (r =? 13) || (r =? 0x85) || (r =? 0x2028) || (r =? 0x2029).

(** One iteration of the loop of [stringWrap]: from the grapheme state,
    the index and the state machine to their values after the body. *)
Definition loopStep (fw : nat) (str : bytes) (state idx : Z)
           (w : wrapStateMachine) : result (wrapStateMachine * Z * Z) :=
  let '(r, rSize, next, ok) := ANSIWalk str idx in
  let rIdx := next - rSize in
  ws <- (if ok && (rIdx >? idx) then
           w <- flushWordBuffer fw w ;;
           esc <- slice str idx rIdx ;;
           Ok (writeANSIToLine esc w, -1)
         else Ok (w, state)) ;;
  let '(w, state) := ws in
  let idx := rIdx in
  if r =? 0xA0 then
    let w := set_wordHasNbsp true w in
    let w := writeRuneToWord r w in
    let w := set_pos (set_curWordWidth (curWordWidth (pos w) + 1) (pos w)) w in
    Ok (w, state, idx + rSize)
  else if unicode.IsSpace r then
    w <- flushWordBuffer fw w ;;
    w <- (if r =? 32 then Ok (writeSpaceToLine r w)
          else if isHardBreakRune r then
            let w := writeHardLine w in
            Ok (set_pos (set_origLineSegment 0 (incrementOrigLine (pos w))) w)
          else if r =? 9 then
            wa <- writeTabToLine w ;;
            let '(w, adjTabSize) := wa in
            Ok (set_pos (set_curLineWidth (curLineWidth (pos w) + adjTabSize) (pos w)) w)
          else if (r =? 11) || (r =? 12) then Ok w
          else
            let w := writeSpaceToLine r w in
            Ok (set_pos (set_curLineWidth
                           (curLineWidth (pos w) + (RuneWidth r - 1)) (pos w)) w)) ;;
    Ok (w, -1, idx + rSize)
  else
    tail <- slice str idx (len str) ;;
    let '(cluster, st) := StepString tail state in
    if negb (len cluster =? 0) then
      let clusterWidth := StringWidth cluster in
      let w := set_pos (set_curWordWidth (curWordWidth (pos w) + clusterWidth) (pos w)) w in
      let w := writeStrToWord cluster w in
      Ok (w, st, idx + len cluster)
    else Ok (w, st, idx + rSize).

(** [for idx < len(str) { ... }]; [fuel] bounds the number of iterations
    and [fw] the depth of each [flushWordBuffer]. *)
Fixpoint loop (fuel fw : nat) (str : bytes) (state idx : Z)
         (w : wrapStateMachine) : result wrapStateMachine :=
  if idx <? len str then
    match fuel with
    | O => Diverge
    | S fuel' =>
      x <- loopStep fw str state idx w ;;
      let '(w, state, idx) := x in
      loop fuel' fw str state idx w
    end
  else Ok w.


(** The last segment with its [LastSegmentInOrig] set. *)
Definition markLast (l : WrappedString) : WrappedString :=
  {| CurLineNum := CurLineNum l; OrigLineNum := OrigLineNum l;
     OrigByteOffset := OrigByteOffset l; OrigRuneOffset := OrigRuneOffset l;
     SegmentInOrig := SegmentInOrig l; LastSegmentInOrig := true;
     NotWithinLimit := NotWithinLimit l; IsHardBreak := IsHardBreak l;
     Width := Width l; EndsWithSplitWord := EndsWithSplitWord l |}.

Definition setLastSegmentInOrig (s : WrappedStringSeq) (l : WrappedString)
  : WrappedStringSeq :=
  {| WrappedLines := removelast (WrappedLines s) ++ [markLast l];
     WordSplitAllowed := WordSplitAllowed s;
     TabSize := TabSize s;
     Limit := Limit s |}.

Definition initialState (limit tabSize : Z) (trimWhitespace splitWord : bool)
  : wrapStateMachine :=
  {| lineBuffer := []; wordBuffer := []; buffer := [];
     pos := {| curLineWidth := 0; curLineNum := 1; origLineNum := 1;
               curWordWidth := 0; origLineSegment := 0;
               origStartLineByte := 0; origStartLineRune := 0;
               timmedWhiteSpace := 0 |};
     wrappedStringSeq := {| WrappedLines := [];
                            WordSplitAllowed := splitWord;
                            TabSize := tabSize;
                            Limit := limit |};
     config := {| limit := limit; tabSize := tabSize;
                  trimWhitespace := trimWhitespace;
                  splitWord := splitWord |};
     wordHasNbsp := false |}.

(** What [stringWrap] does after its loop. *)
Definition finish (fuel : nat) (w : wrapStateMachine)
  : result (bytes * option WrappedStringSeq * option error) :=
  w <- flushWordBuffer fuel w ;;
  let w := if len (lineBuffer w) >? 0 then writeSoftLine false w else w in
  match lastWrappedLine (wrappedStringSeq w) with
  | Some l =>
    if negb (IsHardBreak l) then
      out <- Truncate (buffer w) (len (buffer w) - 1) ;;
      Ok (out, Some (setLastSegmentInOrig (wrappedStringSeq w) l), None)
    else Ok (buffer w, Some (wrappedStringSeq w), None)
  | None => Ok (buffer w, Some (wrappedStringSeq w), None)
  end.

(** [stringWrap] returns the output text, the sequence ([None] for [nil])
    and the error ([None] for [nil]). *)
Definition stringWrap (fuel : nat) (str : bytes) (limit tabSize : Z)
           (trimWhitespace splitWord : bool)
  : result (bytes * option WrappedStringSeq * option error) :=
  if limit <? 2 then
    Ok ([], None, Some (errors_New "limit must be greater than one"))
  else
    w <- loop fuel fuel str (-1) 0
           (initialState limit tabSize trimWhitespace splitWord) ;;
    finish fuel w.

Definition StringWrap (fuel : nat) (str : bytes) (limit tabSize : Z)
           (trimWhitespace : bool) :=
  stringWrap fuel str limit tabSize trimWhitespace false.

Definition StringWrapSplit (fuel : nat) (str : bytes) (limit tabSize : Z)
           (trimWhitespace : bool) :=
  stringWrap fuel str limit tabSize trimWhitespace true.

End Engine.

(** ** A reference instance of the collaborators *)

Module Ref.

(** Modelled from the spec: display width measurement, "given a rune or a
    string, returns the number of terminal columns it occupies".  Zero for
    control characters and combining marks, two for the East Asian wide
    and emoji blocks listed, one otherwise. *)
Definition isControl (r : rune) : bool :=
  (r <? 0x20) || ((0x7F <=? r) && (r <? 0xA0)).

Definition isExtend (r : rune) : bool := (0x300 <=? r) && (r <=? 0x36F).

Definition isWide (r : rune) : bool :=
  ((0x1100 <=? r) && (r <=? 0x115F))
  || ((0x2E80 <=? r) && (r <=? 0xA4CF) && negb (r =? 0x303F))
  || ((0xAC00 <=? r) && (r <=? 0xD7A3))
  || ((0xF900 <=? r) && (r <=? 0xFAFF))
  || ((0xFE30 <=? r) && (r <=? 0xFE6F))
  || ((0xFF00 <=? r) && (r <=? 0xFF60))
  || ((0xFFE0 <=? r) && (r <=? 0xFFE6))
  || ((0x1F300 <=? r) && (r <=? 0x1F64F))
  || ((0x1F900 <=? r) && (r <=? 0x1F9FF))
  || ((0x20000 <=? r) && (r <=? 0x3FFFD)).

Definition RuneWidth (r : rune) : Z :=
  if isControl r || isExtend r then 0
  else if isWide r then 2 else 1.

(** The runes of a string, each with its bytes. *)
Fixpoint runes (fuel : nat) (s : bytes) : list (rune * bytes) :=
  match fuel with
  | O => []
  | S k =>
    match s with
    | [] => []
    | _ =>
      let '(r, sz) := utf8.DecodeRuneInString s in
      (r, upto s sz) :: runes k (from s sz)
    end
  end.

(** Modelled from the spec: grapheme boundary segmentation.  A cluster is
    a rune with the combining marks that follow it.  (Carriage return and
    line feed never reach the segmenter from the engine, which handles
    them as hard breaks.) *)
Definition joins (r r' : rune) : bool := isExtend r' && negb (isControl r).

Fixpoint group (rs : list (rune * bytes)) : list (rune * bytes) :=
  match rs with
  | [] => []
  | (r, b) :: rest =>
    match group rest with
    | (r', g) :: gs =>
      if joins r r' then (r, b ++ g) :: gs else (r, b) :: (r', g) :: gs
    | [] => [(r, b)]
    end
  end.

Definition clusters (s : bytes) : list (rune * bytes) :=
  group (runes (length s) s).

Definition NewGraphemes (s : bytes) : list bytes := map snd (clusters s).

Definition StepString (s : bytes) (state : Z) : bytes * Z :=
  match clusters s with
  | [] => ([], 0)
  | (_, c) :: _ => (c, 0)
  end.

(** The width of a string: the sum over its clusters of the width of the
    leading rune. *)
Definition StringWidth (s : bytes) : Z :=
  fold_right (fun c acc => RuneWidth (fst c) + acc) 0 (clusters s).

(** Modelled from the spec: escape-sequence scanning.  The sequences
    recognised are the CSI sequences, ESC [ followed by parameter and
    intermediate bytes and a final byte; [csiBody] is the length of what
    follows ESC [, final byte included. *)
Fixpoint csiBody (s : bytes) : option nat :=
  match s with
  | [] => None
  | b :: s' =>
    if (0x40 <=? b) && (b <=? 0x7E) then Some 1%nat
    else if (0x20 <=? b) && (b <=? 0x3F) then option_map S (csiBody s')
    else None
  end.

Fixpoint skipEscapes (fuel : nat) (s : bytes) : nat :=
  match fuel with
  | O => 0%nat
  | S f =>
    match s with
    | e :: br :: s' =>
      if (e =? ESC) && (br =? 91) then
        match csiBody s' with
        | Some k => (2 + k + skipEscapes f (skipn k s'))%nat
        | None => 0%nat
        end
      else 0%nat
    | _ => 0%nat
    end
  end.

(** The escape sequences at [idx] are skipped and the rune after them is
    returned with its size and the index after it; [ok] is false when the
    end of the string is reached. *)
Definition ANSIWalk (str : bytes) (idx : Z) : rune * Z * Z * bool :=
  let s := from str idx in
  let k := Z.of_nat (skipEscapes (length s) s) in
  let '(r, sz) := utf8.DecodeRuneInString (from s k) in
  (r, sz, idx + k + sz, 0 <? sz).

Definition isAsciiLetter (r : rune) : bool :=
  ((65 <=? r) && (r <=? 90)) || ((97 <=? r) && (r <=? 122)).

(** Modelled from the spec: "a letter or a number".  The ASCII letters
    and digits, and the CJK unified ideographs as letters. *)
Definition IsLetter (r : rune) : bool :=
  isAsciiLetter r || ((0x4E00 <=? r) && (r <=? 0x9FFF)).

Definition IsNumber (r : rune) : bool := (48 <=? r) && (r <=? 57).

#[export] Instance collaborators : Collaborators :=
  Build_Collaborators ANSIWalk StepString NewGraphemes StringWidth
                      RuneWidth IsLetter IsNumber.

End Ref.


(** * Properties *)

(** ** Outcome algebra *)

Lemma bind_Ok_inv (A B : Type) (c : result A) (k : A -> result B) (b : B) :
  bind c k = Ok b -> exists a, c = Ok a /\ k a = Ok b.
Proof.
  destruct c as [a| |]; simpl; intros H; try discriminate.
  exists a; split; [reflexivity | exact H].
Qed.

Tactic Notation "bind_inv" hyp(H) "as" simple_intropattern(a) ident(Ha) :=
  apply bind_Ok_inv in H; destruct H as [a [Ha H]].

(** ** How the state machine evolves

    Only [writeLine] touches the output buffer, the segment sequence and the
    start offsets of the next segment; every other operation leaves them,
    and the configuration, as they are. *)

Definition frame (w w' : wrapStateMachine) : Prop :=
  buffer w' = buffer w
  /\ wrappedStringSeq w' = wrappedStringSeq w
  /\ config w' = config w
  /\ origStartLineByte (pos w') = origStartLineByte (pos w)
  /\ origStartLineRune (pos w') = origStartLineRune (pos w).

Section Evolution.

Context {C : Collaborators}.

Inductive evolves : wrapStateMachine -> wrapStateMachine -> Prop :=
| ev_frame w w' : frame w w' -> evolves w w'
| ev_line w hard split :
    (split = true -> splitWord (config w) = true) ->
    evolves w (writeLine hard split w)
| ev_trans w1 w2 w3 : evolves w1 w2 -> evolves w2 w3 -> evolves w1 w3.

Lemma frame_refl w : frame w w.
Proof. repeat split. Qed.

Lemma ev_refl w : evolves w w.
Proof. apply ev_frame, frame_refl. Qed.

(** A property kept by the framing operations and by [writeLine] is kept
    along every evolution. *)
Lemma evolves_keeps (P : wrapStateMachine -> Prop) :
  (forall w w', frame w w' -> P w -> P w') ->
  (forall w hard split,
      (split = true -> splitWord (config w) = true) ->
      P w -> P (writeLine hard split w)) ->
  forall w w', evolves w w' -> P w -> P w'.
Proof.
  intros Hf Hl w w' E.
  induction E; eauto.
Qed.

Lemma writeLine_config hard split w :
  config (writeLine hard split w) = config w.
Proof.
  unfold writeLine. destruct (trimWhitespace (config w)); reflexivity.
Qed.

Lemma evolves_config w w' : evolves w w' -> config w' = config w.
Proof.
  intros E. induction E.
  - destruct H as (_ & _ & H & _). exact H.
  - apply writeLine_config.
  - congruence.
Qed.

Lemma flushLineBuffer_evolves n w : evolves w (flushLineBuffer n w).
Proof.
  unfold flushLineBuffer.
  destruct (curLineWidth (pos w) + n >? limit (config w)).
  - apply ev_line. discriminate.
  - apply ev_refl.
Qed.

Lemma writeSpaceToLine_evolves r w : evolves w (writeSpaceToLine r w).
Proof.
  unfold writeSpaceToLine.
  eapply ev_trans; [apply (flushLineBuffer_evolves 1) |].
  destruct (negb (trimWhitespace (config (flushLineBuffer 1 w)))
            || (curLineWidth (pos (flushLineBuffer 1 w)) >? 0));
    apply ev_frame; repeat split.
Qed.

Lemma writeTabToLine_evolves w w' adj :
  writeTabToLine w = Ok (w', adj) -> evolves w w'.
Proof.
  unfold writeTabToLine.
  set (a := if tabSize (config w) >? 0 then _ else 0).
  intros H.
  eapply ev_trans; [apply (flushLineBuffer_evolves a) |].
  destruct (len (lineBuffer (flushLineBuffer a w)) =? 0);
    [destruct (trimWhitespace (config (flushLineBuffer a w))) |];
    bind_inv H as sp Hsp; inversion H; subst; apply ev_frame; repeat split.
Qed.

Lemma writeWord_evolves w : evolves w (writeWord w).
Proof. apply ev_frame; repeat split. Qed.

Lemma splitStep_evolves w :
  splitWord (config w) = true -> evolves w (splitStep w).
Proof.
  intros Hs. unfold splitStep.
  set (g := iter _ _ _).
  set (w1 := set_lineBuffer _ w).
  set (w2 := if needsHyphen g then _ else w1).
  set (w3 := set_pos _ w2).
  assert (E3 : evolves w w3).
  { apply ev_frame. subst w3 w2 w1.
    destruct (needsHyphen g); repeat split. }
  eapply ev_trans; [exact E3 |].
  eapply ev_trans.
  - apply (@ev_line w3 false (needsHyphen g)).
    intros _. rewrite (evolves_config E3). exact Hs.
  - apply ev_frame; repeat split.
Qed.

Lemma flushWordBuffer_S fuel w :
  flushWordBuffer (S fuel) w =
  if (curWritePosition (pos w) >? limit (config w))
     && (curWordWidth (pos w) =? 0)
  then Ok (writeSoftLine false w)
  else if curWritePosition (pos w) >? limit (config w) then
    if splitWord (config w) && negb (wordHasNbsp w) then
      w' <- flushWordBuffer fuel (splitStep w) ;;
      Ok (set_wordHasNbsp false w')
    else
      Ok (set_wordHasNbsp false
            (writeWord (if curLineWidth (pos w) >? 0
                        then writeSoftLine false w else w)))
  else Ok (set_wordHasNbsp false (writeWord w)).
Proof. reflexivity. Qed.

Lemma flushWordBuffer_evolves fuel :
  forall w w', flushWordBuffer fuel w = Ok w' -> evolves w w'.
Proof.
  induction fuel as [|fuel IH]; intros w w' H; [discriminate |].
  rewrite flushWordBuffer_S in H.
  destruct (curWritePosition (pos w) >? limit (config w));
    [destruct (curWordWidth (pos w) =? 0) |]; cbn [andb] in H.
  - inversion H; subst. apply ev_line. discriminate.
  - destruct (splitWord (config w) && negb (wordHasNbsp w)) eqn:Hs.
    + apply andb_prop in Hs. destruct Hs as [Hs _].
      bind_inv H as w1 Hw1. inversion H; subst.
      eapply ev_trans; [apply splitStep_evolves; exact Hs |].
      eapply ev_trans; [apply IH; exact Hw1 |].
      apply ev_frame; repeat split.
    + inversion H; subst. destruct (curLineWidth (pos w) >? 0).
      * eapply ev_trans;
          [apply (@ev_line w false false); discriminate
          | apply ev_frame; repeat split].
      * apply ev_frame; repeat split.
  - inversion H; subst. apply ev_frame; repeat split.
Qed.

Lemma loopStep_evolves fw str state idx w w' state' idx' :
  loopStep fw str state idx w = Ok (w', state', idx') -> evolves w w'.
Proof.
  unfold loopStep.
  destruct (ANSIWalk str idx) as [[[r rSize] next] ok].
  intros H. bind_inv H as [w1 st1] H1.
  assert (E1 : evolves w w1).
  { destruct (ok && (next - rSize >? idx)).
    - bind_inv H1 as w0 H0. bind_inv H1 as esc Hesc. inversion H1; subst.
      eapply ev_trans; [eapply flushWordBuffer_evolves; eassumption |].
      apply ev_frame; repeat split.
    - inversion H1; subst. apply ev_refl. }
  eapply ev_trans; [exact E1 |]. clear E1 H1.
  destruct (r =? 160).
  - inversion H; subst. apply ev_frame; repeat split.
  - destruct (unicode.IsSpace r).
    + bind_inv H as w2 H2. bind_inv H as w3 H3. inversion H; subst. clear H.
      eapply ev_trans; [eapply flushWordBuffer_evolves; eassumption |].
      destruct (r =? 32).
      { inversion H3; subst. apply writeSpaceToLine_evolves. }
      destruct (isHardBreakRune r).
      { inversion H3; subst. eapply ev_trans.
        - apply (@ev_line w2 true false). discriminate.
        - apply ev_frame; repeat split. }
      destruct (r =? 9).
      { bind_inv H3 as [w4 adj] H4. inversion H3; subst.
        eapply ev_trans; [eapply writeTabToLine_evolves; eassumption |].
        apply ev_frame; repeat split. }
      destruct ((r =? 11) || (r =? 12)).
      { inversion H3; subst. apply ev_refl. }
      inversion H3; subst.
      eapply ev_trans; [apply writeSpaceToLine_evolves |].
      apply ev_frame; repeat split.
    + bind_inv H as tail Htail.
      destruct (StepString tail st1) as [cl st2].
      destruct (negb (len cl =? 0)); inversion H; subst;
        apply ev_frame; repeat split.
Qed.

Lemma loop_evolves fuel fw str :
  forall state idx w w',
    loop fuel fw str state idx w = Ok w' -> evolves w w'.
Proof.
  induction fuel as [|fuel IH]; intros state idx w w' H; simpl in H.
  - destruct (idx <? len str); [discriminate |].
    inversion H; subst. apply ev_refl.
  - destruct (idx <? len str).
    + bind_inv H as [[w1 st1] idx1] H1.
      eapply ev_trans; [eapply loopStep_evolves; eassumption |].
      eapply IH; eassumption.
    + inversion H; subst. apply ev_refl.
Qed.

End Evolution.

(** ** What a run of [stringWrap] is made of *)

Section Runs.

Context {C : Collaborators}.

(** The segment that [writeLine] appends. *)
Lemma writeLine_segment hard split w :
  exists l,
    WrappedLines (wrappedStringSeq (writeLine hard split w))
    = WrappedLines (wrappedStringSeq w) ++ [l]
    /\ Start (OrigByteOffset l) = origStartLineByte (pos w)
    /\ End_ (OrigByteOffset l) = origStartLineByte (pos (writeLine hard split w))
    /\ Start (OrigRuneOffset l) = origStartLineRune (pos w)
    /\ End_ (OrigRuneOffset l) = origStartLineRune (pos (writeLine hard split w))
    /\ IsHardBreak l = hard
    /\ EndsWithSplitWord l = split.
Proof.
  unfold writeLine. destruct (trimWhitespace (config w));
    eexists; cbn; repeat split.
Qed.

Lemma writeLine_seq_config hard split w :
  Limit (wrappedStringSeq (writeLine hard split w)) = Limit (wrappedStringSeq w)
  /\ TabSize (wrappedStringSeq (writeLine hard split w))
     = TabSize (wrappedStringSeq w)
  /\ WordSplitAllowed (wrappedStringSeq (writeLine hard split w))
     = WordSplitAllowed (wrappedStringSeq w).
Proof.
  unfold writeLine. destruct (trimWhitespace (config w)); cbn; repeat split.
Qed.

Lemma lastWrappedLine_Some s l :
  lastWrappedLine s = Some l ->
  WrappedLines s = removelast (WrappedLines s) ++ [l].
Proof.
  unfold lastWrappedLine. destruct s as [ls a b c]; cbn.
  induction ls as [|x ls IH]; cbn; [discriminate |].
  destruct ls as [|y ls'].
  - cbn. intros H. inversion H. reflexivity.
  - intros H. cbn in IH. cbn. f_equal. apply IH. exact H.
Qed.

Lemma lastWrappedLine_None s :
  lastWrappedLine s = None -> WrappedLines s = [].
Proof.
  unfold lastWrappedLine. destruct s as [ls a b c]; cbn.
  induction ls as [|x ls IH]; cbn; [reflexivity |].
  destruct ls as [|y ls']; [discriminate |].
  intros H. apply IH in H. discriminate.
Qed.

(** The state [stringWrap] reaches before it assembles its results. *)
Definition lastState (fuel : nat) (w w' : wrapStateMachine) : Prop :=
  exists w1, flushWordBuffer fuel w = Ok w1
             /\ w' = if len (lineBuffer w1) >? 0
                     then writeSoftLine false w1 else w1.

(** The results are those of the last state, the final line terminator
    and the flag of the last segment apart. *)
Definition assembled (w' : wrapStateMachine)
           (r : bytes * option WrappedStringSeq * option error) : Prop :=
  (r = (buffer w', Some (wrappedStringSeq w'), None)
   /\ (lastWrappedLine (wrappedStringSeq w') = None
       \/ exists l, lastWrappedLine (wrappedStringSeq w') = Some l
                    /\ IsHardBreak l = true))
  \/ (exists l out,
         lastWrappedLine (wrappedStringSeq w') = Some l
         /\ IsHardBreak l = false
         /\ Truncate (buffer w') (len (buffer w') - 1) = Ok out
         /\ r = (out, Some (setLastSegmentInOrig (wrappedStringSeq w') l), None)).

Lemma finish_inv fuel w r :
  finish fuel w = Ok r ->
  exists w', lastState fuel w w' /\ assembled w' r.
Proof.
  unfold finish. intros H. bind_inv H as w1 H1.
  set (w' := if len (lineBuffer w1) >? 0 then writeSoftLine false w1 else w1) in *.
  exists w'. split; [exists w1; split; [exact H1 | reflexivity] |].
  unfold assembled.
  destruct (lastWrappedLine (wrappedStringSeq w')) as [l|] eqn:Hl.
  - destruct (IsHardBreak l) eqn:Hh; cbn in H.
    + inversion H; subst. left. split; [reflexivity |].
      right. exists l. split; [reflexivity | exact Hh].
    + bind_inv H as out Hout. inversion H; subst.
      right. exists l, out. repeat split; assumption.
  - inversion H; subst. left. split; [reflexivity | left; reflexivity].
Qed.

Lemma lastState_evolves fuel w w' : lastState fuel w w' -> evolves w w'.
Proof.
  intros [w1 [H1 ->]].
  eapply ev_trans; [eapply flushWordBuffer_evolves; exact H1 |].
  destruct (len (lineBuffer w1) >? 0).
  - apply (@ev_line _ w1 false false). discriminate.
  - apply ev_refl.
Qed.

Lemma stringWrap_inv fuel str limit tabSize trim split r :
  stringWrap fuel str limit tabSize trim split = Ok r ->
  (limit < 2 /\ r = ([], None, Some (errors_New "limit must be greater than one")))
  \/ (2 <= limit
      /\ exists w w',
          loop fuel fuel str (-1) 0 (initialState limit tabSize trim split) = Ok w
          /\ lastState fuel w w' /\ assembled w' r).
Proof.
  unfold stringWrap. destruct (limit <? 2) eqn:Hlim.
  - intros H. inversion H. left. split; [lia | reflexivity].
  - intros H. bind_inv H as w Hw. right. split; [lia |].
    destruct (finish_inv _ _ H) as [w' [Hl Ha]].
    exists w, w'. repeat split; assumption.
Qed.

(** A run that returns a sequence reached its last state by an evolution
    of the initial state; its results are assembled from that state. *)
Lemma stringWrap_run fuel str limit tabSize trim split out seq err :
  stringWrap fuel str limit tabSize trim split = Ok (out, Some seq, err) ->
  exists w',
    evolves (initialState limit tabSize trim split) w'
    /\ assembled w' (out, Some seq, err).
Proof.
  intros H. apply stringWrap_inv in H.
  destruct H as [[_ H] | [_ [w [w' [Hloop [Hlast Hasm]]]]]]; [discriminate |].
  exists w'. split; [| exact Hasm].
  eapply ev_trans; [eapply loop_evolves; exact Hloop |].
  eapply lastState_evolves; exact Hlast.
Qed.

(** The segments of the results are those of the last state, the
    [LastSegmentInOrig] flag of the last one apart. *)
Lemma assembled_lines (A : Type) (f : WrappedString -> A) w' out seq err :
  (forall l, f (markLast l) = f l) ->
  assembled w' (out, Some seq, err) ->
  map f (WrappedLines seq) = map f (WrappedLines (wrappedStringSeq w')).
Proof.
  intros Hf [[H _] | [l [o [Hl [_ [_ H]]]]]]; inversion H; subst.
  - reflexivity.
  - cbn. rewrite (lastWrappedLine_Some _ Hl) at 2.
    rewrite !map_app. cbn. rewrite Hf. reflexivity.
Qed.

Lemma assembled_config w' out seq err :
  assembled w' (out, Some seq, err) ->
  err = None
  /\ Limit seq = Limit (wrappedStringSeq w')
  /\ TabSize seq = TabSize (wrappedStringSeq w')
  /\ WordSplitAllowed seq = WordSplitAllowed (wrappedStringSeq w').
Proof.
  intros [[H _] | [l [o [Hl [_ [_ H]]]]]]; inversion H; subst;
    repeat split.
Qed.

End Runs.

(** ** Tiling of the input by the segments *)

(** Offsets that follow one another from [start] to [stop]. *)
Fixpoint chained (start : Z) (offs : list LineOffset) (stop : Z) : Prop :=
  match offs with
  | [] => start = stop
  | o :: offs' => Start o = start /\ chained (End_ o) offs' stop
  end.

(** The first interval starts at 0 and each interval ends where the next
    one starts. *)
Definition tiles (offs : list LineOffset) : Prop :=
  (forall o, nth_error offs 0 = Some o -> Start o = 0)
  /\ (forall i a b,
         nth_error offs i = Some a -> nth_error offs (S i) = Some b ->
         End_ a = Start b).

Lemma chained_app start offs mid o :
  chained start offs mid -> Start o = mid ->
  chained start (offs ++ [o]) (End_ o).
Proof.
  revert start. induction offs as [|x offs IH]; cbn; intros start H Ho.
  - split; [congruence | reflexivity].
  - destruct H as [H1 H2]. split; [exact H1 | apply IH; assumption].
Qed.

Lemma chained_consecutive offs :
  forall start stop i a b,
    chained start offs stop ->
    nth_error offs i = Some a -> nth_error offs (S i) = Some b ->
    End_ a = Start b.
Proof.
  induction offs as [|x offs IH]; intros start stop i a b H Ha Hb.
  - destruct i; discriminate.
  - destruct H as [_ H]. destruct i as [|i]; cbn in Ha, Hb.
    + inversion Ha; subst. destruct offs as [|y offs']; [discriminate |].
      cbn in Hb. inversion Hb; subst. destruct H as [H _]. symmetry. exact H.
    + eapply IH; eassumption.
Qed.

Lemma chained_tiles offs stop : chained 0 offs stop -> tiles offs.
Proof.
  intros H. split.
  - intros o Ho. destruct offs as [|x offs']; [discriminate |].
    cbn in Ho. inversion Ho; subst. destruct H as [H _]. exact H.
  - intros i a b. eapply chained_consecutive; exact H.
Qed.

Section Tiling.

Context {C : Collaborators}.

Definition tiled (w : wrapStateMachine) : Prop :=
  chained 0 (map OrigByteOffset (WrappedLines (wrappedStringSeq w)))
          (origStartLineByte (pos w))
  /\ chained 0 (map OrigRuneOffset (WrappedLines (wrappedStringSeq w)))
             (origStartLineRune (pos w)).

Lemma evolves_tiled w w' : evolves w w' -> tiled w -> tiled w'.
Proof.
  apply evolves_keeps with (P := tiled).
  - intros v v' (_ & Hs & _ & Hb & Hr) [H1 H2].
    unfold tiled. rewrite Hs, Hb, Hr. split; assumption.
  - intros v hard split _ [H1 H2].
    destruct (writeLine_segment hard split v)
      as (l & Hl & Hbs & Hbe & Hrs & Hre & _).
    unfold tiled. rewrite Hl, !map_app. cbn [map].
    rewrite <- Hbe, <- Hre.
    split; eapply chained_app; eassumption.
Qed.

(** C1: for every input accepted without error the segments tile the
    input: the byte interval of the first segment starts at 0 and the
    byte interval of every segment ends where the next one starts, and
    the same holds of the rune intervals. *)
Theorem segments_tile_input fuel str limit tabSize trim split out seq :
  stringWrap fuel str limit tabSize trim split = Ok (out, Some seq, None) ->
  tiles (map OrigByteOffset (WrappedLines seq))
  /\ tiles (map OrigRuneOffset (WrappedLines seq)).
Proof.
  intros H. destruct (stringWrap_run _ _ _ _ _ _ H) as [w' [E A]].
  assert (T : tiled w').
  { apply (evolves_tiled E). split; reflexivity. }
  rewrite (assembled_lines OrigByteOffset (fun l => eq_refl) A).
  rewrite (assembled_lines OrigRuneOffset (fun l => eq_refl) A).
  destruct T as [T1 T2].
  split; eapply chained_tiles; eassumption.
Qed.

End Tiling.

(** ** Split flags and the echo of the configuration *)

Section Flags.

Context {C : Collaborators}.

Definition noSplitFlags (w : wrapStateMachine) : Prop :=
  splitWord (config w) = false ->
  Forall (fun b => b = false)
         (map EndsWithSplitWord (WrappedLines (wrappedStringSeq w))).

Lemma evolves_noSplitFlags w w' :
  evolves w w' -> noSplitFlags w -> noSplitFlags w'.
Proof.
  apply evolves_keeps with (P := noSplitFlags).
  - intros v v' (_ & Hs & Hc & _) H. unfold noSplitFlags.
    rewrite Hs, Hc. exact H.
  - intros v hard split Hg H. unfold noSplitFlags.
    rewrite writeLine_config. intros Hc.
    destruct (writeLine_segment hard split v) as (l & Hl & _ & _ & _ & _ & _ & Hsp).
    rewrite Hl, map_app. apply Forall_app. split; [apply H; exact Hc |].
    constructor; [| constructor]. rewrite Hsp.
    destruct split; [| reflexivity].
    rewrite Hg in Hc; [discriminate | reflexivity].
Qed.

(** C8: with word splitting disabled (the entry point [StringWrap]) no
    returned segment has its [EndsWithSplitWord] flag set. *)
Theorem StringWrap_never_flags_split fuel str limit tabSize trim out seq err :
  StringWrap fuel str limit tabSize trim = Ok (out, Some seq, err) ->
  Forall (fun l => EndsWithSplitWord l = false) (WrappedLines seq).
Proof.
  unfold StringWrap. intros H.
  destruct (stringWrap_run _ _ _ _ _ _ H) as [w' [E A]].
  assert (N : noSplitFlags w').
  { apply (evolves_noSplitFlags E). intros _. constructor. }
  unfold noSplitFlags in N.
  rewrite (evolves_config E) in N. specialize (N eq_refl).
  rewrite <- (assembled_lines EndsWithSplitWord (fun l => eq_refl) A) in N.
  rewrite Forall_map in N. exact N.
Qed.

Definition echoes (w : wrapStateMachine) : Prop :=
  Limit (wrappedStringSeq w) = limit (config w)
  /\ TabSize (wrappedStringSeq w) = tabSize (config w)
  /\ WordSplitAllowed (wrappedStringSeq w) = splitWord (config w).

Lemma evolves_echoes w w' : evolves w w' -> echoes w -> echoes w'.
Proof.
  apply evolves_keeps with (P := echoes).
  - intros v v' (_ & Hs & Hc & _) H. unfold echoes. rewrite Hs, Hc. exact H.
  - intros v hard split _ H. unfold echoes.
    destruct (writeLine_seq_config hard split v) as (-> & -> & ->).
    rewrite writeLine_config. exact H.
Qed.

(** C10: on every successful call the returned sequence echoes the
    configuration: [Limit] and [TabSize] are the arguments and
    [WordSplitAllowed] is false for [StringWrap], true for
    [StringWrapSplit]. *)
Theorem sequence_echoes_configuration
        (split : bool) fuel str limit tabSize trim out oseq :
  (if split then StringWrapSplit fuel str limit tabSize trim
   else StringWrap fuel str limit tabSize trim) = Ok (out, oseq, None) ->
  exists seq,
    oseq = Some seq
    /\ Limit seq = limit /\ TabSize seq = tabSize
    /\ WordSplitAllowed seq = split.
Proof.
  intros H.
  assert (H' : stringWrap fuel str limit tabSize trim split = Ok (out, oseq, None)).
  { destruct split; exact H. }
  clear H. destruct oseq as [seq|].
  - exists seq. split; [reflexivity |].
    destruct (stringWrap_run _ _ _ _ _ _ H') as [w' [E A]].
    destruct (assembled_config A) as (_ & -> & -> & ->).
    assert (Ech : echoes w').
    { apply (evolves_echoes E). repeat split. }
    destruct Ech as (-> & -> & ->).
    rewrite (evolves_config E). repeat split.
  - apply stringWrap_inv in H'.
    destruct H' as [[_ H] | [_ [w [w' [_ [_ A]]]]]]; [discriminate |].
    destruct A as [[A _] | [l [o [_ [_ [_ A]]]]]]; discriminate.
Qed.

End Flags.

(** ** The hyphen at a split point *)

Section Hyphen.

Context {C : Collaborators}.

(** The text of a line as [writeLine] emits it, before the terminator. *)
Definition lineText (cfg : wordWrapConfig) (line : bytes) : bytes :=
  if trimWhitespace cfg
  then strings.TrimRightFunc line unicode.IsSpace
  else line.

Lemma writeLine_buffers hard split w :
  buffer (writeLine hard split w)
  = buffer w ++ lineText (config w) (lineBuffer w) ++ [LF]
  /\ lineBuffer (writeLine hard split w) = []
  /\ wordBuffer (writeLine hard split w) = wordBuffer w.
Proof.
  unfold writeLine, lineText.
  destruct (trimWhitespace (config w)); cbn; repeat split.
Qed.

(** [iterFrom] moves the pending cluster and then the clusters it takes,
    the last one apart, to the sub-word; the last cluster taken is left
    pending in [cluster], the one before it is in [preLimitCluster]. *)
Lemma iterFrom_spec rest :
  forall g lineWidth lim,
  exists taken rest',
    rest = taken ++ rest'
    /\ subWordBuffer (iterFrom rest g lineWidth lim)
       = subWordBuffer g ++ concat (removelast (cluster g :: taken))
    /\ cluster (iterFrom rest g lineWidth lim) = last (cluster g :: taken) []
    /\ preLimitCluster (iterFrom rest g lineWidth lim)
       = match taken with
         | [] => preLimitCluster g
         | _ => last (removelast (cluster g :: taken)) []
         end.
Proof.
  induction rest as [|c rest IH]; intros g lineWidth lim.
  - exists [], []. cbn. rewrite app_nil_r. repeat split.
  - cbn [iterFrom]. destruct (totalWidth g lineWidth <? lim).
    + match goal with
      | |- context [iterFrom rest ?g1 _ _] =>
        destruct (IH g1 lineWidth lim) as (taken & rest' & Hr & Hs & Hc & Hp)
      end.
      cbn [subWordBuffer cluster preLimitCluster] in Hs, Hc, Hp.
      exists (c :: taken), rest'. rewrite Hs, Hc, Hp.
      split; [cbn; congruence |]. split; [| split].
      * rewrite <- app_assoc. reflexivity.
      * reflexivity.
      * destruct taken as [|t taken']; reflexivity.
    + exists [], (c :: rest). cbn. rewrite app_nil_r. repeat split.
Qed.

(** From a fresh iterator: the sub-word is made of the clusters before
    the cut; when there are any, [preLimitCluster] is the last of them
    and [cluster] the first cluster after the cut. *)
Lemma iter_cut word lineWidth lim :
  exists before after,
    NewGraphemes word = before ++ after
    /\ subWordBuffer (iter (newIter word) lineWidth lim) = concat before
    /\ (before <> [] ->
        after <> []
        /\ preLimitCluster (iter (newIter word) lineWidth lim) = last before []
        /\ cluster (iter (newIter word) lineWidth lim) = hd [] after).
Proof.
  unfold iter. cbn [graphemes newIter].
  destruct (iterFrom_spec (NewGraphemes word) (newIter word) lineWidth lim)
    as (taken & rest' & Hr & Hs & Hc & Hp).
  cbn [subWordBuffer cluster preLimitCluster newIter] in Hs, Hc, Hp.
  destruct taken as [|t taken] using rev_ind.
  - exists [], (NewGraphemes word).
    split; [reflexivity |]. split; [exact Hs |].
    intros Hne. contradiction.
  - clear IHtaken. exists taken, (t :: rest').
    rewrite Hs, Hc, Hp.
    change ([] :: taken ++ [t]) with (([] :: taken) ++ [t]).
    rewrite removelast_last, last_last.
    split; [rewrite Hr, <- app_assoc; reflexivity |].
    split; [reflexivity |].
    intros Hne. split; [discriminate |]. split; [| reflexivity].
    destruct taken as [|a taken']; [contradiction |].
    destruct (taken' ++ [t]) eqn:E; [destruct taken'; discriminate |].
    reflexivity.
Qed.

(** C5: with splitting enabled, when a word is split across lines (the
    splitting branch of [flushWordBuffer] runs and takes clusters
    [before], leaving [after]) a hyphen is appended at the cut if and
    only if the cluster before the cut and the cluster after it both
    begin with a letter or a number; the segment is flagged accordingly. *)
Theorem hyphen_iff_wordy_neighbours fuel w :
  splitWord (config w) = true ->
  wordHasNbsp w = false ->
  curWritePosition (pos w) > limit (config w) ->
  curWordWidth (pos w) <> 0 ->
  flushWordBuffer (S fuel) w
  = (w' <- flushWordBuffer fuel (splitStep w) ;; Ok (set_wordHasNbsp false w'))
  /\ exists before after,
      NewGraphemes (wordBuffer w) = before ++ after
      /\ wordBuffer (splitStep w) = from (wordBuffer w) (len (concat before))
      /\ (before <> [] ->
          let hyphen :=
            isWordyGrapheme (last before []) && isWordyGrapheme (hd [] after) in
          after <> []
          /\ buffer (splitStep w)
             = buffer w
               ++ lineText (config w)
                    (lineBuffer w ++ concat before
                     ++ (if hyphen then [HYPHEN] else []))
               ++ [LF]
          /\ exists l,
              WrappedLines (wrappedStringSeq (splitStep w))
              = WrappedLines (wrappedStringSeq w) ++ [l]
              /\ EndsWithSplitWord l = hyphen).
Proof.
  intros Hsplit Hnbsp Hex Hcw. split.
  - rewrite flushWordBuffer_S, Hsplit, Hnbsp.
    replace (curWritePosition (pos w) >? limit (config w)) with true
      by (symmetry; apply Z.gtb_lt; lia).
    replace (curWordWidth (pos w) =? 0) with false
      by (symmetry; apply Z.eqb_neq; exact Hcw).
    reflexivity.
  - destruct (iter_cut (wordBuffer w) (curLineWidth (pos w)) (limit (config w)))
      as (before & after & Hg & Hsub & Hcut).
    exists before, after. split; [exact Hg |].
    unfold splitStep.
    set (g := iter _ _ _) in *.
    set (w1 := set_lineBuffer _ w).
    set (w2 := if needsHyphen g then _ else w1).
    set (w3 := set_pos _ w2).
    destruct (writeLine_buffers false (needsHyphen g) w3) as (Hb & _ & Hw).
    destruct (writeLine_segment false (needsHyphen g) w3)
      as (l & Hl & _ & _ & _ & _ & _ & Hsp).
    cbn [wordBuffer set_pos set_wordBuffer buffer wrappedStringSeq].
    unfold writeSoftLine.
    split.
    { rewrite Hw, Hsub. subst w3 w2 w1.
      destruct (needsHyphen g); reflexivity. }
    intros Hne.
    set (hyphen := isWordyGrapheme (last before [])
                   && isWordyGrapheme (hd [] after)).
    destruct (Hcut Hne) as (Ha & Hpre & Hcl).
    assert (Hh : needsHyphen g = hyphen).
    { unfold needsHyphen, hyphen. rewrite Hpre, Hcl. apply andb_comm. }
    split; [exact Ha |]. split.
    + rewrite Hb. subst w3 w2 w1. rewrite Hh, Hsub.
      destruct hyphen; cbn; rewrite <- ?app_assoc, ?app_nil_r; reflexivity.
    + exists l. subst w3 w2 w1. split; [| congruence].
      rewrite Hl. destruct (needsHyphen g); reflexivity.
Qed.

End Hyphen.

(** ** Returning: the limit check, panics and termination *)

Lemma DecodeRuneInString_size s :
  s <> [] ->
  1 <= snd (utf8.DecodeRuneInString s) <= 4.
Proof.
  intros Hs. unfold utf8.DecodeRuneInString.
  destruct s as [|s0 t]; [contradiction |].
  destruct (s0 <? utf8.RuneSelf); [cbn; lia |].
  destruct (utf8.first s0) as [[[sz lo] hi]|]; [| cbn; lia].
  destruct (len (s0 :: t) <? sz); [cbn; lia |].
  destruct t as [|s1 t1]; [cbn; lia |].
  destruct ((s1 <? lo) || (hi <? s1)); [cbn; lia |].
  destruct (sz <=? 2); [cbn; lia |].
  destruct t1 as [|s2 t2]; [cbn; lia |].
  destruct (utf8.notCont s2); [cbn; lia |].
  destruct (sz <=? 3); [cbn; lia |].
  destruct t2 as [|s3 t3]; [cbn; lia |].
  destruct (utf8.notCont s3); cbn; lia.
Qed.

Lemma len_nonneg s : 0 <= len s.
Proof. unfold len. lia. Qed.

Lemma len_app s t : len (s ++ t) = len s + len t.
Proof. unfold len. rewrite length_app. lia. Qed.

Lemma len_from s a : 0 <= a <= len s -> len (from s a) = len s - a.
Proof. unfold len, from. intros H. rewrite length_skipn. lia. Qed.

Section Returning.

Context {C : Collaborators}.

(** The contract of the escape scanner that the loop relies on to
    advance: the rune returned lies at an index from [idx] on, inside
    the string or at its end; its size is not negative, and positive
    when the rune lies inside. *)
Definition walks_forward : Prop :=
  forall str idx r rSize next ok,
    0 <= idx < len str ->
    ANSIWalk str idx = (r, rSize, next, ok) ->
    idx <= next - rSize <= len str
    /\ 0 <= rSize
    /\ (next - rSize < len str -> 0 < rSize).

(** Every buffer the engine has written a line to is non-empty. *)
Definition linesInBuffer (w : wrapStateMachine) : Prop :=
  Z.of_nat (length (WrappedLines (wrappedStringSeq w))) <= len (buffer w).

Lemma evolves_linesInBuffer w w' :
  evolves w w' -> linesInBuffer w -> linesInBuffer w'.
Proof.
  apply evolves_keeps with (P := linesInBuffer).
  - intros v v' (Hb & Hs & _) H. unfold linesInBuffer. rewrite Hb, Hs. exact H.
  - intros v hard split _ H. unfold linesInBuffer in *.
    destruct (writeLine_segment hard split v) as (l & Hl & _).
    destruct (writeLine_buffers hard split v) as (Hb & _).
    rewrite Hl, Hb, length_app, !len_app. cbn.
    pose proof (len_nonneg (lineText (config v) (lineBuffer v))). lia.
Qed.

(** Without splitting [flushWordBuffer] does not recurse. *)
Lemma flushWordBuffer_returns fuel w :
  splitWord (config w) = false ->
  exists w', flushWordBuffer (S fuel) w = Ok w'.
Proof.
  intros Hs. rewrite flushWordBuffer_S, Hs. cbn [andb].
  destruct ((curWritePosition (pos w) >? limit (config w))
            && (curWordWidth (pos w) =? 0)); [eexists; reflexivity |].
  destruct (curWritePosition (pos w) >? limit (config w));
    eexists; reflexivity.
Qed.

Lemma flushLineBuffer_config n w :
  config (flushLineBuffer n w) = config w.
Proof. apply evolves_config, flushLineBuffer_evolves. Qed.

(** With a tab size that is not negative [writeTabToLine] does not panic. *)
Lemma writeTabToLine_returns w :
  0 <= tabSize (config w) ->
  exists w' adj, writeTabToLine w = Ok (w', adj).
Proof.
  intros Ht. unfold writeTabToLine.
  set (a := if tabSize (config w) >? 0 then _ else 0).
  assert (Ha : 0 <= a).
  { subst a. destruct (tabSize (config w) >? 0) eqn:E; [| lia].
    apply Z.gtb_lt in E.
    pose proof (Z.rem_bound_abs (curLineWidth (pos w)) (tabSize (config w))).
    lia. }
  assert (R : forall n, 0 <= n ->
                        strings.Repeat SPACE n = Ok (repeat SPACE (Z.to_nat n))).
  { intros n Hn. unfold strings.Repeat.
    destruct (n <? 0) eqn:E; [apply Z.ltb_lt in E; lia | reflexivity]. }
  destruct (len (lineBuffer (flushLineBuffer a w)) =? 0).
  - destruct (trimWhitespace (config (flushLineBuffer a w))).
    + rewrite R by lia. cbn. eauto.
    + rewrite flushLineBuffer_config. rewrite R by exact Ht. cbn. eauto.
  - rewrite R by exact Ha. cbn. eauto.
Qed.

Lemma slice_returns str a b :
  0 <= a <= b -> b <= len str -> exists s, slice str a b = Ok s.
Proof.
  intros H1 H2. unfold slice.
  replace ((0 <=? a) && (a <=? b) && (b <=? len str)) with true.
  - eauto.
  - symmetry. rewrite !andb_true_iff, !Z.leb_le. lia.
Qed.

(** Without splitting, with a tab size that is not negative and a
    scanner that walks forward, an iteration of the loop returns and
    advances the index. *)
Lemma loopStep_returns fw str state idx w :
  walks_forward ->
  splitWord (config w) = false ->
  0 <= tabSize (config w) ->
  0 <= idx < len str ->
  exists w' state' idx',
    loopStep (S fw) str state idx w = Ok (w', state', idx') /\ idx < idx'.
Proof.
  intros Hwalk Hs Ht Hidx. unfold loopStep.
  destruct (ANSIWalk str idx) as [[[r rSize] next] ok] eqn:Hw.
  destruct (Hwalk _ _ _ _ _ _ Hidx Hw) as (Hr & Hsz0 & Hsz).
  assert (E1 : exists w1 st1,
             (if ok && (next - rSize >? idx)
              then w0 <- flushWordBuffer (S fw) w ;;
                   esc <- slice str idx (next - rSize) ;;
                   Ok (writeANSIToLine esc w0, -1)
              else Ok (w, state)) = Ok (w1, st1)
             /\ config w1 = config w).
  { destruct (ok && (next - rSize >? idx)).
    - destruct (@flushWordBuffer_returns fw w Hs) as [w0 H0].
      rewrite H0. cbn [bind].
      destruct (@slice_returns str idx (next - rSize)) as [esc He]; [lia | lia |].
      rewrite He. cbn [bind]. do 2 eexists. split; [reflexivity |].
      cbn. apply evolves_config. eapply flushWordBuffer_evolves. exact H0.
    - do 2 eexists. split; reflexivity. }
  destruct E1 as (w1 & st1 & -> & Hc). cbn [bind].
  rewrite <- Hc in Hs, Ht. clear Hc.
  destruct (r =? 160).
  - do 3 eexists. split; [reflexivity |].
    destruct (Z.eq_dec (next - rSize) (len str)); lia.
  - destruct (unicode.IsSpace r).
    + destruct (@flushWordBuffer_returns fw w1 Hs) as [w2 H2].
      rewrite H2. cbn [bind].
      assert (Hc2 : config w2 = config w1).
      { apply evolves_config. eapply flushWordBuffer_evolves. exact H2. }
      match goal with
      | |- context [bind ?c _] => assert (E3 : exists w3, c = Ok w3)
      end.
      { destruct (r =? 32); [eauto |].
        destruct (isHardBreakRune r); [eauto |].
        destruct (r =? 9).
        - destruct (@writeTabToLine_returns w2) as (w4 & adj & H4);
            [rewrite Hc2; exact Ht |].
          rewrite H4. cbn. eauto.
        - destruct ((r =? 11) || (r =? 12)); eauto. }
      destruct E3 as [w3 ->]. cbn [bind].
      do 3 eexists. split; [reflexivity |].
      destruct (Z.eq_dec (next - rSize) (len str)); lia.
    + destruct (@slice_returns str (next - rSize) (len str)) as [tail Htl];
        [lia | lia |].
      rewrite Htl. cbn [bind].
      destruct (StepString tail st1) as [cl st2].
      destruct (negb (len cl =? 0)) eqn:Hcl.
      * do 3 eexists. split; [reflexivity |].
        apply negb_true_iff, Z.eqb_neq in Hcl.
        pose proof (len_nonneg cl). lia.
      * do 3 eexists. split; [reflexivity |].
        destruct (Z.eq_dec (next - rSize) (len str)); lia.
Qed.

Lemma loop_returns fw str :
  walks_forward ->
  forall fuel state idx w,
    splitWord (config w) = false ->
    0 <= tabSize (config w) ->
    0 <= idx ->
    len str - idx <= Z.of_nat fuel ->
    exists w', loop fuel (S fw) str state idx w = Ok w'.
Proof.
  intros Hwalk.
  induction fuel as [|fuel IH]; intros state idx w Hs Ht Hi Hf.
  - cbn. replace (idx <? len str) with false; [eauto |].
    symmetry. apply Z.ltb_ge. lia.
  - cbn [loop]. destruct (idx <? len str) eqn:Hlt; [| eauto].
    apply Z.ltb_lt in Hlt.
    destruct (@loopStep_returns fw str state idx w Hwalk Hs Ht (conj Hi Hlt))
      as (w1 & st1 & idx1 & H1 & Hadv).
    rewrite H1. cbn [bind].
    pose proof (evolves_config (loopStep_evolves _ _ _ _ _ H1)) as Hc.
    apply IH; rewrite ?Hc; try assumption; lia.
Qed.

Lemma finish_returns fuel w :
  splitWord (config w) = false ->
  linesInBuffer w ->
  exists out seq, finish (S fuel) w = Ok (out, Some seq, None).
Proof.
  intros Hs Hl. unfold finish.
  destruct (@flushWordBuffer_returns fuel w Hs) as [w1 H1].
  rewrite H1. cbn [bind].
  set (w' := if len (lineBuffer w1) >? 0 then writeSoftLine false w1 else w1).
  assert (E : evolves w w').
  { apply lastState_evolves with (fuel := S fuel). exists w1. split; auto. }
  pose proof (evolves_linesInBuffer E Hl) as Hl'.
  destruct (lastWrappedLine (wrappedStringSeq w')) as [l|] eqn:Hlast;
    [| eauto].
  destruct (IsHardBreak l); cbn [negb]; [eauto |].
  apply lastWrappedLine_Some in Hlast.
  unfold linesInBuffer in Hl'. rewrite Hlast, length_app in Hl'. cbn in Hl'.
  unfold Truncate.
  replace ((len (buffer w') - 1 <? 0) || (len (buffer w') <? len (buffer w') - 1))
    with false.
  - cbn. eauto.
  - symmetry. apply orb_false_iff. rewrite !Z.ltb_ge. lia.
Qed.

(** [StringWrap] returns on every input when the limit is at least 2 and
    the tab size is not negative. *)
Lemma StringWrap_returns str limit tabSize trim :
  walks_forward ->
  2 <= limit -> 0 <= tabSize ->
  exists out seq,
    StringWrap (S (length str)) str limit tabSize trim = Ok (out, Some seq, None).
Proof.
  intros Hwalk Hl Ht. unfold StringWrap, stringWrap.
  replace (limit <? 2) with false by (symmetry; apply Z.ltb_ge; lia).
  destruct (@loop_returns (length str) str Hwalk (S (length str)) (-1) 0
              (initialState limit tabSize trim false))
    as [w Hw]; [reflexivity | exact Ht | lia | unfold len; lia |].
  rewrite Hw. cbn [bind].
  pose proof (loop_evolves _ _ _ _ _ _ Hw) as E.
  apply finish_returns.
  - rewrite (evolves_config E). reflexivity.
  - apply (evolves_linesInBuffer E). unfold linesInBuffer. cbn. lia.
Qed.

(** C3 (amended): a limit below 2 makes both entry points return an
    error with an empty output and no sequence, whatever the other
    arguments; with a limit of at least 2 and a tab size that is not
    negative [StringWrap] returns a nil error on every input, and
    whatever [StringWrapSplit] returns comes with a sequence and a nil
    error. *)
Theorem limit_is_the_only_error str limit tabSize trim :
  walks_forward ->
  (limit < 2 ->
   forall fuel,
     StringWrap fuel str limit tabSize trim
     = Ok ([], None, Some (errors_New "limit must be greater than one"))
     /\ StringWrapSplit fuel str limit tabSize trim
        = Ok ([], None, Some (errors_New "limit must be greater than one")))
  /\ (2 <= limit -> 0 <= tabSize ->
      exists fuel out seq,
        StringWrap fuel str limit tabSize trim = Ok (out, Some seq, None))
  /\ (2 <= limit ->
      forall fuel out oseq err,
        StringWrapSplit fuel str limit tabSize trim = Ok (out, oseq, err) ->
        oseq <> None /\ err = None).
Proof.
  intros Hwalk. split; [| split].
  - intros Hl fuel. unfold StringWrap, StringWrapSplit, stringWrap.
    replace (limit <? 2) with true by (symmetry; apply Z.ltb_lt; lia).
    split; reflexivity.
  - intros Hl Ht. exists (S (length str)).
    apply StringWrap_returns; assumption.
  - intros Hl fuel out oseq err H. apply stringWrap_inv in H.
    destruct H as [[H _] | [_ (w & w' & _ & _ & A)]]; [lia |].
    destruct A as [[A _] | (l & o & _ & _ & _ & A)]; inversion A; subst;
      split; congruence.
Qed.

End Returning.

(** ** Line terminators of the output *)

Definition noLF (s : bytes) : Prop := ~ In LF s.

Lemma noLF_nil : noLF [].
Proof. intros H. exact H. Qed.

Lemma noLF_app s t : noLF s -> noLF t -> noLF (s ++ t).
Proof. unfold noLF. intros Hs Ht H. apply in_app_or in H. tauto. Qed.

Lemma incl_firstn (A : Type) (n : nat) (l : list A) : incl (firstn n l) l.
Proof.
  intros x H. rewrite <- (firstn_skipn n l). apply in_or_app. left. exact H.
Qed.

Lemma incl_skipn (A : Type) (n : nat) (l : list A) : incl (skipn n l) l.
Proof.
  intros x H. rewrite <- (firstn_skipn n l). apply in_or_app. right. exact H.
Qed.

Lemma noLF_upto s n : noLF s -> noLF (upto s n).
Proof. unfold noLF, upto. intros Hs H. apply Hs. eapply incl_firstn; exact H. Qed.

Lemma noLF_from s n : noLF s -> noLF (from s n).
Proof. unfold noLF, from. intros Hs H. apply Hs. eapply incl_skipn; exact H. Qed.

Lemma noLF_repeat_space n : noLF (repeat SPACE n).
Proof. intros H. apply repeat_spec in H. discriminate. Qed.

Lemma noLF_TrimRightFunc s f : noLF s -> noLF (strings.TrimRightFunc s f).
Proof. unfold strings.TrimRightFunc. apply noLF_upto. Qed.

Lemma noLF_incl s t : incl s t -> noLF t -> noLF s.
Proof. unfold noLF. intros Hi Ht H. apply Ht, Hi, H. Qed.

Lemma noLF_concat (ss : list bytes) : Forall noLF ss -> noLF (concat ss).
Proof.
  induction 1 as [|s ss Hs _ IH]; cbn; [apply noLF_nil | apply noLF_app; assumption].
Qed.

(** The space runes: what [unicode.IsSpace] accepts. *)
Lemma IsSpace_cases r :
  unicode.IsSpace r = true ->
  In r [9; 10; 11; 12; 13; 32; 0x85; 0xA0; 0x1680;
        0x2000; 0x2001; 0x2002; 0x2003; 0x2004; 0x2005;
        0x2006; 0x2007; 0x2008; 0x2009; 0x200A;
        0x2028; 0x2029; 0x202F; 0x205F; 0x3000].
Proof.
  unfold unicode.IsSpace.
  destruct ((0 <=? r) && (r <=? 255)).
  - rewrite !orb_true_iff, !Z.eqb_eq. cbn. intuition.
  - rewrite !orb_true_iff, !andb_true_iff, !Z.eqb_eq, !Z.leb_le. cbn.
    intros H.
    assert (r = 0x1680 \/ r = 0x2000 \/ r = 0x2001 \/ r = 0x2002 \/ r = 0x2003
            \/ r = 0x2004 \/ r = 0x2005 \/ r = 0x2006 \/ r = 0x2007
            \/ r = 0x2008 \/ r = 0x2009 \/ r = 0x200A \/ r = 0x2028
            \/ r = 0x2029 \/ r = 0x202F \/ r = 0x205F \/ r = 0x3000) by lia.
    intuition.
Qed.

Lemma EncodeRune_space_noLF r :
  unicode.IsSpace r = true -> r <> LF -> noLF (utf8.EncodeRune r).
Proof.
  intros Hs Hr. apply IsSpace_cases in Hs. cbn in Hs.
  repeat (destruct Hs as [<- | Hs];
          [first [ exfalso; apply Hr; reflexivity
                 | vm_compute; intuition discriminate ] |]).
  contradiction.
Qed.

Lemma DecodeRuneInString_ascii b t :
  b < 128 -> utf8.DecodeRuneInString (b :: t) = (b, 1).
Proof.
  intros Hb. unfold utf8.DecodeRuneInString, utf8.RuneSelf.
  replace (b <? 128) with true by (symmetry; apply Z.ltb_lt; exact Hb).
  reflexivity.
Qed.

(** [strings.Split] and [strings.Join] on lines without terminator. *)
Lemma Split_noLF t : noLF t -> strings.Split t LF = [t].
Proof.
  induction t as [|c t IH]; intros H; [reflexivity |].
  cbn. destruct (c =? LF) eqn:E.
  - apply Z.eqb_eq in E. exfalso. apply H. left. congruence.
  - rewrite IH; [reflexivity |]. intros Hin. apply H. right. exact Hin.
Qed.

Lemma Split_line t s :
  noLF t -> strings.Split (t ++ LF :: s) LF = t :: strings.Split s LF.
Proof.
  induction t as [|c t IH]; intros H.
  - cbn. reflexivity.
  - cbn. destruct (c =? LF) eqn:E.
    + apply Z.eqb_eq in E. exfalso. apply H. left. congruence.
    + rewrite IH; [reflexivity |]. intros Hin. apply H. right. exact Hin.
Qed.

(** The text of lines each followed by a terminator. *)
Definition terminated (ts : list bytes) : bytes :=
  concat (map (fun t => t ++ [LF]) ts).

Lemma terminated_snoc ts t : terminated (ts ++ [t]) = terminated ts ++ t ++ [LF].
Proof.
  unfold terminated. rewrite map_app, concat_app. cbn.
  rewrite app_nil_r. reflexivity.
Qed.

Lemma Split_terminated ts :
  Forall noLF ts -> strings.Split (terminated ts) LF = ts ++ [[]].
Proof.
  induction 1 as [|t ts Ht _ IH]; [reflexivity |].
  unfold terminated in *. cbn. rewrite <- app_assoc. cbn.
  rewrite Split_line by exact Ht. rewrite IH. reflexivity.
Qed.

Lemma Join_snoc ts t :
  strings.Join (ts ++ [t]) LF = terminated ts ++ t.
Proof.
  induction ts as [|a ts IH]; [reflexivity |].
  change ((a :: ts) ++ [t]) with (a :: (ts ++ [t])).
  cbn [strings.Join]. destruct (ts ++ [t]) eqn:E.
  - destruct ts; discriminate.
  - rewrite IH. unfold terminated. cbn. rewrite <- !app_assoc. reflexivity.
Qed.

Lemma Split_Join ts :
  ts <> [] -> Forall noLF ts -> strings.Split (strings.Join ts LF) LF = ts.
Proof.
  intros Hne H. induction H as [|t ts Ht Hts IH]; [contradiction |].
  destruct ts as [|u ts'].
  - cbn. apply Split_noLF. exact Ht.
  - change (strings.Join (t :: u :: ts') LF)
      with (t ++ LF :: strings.Join (u :: ts') LF).
    rewrite Split_line by exact Ht.
    rewrite IH by discriminate. reflexivity.
Qed.

Lemma upto_app_all s t : upto (s ++ t) (len s) = s.
Proof.
  unfold upto, len. rewrite Nat2Z.id, firstn_app, Nat.sub_diag, firstn_all.
  cbn. apply app_nil_r.
Qed.

Section Terminators.

Context {C : Collaborators}.

(** What the engine needs of its collaborators for its lines to stay
    whole:
    - the escape scanner walks forward;
    - an escape run holds no line feed;
    - the rune that [ANSIWalk] returns is the rune at the index it
      reports;
    - a grapheme cluster of a string that does not begin with a line
      feed or a carriage return holds no line feed;
    - the clusters of a word are made of bytes of the word. *)
Definition escape_runs_without_LF : Prop :=
  forall str idx r rSize next ok esc,
    0 <= idx < len str ->
    ANSIWalk str idx = (r, rSize, next, ok) ->
    slice str idx (next - rSize) = Ok esc ->
    noLF esc.

Definition rune_is_decoded : Prop :=
  forall str idx r rSize next ok,
    0 <= idx < len str ->
    ANSIWalk str idx = (r, rSize, next, ok) ->
    next - rSize < len str ->
    fst (utf8.DecodeRuneInString (from str (next - rSize))) = r.

Definition clusters_without_LF : Prop :=
  forall s state,
    (forall b, hd_error s = Some b -> b <> LF /\ b <> 13) ->
    noLF (fst (StepString s state)).

Definition graphemes_within_word : Prop :=
  forall word c, In c (NewGraphemes word) -> incl c word.

Record whole_lines : Prop := {
  wl_walk : walks_forward;
  wl_escape : escape_runs_without_LF;
  wl_rune : rune_is_decoded;
  wl_cluster : clusters_without_LF;
  wl_graphemes : graphemes_within_word
}.

(** The buffers under construction hold no line feed, and the output
    buffer is made of one terminated line per segment. *)
Definition lined (w : wrapStateMachine) : Prop :=
  noLF (lineBuffer w)
  /\ noLF (wordBuffer w)
  /\ exists ts,
      length ts = length (WrappedLines (wrappedStringSeq w))
      /\ Forall noLF ts
      /\ buffer w = terminated ts.

Lemma lined_frame w w' :
  frame w w' -> noLF (lineBuffer w') -> noLF (wordBuffer w') ->
  lined w -> lined w'.
Proof.
  intros (Hb & Hs & _) Hl Hw (_ & _ & ts & H1 & H2 & H3).
  split; [exact Hl |]. split; [exact Hw |].
  exists ts. rewrite Hb, Hs. repeat split; assumption.
Qed.

Lemma lined_writeLine hard split w : lined w -> lined (writeLine hard split w).
Proof.
  intros (Hl & Hw & ts & H1 & H2 & H3).
  destruct (writeLine_buffers hard split w) as (Hb & Hlb & Hwb).
  destruct (writeLine_segment hard split w) as (l & Hseg & _).
  split; [rewrite Hlb; apply noLF_nil |].
  split; [rewrite Hwb; exact Hw |].
  assert (Ht : noLF (lineText (config w) (lineBuffer w))).
  { unfold lineText. destruct (trimWhitespace (config w));
      [apply noLF_TrimRightFunc |]; exact Hl. }
  exists (ts ++ [lineText (config w) (lineBuffer w)]).
  rewrite Hseg, Hb, H3, !length_app, H1, terminated_snoc.
  repeat split. apply Forall_app. split; [exact H2 |].
  constructor; [exact Ht | constructor].
Qed.

Lemma lined_flushLineBuffer n w : lined w -> lined (flushLineBuffer n w).
Proof.
  unfold flushLineBuffer.
  destruct (curLineWidth (pos w) + n >? limit (config w));
    [apply lined_writeLine | trivial].
Qed.

Lemma lined_set_lineBuffer w line :
  lined w -> noLF line -> lined (set_lineBuffer line w).
Proof.
  intros H Hn. apply lined_frame with (w := w); [repeat split | | | exact H].
  - exact Hn.
  - apply H.
Qed.

Lemma lined_line w line :
  lined w -> noLF line -> lined (set_lineBuffer (lineBuffer w ++ line) w).
Proof.
  intros H Hn. apply lined_set_lineBuffer; [exact H |].
  apply noLF_app; [apply H | exact Hn].
Qed.

Lemma lined_pos w p : lined w -> lined (set_pos p w).
Proof. intros H. exact H. Qed.

Lemma lined_writeSpaceToLine r w :
  noLF (utf8.EncodeRune r) -> lined w -> lined (writeSpaceToLine r w).
Proof.
  intros Hr H. unfold writeSpaceToLine.
  pose proof (lined_flushLineBuffer 1 H) as H1.
  destruct (negb (trimWhitespace (config (flushLineBuffer 1 w)))
            || (curLineWidth (pos (flushLineBuffer 1 w)) >? 0)).
  - apply lined_pos, lined_line; assumption.
  - apply lined_pos. exact H1.
Qed.

Lemma lined_writeTabToLine w w' adj :
  writeTabToLine w = Ok (w', adj) -> lined w -> lined w'.
Proof.
  unfold writeTabToLine.
  set (a := if tabSize (config w) >? 0 then _ else 0).
  intros H Hl. pose proof (lined_flushLineBuffer a Hl) as H1.
  assert (R : forall n s, strings.Repeat SPACE n = Ok s -> noLF s).
  { intros n s. unfold strings.Repeat. destruct (n <? 0); [discriminate |].
    intros E. inversion E. apply noLF_repeat_space. }
  destruct (len (lineBuffer (flushLineBuffer a w)) =? 0);
    [destruct (trimWhitespace (config (flushLineBuffer a w))) |];
    bind_inv H as sp Hsp; inversion H; subst;
      (apply lined_set_lineBuffer;
       [try apply lined_pos; exact H1
       | apply noLF_app; [apply H1 | eapply R; exact Hsp]]).
Qed.

Lemma lined_writeWord w : lined w -> lined (writeWord w).
Proof.
  intros H. apply lined_frame with (w := w); [repeat split | | | exact H].
  - cbn. apply noLF_app; apply H.
  - apply noLF_nil.
Qed.

Lemma lined_splitStep w :
  graphemes_within_word -> lined w -> lined (splitStep w).
Proof.
  intros Hg H.
  destruct (iter_cut (wordBuffer w) (curLineWidth (pos w)) (limit (config w)))
    as (before & after & Hcs & Hsub & _).
  assert (Hn : noLF (concat before)).
  { apply noLF_concat, Forall_forall. intros c Hc.
    apply noLF_incl with (t := wordBuffer w); [| apply H].
    apply Hg. rewrite Hcs. apply in_or_app. left. exact Hc. }
  unfold splitStep.
  set (g := iter _ _ _) in *.
  set (w1 := set_lineBuffer _ w).
  set (w2 := if needsHyphen g then _ else w1).
  set (w3 := set_pos _ w2).
  assert (H3 : lined w3).
  { assert (H1 : lined w1) by (apply lined_line; [exact H | rewrite Hsub; exact Hn]).
    subst w3. apply lined_pos. subst w2.
    destruct (needsHyphen g); [| exact H1].
    apply lined_pos, lined_line; [exact H1 |].
    vm_compute. intuition discriminate. }
  pose proof (lined_writeLine false (needsHyphen g) H3) as H4.
  apply lined_pos. unfold writeSoftLine.
  apply lined_frame with (w := writeLine false (needsHyphen g) w3);
    [repeat split | apply H4 | | exact H4].
  cbn. apply noLF_from. apply H4.
Qed.

Lemma lined_flushWordBuffer fuel :
  graphemes_within_word ->
  forall w w', flushWordBuffer fuel w = Ok w' -> lined w -> lined w'.
Proof.
  intros Hg.
  induction fuel as [|fuel IH]; intros w w' H Hl; [discriminate |].
  rewrite flushWordBuffer_S in H.
  destruct ((curWritePosition (pos w) >? limit (config w))
            && (curWordWidth (pos w) =? 0)).
  { inversion H; subst. apply lined_writeLine. exact Hl. }
  destruct (curWritePosition (pos w) >? limit (config w)).
  - destruct (splitWord (config w) && negb (wordHasNbsp w)).
    + bind_inv H as w1 H1. inversion H; subst.
      apply (IH _ _ H1). apply lined_splitStep; assumption.
    + inversion H; subst.
      apply (@lined_writeWord (if curLineWidth (pos w) >? 0
                               then writeSoftLine false w else w)).
      destruct (curLineWidth (pos w) >? 0);
        [apply lined_writeLine |]; exact Hl.
  - inversion H; subst. apply (lined_writeWord Hl).
Qed.

Lemma lined_word w s :
  lined w -> noLF s -> lined (set_wordBuffer (wordBuffer w ++ s) w).
Proof.
  intros H Hn. apply lined_frame with (w := w); [repeat split | | | exact H].
  - apply H.
  - cbn. apply noLF_app; [apply H | exact Hn].
Qed.

Lemma slice_to_end str a tail :
  slice str a (len str) = Ok tail -> 0 <= a <= len str /\ tail = from str a.
Proof.
  unfold slice.
  destruct ((0 <=? a) && (a <=? len str) && (len str <=? len str)) eqn:E;
    [| discriminate].
  rewrite !andb_true_iff, !Z.leb_le in E. intros H. inversion H.
  split; [lia |]. unfold upto. apply firstn_all2.
  unfold from, len in *. rewrite length_skipn. lia.
Qed.

Lemma loopStep_lined fw str state idx w w' state' idx' :
  whole_lines ->
  0 <= idx < len str ->
  loopStep fw str state idx w = Ok (w', state', idx') ->
  lined w -> lined w' /\ 0 <= idx'.
Proof.
  intros [Hwalk Hesc Hrune Hcl Hg] Hidx. unfold loopStep.
  destruct (ANSIWalk str idx) as [[[r rSize] next] ok] eqn:Hw.
  destruct (Hwalk _ _ _ _ _ _ Hidx Hw) as (Hr & Hsz0 & Hsz).
  intros H Hl. bind_inv H as [w1 st1] H1.
  assert (L1 : lined w1).
  { destruct (ok && (next - rSize >? idx)).
    - bind_inv H1 as w0 H0. bind_inv H1 as esc He. inversion H1; subst.
      apply lined_line.
      + eapply lined_flushWordBuffer; eassumption.
      + eapply Hesc; eassumption.
    - inversion H1; subst. exact Hl. }
  clear H1 Hl.
  destruct (r =? 160) eqn:E160.
  { apply Z.eqb_eq in E160. subst r. inversion H; subst. split; [| lia].
    apply lined_pos.
    apply (@lined_word (set_wordHasNbsp true w1) (utf8.EncodeRune 160));
      [exact L1 |].
    vm_compute. intuition discriminate. }
  destruct (unicode.IsSpace r) eqn:Esp.
  - bind_inv H as w2 H2. bind_inv H as w3 H3. inversion H; subst. clear H.
    split; [| lia].
    assert (L2 : lined w2) by (eapply lined_flushWordBuffer; eassumption).
    destruct (r =? 32) eqn:E32.
    { apply Z.eqb_eq in E32. subst r. inversion H3; subst.
      apply lined_writeSpaceToLine; [| exact L2].
      vm_compute. intuition discriminate. }
    destruct (isHardBreakRune r) eqn:Ehard.
    { inversion H3; subst. apply lined_pos. apply lined_writeLine. exact L2. }
    destruct (r =? 9).
    { bind_inv H3 as [w4 adj] H4. inversion H3; subst.
      apply lined_pos. eapply lined_writeTabToLine; eassumption. }
    destruct ((r =? 11) || (r =? 12)).
    { inversion H3; subst. exact L2. }
    inversion H3; subst. apply lined_pos.
    apply lined_writeSpaceToLine; [| exact L2].
    apply EncodeRune_space_noLF; [exact Esp |].
    intros ->. discriminate.
  - bind_inv H as tail Htail.
    apply slice_to_end in Htail. destruct Htail as [Hin ->].
    assert (Hhd : forall b, hd_error (from str (next - rSize)) = Some b ->
                            b <> LF /\ b <> 13).
    { intros b Hb.
      destruct (from str (next - rSize)) as [|b0 t] eqn:Ef; [discriminate |].
      inversion Hb; subst b0.
      assert (Hlt : next - rSize < len str).
      { pose proof (len_from str Hin) as Hlen. rewrite Ef in Hlen.
        unfold len in Hlen at 1. cbn in Hlen. lia. }
      pose proof (Hrune _ _ _ _ _ _ Hidx Hw Hlt) as Hd. rewrite Ef in Hd.
      split; intros ->; rewrite DecodeRuneInString_ascii in Hd by (cbv; reflexivity);
        cbn in Hd; subst r; discriminate. }
    pose proof (Hcl _ st1 Hhd) as Hn.
    destruct (StepString (from str (next - rSize)) st1) as [cl st2].
    cbn in Hn.
    destruct (negb (len cl =? 0)); inversion H; subst.
    + split; [| pose proof (len_nonneg cl); lia].
      apply (@lined_word (set_pos _ w1) cl); [apply lined_pos; exact L1 | exact Hn].
    + split; [exact L1 | lia].
Qed.

Lemma loop_lined fw str :
  whole_lines ->
  forall fuel state idx w w',
    0 <= idx ->
    loop fuel fw str state idx w = Ok w' ->
    lined w -> lined w'.
Proof.
  intros Hwl.
  induction fuel as [|fuel IH]; intros state idx w w' Hi H Hl; cbn [loop] in H.
  - destruct (idx <? len str); [discriminate |]. inversion H; subst. exact Hl.
  - destruct (idx <? len str) eqn:Hlt.
    + apply Z.ltb_lt in Hlt. bind_inv H as [[w1 st1] idx1] H1.
      destruct (loopStep_lined _ _ _ Hwl (conj Hi Hlt) H1 Hl) as [L1 Hi1].
      eapply IH; eassumption.
    + inversion H; subst. exact Hl.
Qed.

Definition lastIsHardBreak (seq : WrappedStringSeq) : bool :=
  match lastWrappedLine seq with
  | Some l => IsHardBreak l
  | None => false
  end.

Lemma lastWrappedLine_snoc ls l a b c :
  lastWrappedLine {| WrappedLines := ls ++ [l]; WordSplitAllowed := a;
                     TabSize := b; Limit := c |} = Some l.
Proof.
  unfold lastWrappedLine. cbn. rewrite map_app. cbn. apply last_last.
Qed.

(** The output is made of one line per segment, each followed by one
    line feed, the line feed of the last segment being left out when
    that segment is not a hard break. *)
Lemma output_lines fuel str limit tabSize trim split out seq err :
  whole_lines ->
  stringWrap fuel str limit tabSize trim split = Ok (out, Some seq, err) ->
  exists ts,
    length ts = length (WrappedLines seq)
    /\ Forall noLF ts
    /\ out = if lastIsHardBreak seq then terminated ts
             else strings.Join ts LF.
Proof.
  intros Hwl H. apply stringWrap_inv in H.
  destruct H as [[_ H] | [_ (w & w' & Hloop & Hlast & A)]]; [discriminate |].
  assert (L : lined w').
  { destruct Hlast as (w1 & H1 & ->).
    assert (L1 : lined w1).
    { eapply lined_flushWordBuffer; [apply Hwl | exact H1 |].
      eapply loop_lined; [exact Hwl | | exact Hloop |]; [lia |].
      split; [apply noLF_nil |]. split; [apply noLF_nil |].
      exists []. repeat split. constructor. }
    destruct (len (lineBuffer w1) >? 0); [apply lined_writeLine |]; exact L1. }
  destruct L as (_ & _ & ts & Hn & Hts & Hb).
  destruct A as [[A Hcase] | (l & o & Hl & Hh & Ht & A)]; inversion A; subst.
  - destruct Hcase as [Hnone | (l & Hl & Hh)].
    + exists ts. unfold lastIsHardBreak. rewrite Hnone.
      apply lastWrappedLine_None in Hnone. rewrite Hnone in Hn.
      destruct ts; [| discriminate].
      split; [rewrite Hnone; reflexivity |]. split; [exact Hts | exact Hb].
    + exists ts. unfold lastIsHardBreak. rewrite Hl, Hh.
      repeat split; assumption.
  - exists ts. unfold lastIsHardBreak, setLastSegmentInOrig.
    rewrite lastWrappedLine_snoc. cbn [IsHardBreak markLast]. rewrite Hh.
    pose proof (lastWrappedLine_Some _ Hl) as Hls.
    split; [| split; [exact Hts |]].
    + cbn. rewrite Hn, Hls at 1. rewrite !length_app. reflexivity.
    + destruct ts as [|t ts'] using rev_ind.
      { rewrite Hls, length_app in Hn. cbn in Hn. lia. }
      clear IHts'. rewrite Join_snoc.
      unfold Truncate in Ht.
      destruct ((len (buffer w') - 1 <? 0) || (len (buffer w') <? len (buffer w') - 1));
        [discriminate |].
      inversion Ht. rewrite Hb, terminated_snoc.
      rewrite app_assoc, len_app.
      replace (len (terminated ts' ++ t) + len [LF] - 1)
        with (len (terminated ts' ++ t)) by (cbn; lia).
      apply upto_app_all.
Qed.

(** C7 (amended): in the output every segment's line is followed by a
    single line feed, except that no line feed follows the last segment
    when that segment is not a hard break; when the last segment is a
    hard break its line feed ends the output. *)
Theorem lines_are_terminated fuel str limit tabSize trim split out seq err :
  whole_lines ->
  stringWrap fuel str limit tabSize trim split = Ok (out, Some seq, err) ->
  exists ts,
    length ts = length (WrappedLines seq)
    /\ Forall noLF ts
    /\ (lastIsHardBreak seq = true -> out = terminated ts)
    /\ (lastIsHardBreak seq = false -> out = strings.Join ts LF).
Proof.
  intros Hwl H.
  destruct (output_lines _ _ _ _ _ _ Hwl H) as (ts & Hn & Hts & Hout).
  exists ts. split; [exact Hn |]. split; [exact Hts |].
  split; intros E; rewrite E in Hout; exact Hout.
Qed.

(** C2 (amended): the number of segments is the number of pieces of the
    output split on line feeds when the last segment is not a hard
    break; when it is a hard break, or when there is no segment, the
    split yields one piece more than there are segments. *)
Theorem segments_and_split_pieces fuel str limit tabSize trim split out seq err :
  whole_lines ->
  stringWrap fuel str limit tabSize trim split = Ok (out, Some seq, err) ->
  length (strings.Split out LF)
  = (length (WrappedLines seq)
     + match lastWrappedLine seq with
       | Some l => if IsHardBreak l then 1 else 0
       | None => 1
       end)%nat.
Proof.
  intros Hwl H.
  destruct (output_lines _ _ _ _ _ _ Hwl H) as (ts & Hn & Hts & Hout).
  unfold lastIsHardBreak in Hout. rewrite <- Hn.
  destruct (lastWrappedLine seq) as [l|] eqn:Hl.
  - destruct (IsHardBreak l).
    + rewrite Hout, Split_terminated by exact Hts. apply length_app.
    + rewrite Hout, Split_Join; [lia | | exact Hts].
      apply lastWrappedLine_Some in Hl. rewrite Hl, length_app in Hn.
      destruct ts; [cbn in Hn; lia | discriminate].
  - apply lastWrappedLine_None in Hl. rewrite Hl in Hn.
    destruct ts; [| discriminate]. rewrite Hout. reflexivity.
Qed.

End Terminators.

(** ** The reference instance meets the contracts *)

Module RefContract.

Import Ref.

Lemma csiBody_spec s :
  forall k, csiBody s = Some k ->
            (k <= length s)%nat /\ noLF (firstn k s).
Proof.
  induction s as [|b s IH]; intros k H; cbn in H; [discriminate |].
  destruct ((0x40 <=? b) && (b <=? 0x7E)) eqn:E1.
  - inversion H; subst. cbn. split; [lia |].
    intros [Hb | []]. subst b. discriminate.
  - destruct ((0x20 <=? b) && (b <=? 0x3F)) eqn:E2; [| discriminate].
    destruct (csiBody s) as [k'|]; [| discriminate].
    inversion H; subst. destruct (IH k' eq_refl) as [Hk Hn].
    cbn. split; [lia |].
    intros [Hb | Hin]; [subst b; discriminate | exact (Hn Hin)].
Qed.

Lemma firstn_plus (A : Type) (n m : nat) (l : list A) :
  firstn (n + m) l = firstn n l ++ firstn m (skipn n l).
Proof.
  revert l. induction n as [|n IH]; intros l; [reflexivity |].
  destruct l as [|x l]; cbn.
  - rewrite firstn_nil. reflexivity.
  - rewrite IH. reflexivity.
Qed.

Lemma skipEscapes_spec fuel :
  forall s, (skipEscapes fuel s <= length s)%nat
            /\ noLF (firstn (skipEscapes fuel s) s).
Proof.
  induction fuel as [|fuel IH]; intros s; cbn [skipEscapes].
  - split; [lia | apply noLF_nil].
  - destruct s as [|e [|br s']]; try (split; [cbn; lia | apply noLF_nil]).
    destruct ((e =? ESC) && (br =? 91)) eqn:E;
      [| split; [cbn; lia | apply noLF_nil]].
    apply andb_prop in E. destruct E as [Ee Eb].
    apply Z.eqb_eq in Ee, Eb. subst e br.
    destruct (csiBody s') as [k|] eqn:Hk;
      [| split; [cbn; lia | apply noLF_nil]].
    destruct (csiBody_spec _ Hk) as [Hle Hn].
    destruct (IH (skipn k s')) as [Hle' Hn'].
    rewrite length_skipn in Hle'.
    split; [cbn; lia |].
    cbn [Nat.add firstn]. rewrite firstn_plus.
    intros [H | [H | H]]; [discriminate | discriminate |].
    apply in_app_or in H. destruct H; [exact (Hn H) | exact (Hn' H)].
Qed.

Lemma ANSIWalk_index str idx r rSize next ok :
  ANSIWalk str idx = (r, rSize, next, ok) ->
  let k := Z.of_nat (skipEscapes (length (from str idx)) (from str idx)) in
  next - rSize = idx + k
  /\ utf8.DecodeRuneInString (from (from str idx) k) = (r, rSize).
Proof.
  unfold ANSIWalk.
  destruct (utf8.DecodeRuneInString _) as [r0 sz] eqn:E.
  intros H. inversion H; subst. split; [lia | reflexivity].
Qed.

Lemma from_from s a b : 0 <= a -> 0 <= b -> from (from s a) b = from s (a + b).
Proof.
  intros Ha Hb. unfold from. rewrite skipn_skipn. f_equal. lia.
Qed.

Lemma walks_forward_ref : walks_forward.
Proof.
  intros str idx r rSize next ok Hidx H.
  apply ANSIWalk_index in H. cbv zeta in H. destruct H as [Hi Hd].
  set (s := from str idx) in *.
  pose proof (proj1 (skipEscapes_spec (length s) s)) as Hk.
  assert (Hs : len s = len str - idx) by (apply len_from; lia).
  unfold len in Hs at 1.
  rewrite Hi. split; [lia |].
  destruct (from s (Z.of_nat (skipEscapes (length s) s))) as [|b t] eqn:Ef.
  - cbn in Hd. inversion Hd; subst. split; [lia |].
    intros Hlt. exfalso.
    assert (Hl : len (from s (Z.of_nat (skipEscapes (length s) s)))
                 = len s - Z.of_nat (skipEscapes (length s) s)).
    { apply len_from. unfold len. lia. }
    rewrite Ef in Hl. unfold len in Hl. cbn in Hl. lia.
  - assert (Hne : b :: t <> []) by discriminate.
    pose proof (DecodeRuneInString_size Hne) as Hsz.
    rewrite Hd in Hsz. cbn in Hsz. split; lia.
Qed.

Lemma escape_runs_ref : escape_runs_without_LF.
Proof.
  intros str idx r rSize next ok esc Hidx H Hs.
  apply ANSIWalk_index in H. cbv zeta in H. destruct H as [Hi _].
  unfold slice in Hs.
  destruct ((0 <=? idx) && (idx <=? next - rSize) && (next - rSize <=? len str));
    [| discriminate].
  inversion Hs. rewrite Hi. unfold upto.
  replace (Z.to_nat (idx + _ - idx))
    with (skipEscapes (length (from str idx)) (from str idx)) by lia.
  apply skipEscapes_spec.
Qed.

Lemma rune_is_decoded_ref : rune_is_decoded.
Proof.
  intros str idx r rSize next ok Hidx H _.
  apply ANSIWalk_index in H. cbv zeta in H. destruct H as [Hi Hd].
  rewrite from_from in Hd by lia. rewrite Hi, Hd. reflexivity.
Qed.

(** The bytes of a decoded rune: an ASCII byte that is the rune, or
    bytes from 128 on. *)
Lemma decoded_bytes s0 t r sz :
  utf8.DecodeRuneInString (s0 :: t) = (r, sz) ->
  (s0 < 128 /\ r = s0 /\ sz = 1)
  \/ (128 <= s0 /\ 1 <= sz <= 4
      /\ forall b, In b (upto (s0 :: t) sz) -> 128 <= b).
Proof.
  unfold utf8.DecodeRuneInString, utf8.RuneSelf.
  destruct (s0 <? 128) eqn:E0.
  { intros H. inversion H; subst. left. apply Z.ltb_lt in E0.
    repeat split; assumption. }
  apply Z.ltb_ge in E0. intros H. right.
  assert (One : forall x, (x, 1) = (r, sz) ->
                128 <= s0 /\ 1 <= sz <= 4
                /\ forall b, In b (upto (s0 :: t) sz) -> 128 <= b).
  { intros x Hx. inversion Hx; subst. repeat split; try lia.
    change (upto (s0 :: t) 1) with [s0]. intros b [<- | []]. exact E0. }
  destruct (utf8.first s0) as [[[n lo] hi]|] eqn:Ef; [| exact (One _ H)].
  assert (Hlo : 128 <= lo).
  { unfold utf8.first in Ef.
    repeat match type of Ef with
           | (if ?c then _ else _) = _ => destruct c
           end; inversion Ef; lia. }
  destruct (len (s0 :: t) <? n); [exact (One _ H) |].
  destruct t as [|s1 t1]; [exact (One _ H) |].
  destruct ((s1 <? lo) || (hi <? s1)) eqn:E1; [exact (One _ H) |].
  apply orb_false_iff in E1. destruct E1 as [E1 _]. apply Z.ltb_ge in E1.
  destruct (n <=? 2).
  { inversion H; subst. repeat split; try lia.
    change (upto (s0 :: s1 :: t1) 2) with [s0; s1].
    intros b [<- | [<- | []]]; lia. }
  destruct t1 as [|s2 t2]; [exact (One _ H) |].
  destruct (utf8.notCont s2) eqn:E2; [exact (One _ H) |].
  apply orb_false_iff in E2. destruct E2 as [E2 _]. apply Z.ltb_ge in E2.
  destruct (n <=? 3).
  { inversion H; subst. repeat split; try lia.
    change (upto (s0 :: s1 :: s2 :: t2) 3) with [s0; s1; s2].
    intros b [<- | [<- | [<- | []]]]; lia. }
  destruct t2 as [|s3 t3]; [exact (One _ H) |].
  destruct (utf8.notCont s3) eqn:E3; [exact (One _ H) |].
  apply orb_false_iff in E3. destruct E3 as [E3 _]. apply Z.ltb_ge in E3.
  inversion H; subst. repeat split; try lia.
  change (upto (s0 :: s1 :: s2 :: s3 :: t3) 4) with [s0; s1; s2; s3].
  intros b [<- | [<- | [<- | [<- | []]]]]; lia.
Qed.

(** A cluster is not empty, an ASCII first byte is its leading rune, and
    a line feed occurs in it only as its first byte. *)
Definition cluster_ok (rb : rune * bytes) : Prop :=
  snd rb <> []
  /\ (hd 0 (snd rb) < 128 -> fst rb = hd 0 (snd rb))
  /\ (In LF (snd rb) -> hd 0 (snd rb) = LF).

Lemma decoded_ok s0 t r sz :
  utf8.DecodeRuneInString (s0 :: t) = (r, sz) ->
  cluster_ok (r, upto (s0 :: t) sz) /\ hd 0 (upto (s0 :: t) sz) = s0.
Proof.
  intros Hd. pose proof (decoded_bytes _ _ Hd) as H.
  assert (Hup : forall n, 1 <= n ->
                          exists u, upto (s0 :: t) n = s0 :: u).
  { intros n Hn. unfold upto.
    destruct (Z.to_nat n) as [|m] eqn:E; [lia |]. cbn. eauto. }
  destruct H as [(H0 & -> & ->) | (H0 & Hsz & Hb)].
  - split; [| reflexivity]. unfold cluster_ok.
    change (upto (s0 :: t) 1) with [s0]. cbn.
    split; [discriminate |]. split; [reflexivity |].
    intros [H | []]. exact H.
  - destruct (Hup sz) as [u Hu]; [lia |]. rewrite Hu in *.
    split; [| reflexivity]. unfold cluster_ok. cbn.
    split; [discriminate |]. split; [lia |].
    intros Hin. apply Hb in Hin. unfold LF in Hin. lia.
Qed.

Lemma runes_ok fuel :
  forall s, Forall cluster_ok (runes fuel s)
            /\ Forall (fun rb => incl (snd rb) s) (runes fuel s).
Proof.
  induction fuel as [|fuel IH]; intros s; cbn [runes].
  - split; constructor.
  - destruct s as [|s0 t]; [split; constructor |].
    destruct (utf8.DecodeRuneInString (s0 :: t)) as [r sz] eqn:Hd.
    destruct (decoded_ok _ _ Hd) as [H _].
    destruct (IH (from (s0 :: t) sz)) as [I1 I2].
    split; constructor; try assumption.
    + cbn. apply incl_firstn.
    + eapply Forall_impl; [| exact I2]. cbn. intros rb Hrb.
      eapply incl_tran; [exact Hrb | apply incl_skipn].
Qed.

Lemma runes_head s0 t :
  exists r b rest,
    runes (length (s0 :: t)) (s0 :: t) = (r, b) :: rest /\ hd 0 b = s0.
Proof.
  cbn [length runes].
  destruct (utf8.DecodeRuneInString (s0 :: t)) as [r sz] eqn:Hd.
  destruct (decoded_ok _ _ Hd) as [_ H].
  do 3 eexists. split; [reflexivity | exact H].
Qed.

Lemma group_Forall (P : rune * bytes -> Prop) :
  (forall r b r' g, P (r, b) -> P (r', g) -> joins r r' = true -> P (r, b ++ g)) ->
  forall rs, Forall P rs -> Forall P (group rs).
Proof.
  intros Hj. induction 1 as [|[r b] rs Hx _ IH]; cbn [group]; [constructor |].
  destruct (group rs) as [|[r' g] gs]; [constructor; [exact Hx | constructor] |].
  inversion IH; subst.
  destruct (joins r r') eqn:E.
  - constructor; [apply (Hj r b r' g); assumption | assumption].
  - constructor; [exact Hx | constructor; assumption].
Qed.

Lemma group_head (r : rune) (b : bytes) (rest : list (rune * bytes)) :
  b <> [] ->
  exists c gs, group ((r, b) :: rest) = (r, c) :: gs /\ hd 0 c = hd 0 b.
Proof.
  intros Hb. cbn [group].
  destruct (group rest) as [|[r' g] gs]; [eauto |].
  destruct (joins r r'); [| eauto].
  do 2 eexists. split; [reflexivity |].
  destruct b; [contradiction | reflexivity].
Qed.

Lemma cluster_ok_joins r b r' g :
  cluster_ok (r, b) -> cluster_ok (r', g) -> joins r r' = true ->
  cluster_ok (r, b ++ g).
Proof.
  unfold cluster_ok. cbn. intros (Hb & Hr & Hl) (Hg & Hr' & Hl') Hj.
  destruct b as [|b0 b']; [contradiction |]. cbn in *.
  split; [discriminate |]. split; [exact Hr |].
  intros [H | H]; [exact H |].
  apply in_app_or in H. destruct H as [H | H]; [apply Hl; right; exact H |].
  exfalso. specialize (Hl' H).
  rewrite Hl' in Hr'. specialize (Hr' ltac:(unfold LF; lia)).
  subst r'. unfold joins in Hj. cbn in Hj. discriminate.
Qed.

Lemma clusters_ok s : Forall cluster_ok (clusters s).
Proof.
  unfold clusters. apply group_Forall; [apply cluster_ok_joins |].
  apply runes_ok.
Qed.

Lemma clusters_without_LF_ref : clusters_without_LF.
Proof.
  intros s state Hhd. cbn. unfold StepString.
  destruct s as [|s0 t]; [cbn; apply noLF_nil |].
  destruct (Hhd s0 eq_refl) as [H10 _].
  pose proof (clusters_ok (s0 :: t)) as Hok. unfold clusters in *.
  destruct (runes_head s0 t) as (r & b & rest & Hr & Hb).
  assert (Hne : b <> []).
  { pose proof (proj1 (runes_ok (length (s0 :: t)) (s0 :: t))) as H.
    rewrite Hr in H. inversion H; subst. apply H2. }
  destruct (group_head r rest Hne) as (c & gs & Hgr & Hc).
  rewrite Hr, Hgr in Hok. rewrite Hr, Hgr. cbn. inversion Hok; subst.
  destruct H1 as (_ & _ & Hl). cbn in Hl.
  intros Hin. apply Hl in Hin. congruence.
Qed.

Lemma graphemes_within_word_ref : graphemes_within_word.
Proof.
  intros word c Hc. cbn in Hc. unfold NewGraphemes in Hc.
  apply in_map_iff in Hc. destruct Hc as ([r b] & <- & Hin).
  assert (H : Forall (fun rb => incl (snd rb) word) (clusters word)).
  { unfold clusters. apply group_Forall.
    - cbn. intros r0 b0 r' g H1 H2 _. apply incl_app; assumption.
    - apply runes_ok. }
  rewrite Forall_forall in H. exact (H _ Hin).
Qed.

Lemma whole_lines_ref : whole_lines.
Proof.
  constructor.
  - exact walks_forward_ref.
  - exact escape_runs_ref.
  - exact rune_is_decoded_ref.
  - exact clusters_without_LF_ref.
  - exact graphemes_within_word_ref.
Qed.

End RefContract.

(** ** The engine on concrete inputs, with the reference collaborators *)

Module Examples.

#[local] Existing Instance Ref.collaborators.

(** The text and the segments of a successful call. *)
Definition wrapped (r : result (bytes * option WrappedStringSeq * option error))
  : option (bytes * list WrappedString) :=
  match r with
  | Ok (out, Some seq, None) => Some (out, WrappedLines seq)
  | _ => None
  end.

Definition text r : option bytes := option_map fst (wrapped r).
Definition widths r : option (list Z) :=
  option_map (fun x => map Width (snd x)) (wrapped r).
Definition byteEnds r : option (list Z) :=
  option_map (fun x => map (fun l => End_ (OrigByteOffset l)) (snd x)) (wrapped r).
Definition runeEnds r : option (list Z) :=
  option_map (fun x => map (fun l => End_ (OrigRuneOffset l)) (snd x)) (wrapped r).

Definition lines (ls : list bytes) : bytes := strings.Join ls LF.

(** The cases of the test suite of the repository. *)
Example wraps_at_word_boundaries :
  text (StringWrap 50 (lit "The quick brown fox jumps over the lazy dog") 10 4 true)
  = Some (lines [lit "The quick"; lit "brown fox"; lit "jumps over";
                 lit "the lazy"; lit "dog"]).
Proof. vm_compute. reflexivity. Qed.

Example splits_a_long_word :
  text (StringWrapSplit 50 (lit "Supercalifragilisticexpialidocious") 10 4 true)
  = Some (lines [lit "Supercali-"; lit "fragilist-"; lit "icexpiali-";
                 lit "docious"]).
Proof. vm_compute. reflexivity. Qed.

Example expands_a_tab :
  text (StringWrap 50 (lit "hello" ++ [9] ++ lit "world") 15 4 true)
  = Some (lit "hello   world")
  /\ text (StringWrap 50 (lit "hello" ++ [9] ++ lit "world") 7 4 true)
     = Some (lines [lit "hello"; lit "world"]).
Proof. split; vm_compute; reflexivity. Qed.

Example keeps_escapes_and_emoji :
  text (StringWrap 100
          ([ESC] ++ lit "[32m" ++ [9] ++ lit "Green " ++ utf8.EncodeRune 0x1F340
           ++ lit " text with ANSI and emojis" ++ [ESC]
           ++ lit "[0m alongside  plain content here") 18 4 false)
  = Some (lines [[ESC] ++ lit "[32m    Green " ++ utf8.EncodeRune 0x1F340
                 ++ lit " text ";
                 lit "with ANSI and ";
                 lit "emojis" ++ [ESC] ++ lit "[0m alongside  ";
                 lit "plain content here"]).
Proof. vm_compute. reflexivity. Qed.

Example splits_words_of_a_sentence :
  text (StringWrapSplit 100
          (lit "Pseudopseudohypoparathyroidism is a long medical term that might be split")
          15 4 true)
  = Some (lines [lit "Pseudopseudohy-"; lit "poparathyroidi-"; lit "sm is a long m-";
                 lit "edical term th-"; lit "at might be sp-"; lit "lit"]).
Proof. vm_compute. reflexivity. Qed.

Example keeps_whitespace_when_not_trimming :
  text (StringWrap 100
          ([9] ++ lit "This is a longer example input that will wrap nicely  ")
          20 4 false)
  = Some (lines [lit "    This is a longer"; lit " example input that ";
                 lit "will wrap nicely  "]).
Proof. vm_compute. reflexivity. Qed.

Example vertical_tab_between_split_words :
  text (StringWrapSplit 100
          (lit "Supercalifragilisticexpialidocious" ++ [11] ++ lit "ness") 10 4 true)
  = Some (lines [lit "Supercali-"; lit "fragilist-"; lit "icexpiali-";
                 lit "dociousne-"; lit "ss"]).
Proof. vm_compute. reflexivity. Qed.

Example escapes_inside_a_trimmed_line :
  text (StringWrap 100 ([ESC] ++ lit "[31mred" ++ [ESC] ++ lit "[0m text normal")
          10 4 true)
  = Some (lines [[ESC] ++ lit "[31mred" ++ [ESC] ++ lit "[0m text"; lit "normal"]).
Proof. vm_compute. reflexivity. Qed.

Example hyphen_before_punctuation :
  text (StringWrapSplit 50 (lit "Hello.") 5 4 true)
  = Some (lines [lit "Hell-"; lit "o."]).
Proof. vm_compute. reflexivity. Qed.

Example splits_after_a_combining_mark :
  text (StringWrapSplit 50 (lit "e" ++ utf8.EncodeRune 0x301 ++ lit "clair") 2 4 false)
  = Some (lines [lit "e" ++ utf8.EncodeRune 0x301 ++ lit "-"; lit "c-";
                 lit "l-"; lit "a-"; lit "ir"]).
Proof. vm_compute. reflexivity. Qed.

Example hard_breaks :
  text (StringWrap 50 (lit "hello" ++ [13] ++ lit "world") 10 4 true)
  = Some (lines [lit "hello"; lit "world"])
  /\ text (StringWrap 50 (lit "foo" ++ utf8.EncodeRune 0x2028 ++ lit "bar baz") 5 4 true)
     = Some (lines [lit "foo"; lit "bar"; lit "baz"])
  /\ text (StringWrapSplit 50 (lit "foo" ++ utf8.EncodeRune 0x2028 ++ lit "barbazbaz")
             5 4 true)
     = Some (lines [lit "foo"; lit "barb-"; lit "azbaz"]).
Proof. repeat split; vm_compute; reflexivity. Qed.

Example empty_input :
  StringWrapSplit 50 [] 5 4 true
  = Ok ([], Some {| WrappedLines := []; WordSplitAllowed := true;
                    TabSize := 4; Limit := 5 |}, None).
Proof. vm_compute. reflexivity. Qed.

Definition three_lines : bytes :=
  lit "Hello world!" ++ [LF] ++ lit "Line two with "
  ++ utf8.EncodeRune 0x1F31F ++ lit "stars" ++ [LF] ++ lit "Final".

Example offsets_of_three_lines :
  text (StringWrap 50 three_lines 8 4 true)
  = Some (lines [lit "Hello"; lit "world!"; lit "Line two"; lit "with";
                 utf8.EncodeRune 0x1F31F ++ lit "stars"; lit "Final"])
  /\ byteEnds (StringWrap 50 three_lines 8 4 true) = Some [6; 13; 21; 27; 37; 42]
  /\ runeEnds (StringWrap 50 three_lines 8 4 true) = Some [6; 13; 21; 27; 34; 39]
  /\ widths (StringWrap 50 three_lines 8 4 true) = Some [5; 6; 8; 4; 7; 5].
Proof. repeat split; vm_compute; reflexivity. Qed.

Definition long_sentence : bytes :=
  lit "Supercalifragilisticexpialidocious is a long word often used to test wrapping behavior.".

Example offsets_of_split_words :
  byteEnds (StringWrapSplit 100 long_sentence 10 4 true)
  = Some [9; 18; 27; 37; 47; 56; 65; 74; 83; 87]
  /\ widths (StringWrapSplit 100 long_sentence 10 4 true)
     = Some [10; 10; 10; 10; 10; 8; 10; 10; 10; 4]
  /\ option_map (fun x => map EndsWithSplitWord (snd x))
                (wrapped (StringWrapSplit 100 long_sentence 10 4 true))
     = Some [true; true; true; false; true; false; true; true; true; false].
Proof. repeat split; vm_compute; reflexivity. Qed.

End Examples.

(** ** Fuel *)

Section Fuel.

Context {C : Collaborators}.

(** A loop that returns with some fuel returns the same with more. *)
Lemma loop_more_fuel fw str n :
  forall m state idx w w',
    loop n fw str state idx w = Ok w' ->
    loop (n + m) fw str state idx w = Ok w'.
Proof.
  induction n as [|n IH]; intros m state idx w w' H.
  - cbn [loop] in H. destruct (idx <? len str) eqn:E; [discriminate |].
    destruct m; cbn [Nat.add loop]; rewrite E; exact H.
  - cbn [Nat.add loop] in *. destruct (idx <? len str); [| exact H].
    bind_inv H as [[w1 st1] idx1] H1. rewrite H1. cbn [bind].
    apply IH. exact H.
Qed.

End Fuel.

(** ** Vertical tab and form feed *)

Section Ignorable.

Context {C : Collaborators}.

(** C9 (amended): a vertical tab or a form feed adds no width, writes no
    text and is not counted as trimmed; like any other whitespace it ends
    the pending word (and resets the grapheme state), and that is all it
    does: the iteration of the loop that meets it is [flushWordBuffer].
    Where no word is pending on a line within the limit, the state
    machine is left as it is. *)
Theorem vertical_tab_only_ends_the_word fw str state idx w r rSize next ok :
  ANSIWalk str idx = (r, rSize, next, ok) ->
  r = 11 \/ r = 12 ->
  ok && (next - rSize >? idx) = false ->
  loopStep fw str state idx w
  = (w' <- flushWordBuffer fw w ;; Ok (w', -1, next - rSize + rSize))
  /\ (wordBuffer w = [] -> curWordWidth (pos w) = 0 ->
      curLineWidth (pos w) <= limit (config w) ->
      forall fuel, flushWordBuffer (S fuel) w = Ok (set_wordHasNbsp false w)).
Proof.
  intros Hw Hr Hno. split.
  - unfold loopStep. rewrite Hw, Hno. cbn [bind].
    destruct Hr as [-> | ->]; cbn;
      destruct (flushWordBuffer fw w); reflexivity.
  - intros Hb Hcw Hfit fuel. rewrite flushWordBuffer_S.
    unfold curWritePosition. rewrite Hcw.
    replace (0 + curLineWidth (pos w) >? limit (config w)) with false
      by (symmetry; rewrite Z.gtb_ltb; apply Z.ltb_ge; lia).
    cbn [andb]. do 2 f_equal.
    destruct w as [lb wb buf p seq cfg nbsp]. destruct p. cbn in *. subst.
    unfold writeWord. cbn. rewrite app_nil_r, Z.add_0_r. reflexivity.
Qed.

End Ignorable.

(** ** A split step that takes nothing *)

Section Stuck.

Context {C : Collaborators}.

(** A word wider than the limit pending on a line of width 0, with
    splitting allowed, whose first cluster is at least as wide as the
    limit. *)
Definition stuck (w : wrapStateMachine) : Prop :=
  splitWord (config w) = true
  /\ wordHasNbsp w = false
  /\ curLineWidth (pos w) = 0
  /\ 0 < limit (config w) < curWordWidth (pos w)
  /\ exists c rest,
      NewGraphemes (wordBuffer w) = c :: rest
      /\ limit (config w) <= StringWidth c.

(** [iter] admits a cluster into the sub-word only when the width up to and
    including it stays below the limit: a first cluster as wide as the
    limit is left in the word. *)
Lemma iter_takes_nothing word c rest lim :
  NewGraphemes word = c :: rest ->
  0 < lim -> lim <= StringWidth c ->
  subWordBuffer (iter (newIter word) 0 lim) = []
  /\ subWordWidth (iter (newIter word) 0 lim) = 0.
Proof.
  intros Hg Hlim Hc. unfold iter, newIter. cbn [graphemes]. rewrite Hg.
  cbn [iterFrom]. unfold totalWidth.
  cbn [subWordWidth nextClusterWidth subWordBuffer cluster].
  destruct (0 + 0 + 0 <? lim) eqn:E1; [| apply Z.ltb_ge in E1; lia].
  destruct rest as [|c2 rest]; cbn [iterFrom]; [split; reflexivity |].
  unfold totalWidth. cbn [subWordWidth nextClusterWidth subWordBuffer cluster].
  match goal with
  | |- context [?a <? lim] => destruct (a <? lim) eqn:E2
  end; [apply Z.ltb_lt in E2; lia | split; reflexivity].
Qed.

Lemma writeLine_keeps_word hard split w :
  curLineWidth (pos (writeLine hard split w)) = 0
  /\ curWordWidth (pos (writeLine hard split w)) = curWordWidth (pos w)
  /\ wordHasNbsp (writeLine hard split w) = wordHasNbsp w.
Proof.
  unfold writeLine. destruct (trimWhitespace (config w)); cbn; repeat split.
Qed.

(** The split step of a stuck state writes a line and leaves the word as it
    is: the state is stuck again. *)
Lemma splitStep_stuck w :
  stuck w -> stuck (splitStep w) /\ wordBuffer (splitStep w) = wordBuffer w.
Proof.
  intros (Hs & Hn & Hl & Hlim & c & rest & Hg & Hc).
  destruct (iter_takes_nothing _ Hg (proj1 Hlim) Hc) as [Hsub Hsw].
  assert (E : evolves w (splitStep w)) by (apply splitStep_evolves; exact Hs).
  revert E. unfold splitStep. rewrite Hl, Hsub, Hsw.
  set (g := iter _ _ _).
  set (w1 := set_lineBuffer _ w).
  set (w2 := if needsHyphen g then _ else w1).
  set (w3 := set_pos _ w2).
  intros E. apply evolves_config in E.
  destruct (writeLine_keeps_word false (needsHyphen g) w3) as (Hl' & Hw' & Hn').
  destruct (writeLine_buffers false (needsHyphen g) w3) as (_ & _ & Hwb).
  assert (H3 : wordBuffer w3 = wordBuffer w /\ curWordWidth (pos w3) = curWordWidth (pos w)
               /\ wordHasNbsp w3 = wordHasNbsp w).
  { subst w3 w2 w1. destruct (needsHyphen g); repeat split. }
  destruct H3 as (Hb3 & Hw3 & Hn3).
  assert (Hwb' : from (wordBuffer (writeSoftLine (needsHyphen g) w3)) (len [])
                 = wordBuffer w).
  { unfold writeSoftLine. rewrite Hwb, Hb3. reflexivity. }
  split; [| exact Hwb'].
  unfold stuck. cbn [config wordHasNbsp pos set_pos set_wordBuffer
                     curLineWidth curWordWidth set_curWordWidth wordBuffer].
  cbn [config set_pos set_wordBuffer] in E. rewrite E.
  unfold writeSoftLine in *. rewrite Hn', Hn3, Hl', Hw', Hw3, Hwb', Z.sub_0_r.
  split; [exact Hs |]. split; [exact Hn |]. split; [reflexivity |].
  split; [exact Hlim |]. exists c, rest. split; assumption.
Qed.

(** [flushWordBuffer] does not return from a stuck state, whatever the
    fuel. *)
Lemma stuck_diverges fuel : forall w, stuck w -> flushWordBuffer fuel w = Diverge.
Proof.
  induction fuel as [|fuel IH]; intros w Hs; [reflexivity |].
  rewrite flushWordBuffer_S.
  rewrite (IH (splitStep w)) by (apply splitStep_stuck; exact Hs).
  destruct Hs as (Hc & Hn & Hl & Hlim & _).
  unfold curWritePosition. rewrite Hc, Hl, Hn, Z.add_0_r.
  replace (curWordWidth (pos w) >? limit (config w)) with true
    by (symmetry; rewrite Z.gtb_ltb; apply Z.ltb_lt; lia).
  replace (curWordWidth (pos w) =? 0) with false
    by (symmetry; apply Z.eqb_neq; lia).
  reflexivity.
Qed.

End Stuck.

(** ** Settled on concrete inputs *)

Module Cases.

#[local] Existing Instance Ref.collaborators.

(** *** Witnesses *)

Lemma segments_tile_input_witness :
  exists out seq,
    stringWrap 50 Examples.three_lines 8 4 true false = Ok (out, Some seq, None)
    /\ tiles (map OrigByteOffset (WrappedLines seq))
    /\ tiles (map OrigRuneOffset (WrappedLines seq)).
Proof.
  eexists. eexists. split; [vm_compute; reflexivity |].
  eapply (@segments_tile_input Ref.collaborators 50 Examples.three_lines
                               8 4 true false).
  vm_compute. reflexivity.
Defined.

Lemma StringWrap_never_flags_split_witness :
  exists out seq,
    StringWrap 100 Examples.long_sentence 10 4 true = Ok (out, Some seq, None)
    /\ Forall (fun l => EndsWithSplitWord l = false) (WrappedLines seq).
Proof.
  eexists. eexists. split; [vm_compute; reflexivity |].
  eapply (@StringWrap_never_flags_split Ref.collaborators 100
                                        Examples.long_sentence 10 4 true).
  vm_compute. reflexivity.
Defined.

Lemma sequence_echoes_configuration_witness :
  exists out seq,
    StringWrapSplit 100 Examples.long_sentence 10 4 true = Ok (out, Some seq, None)
    /\ Limit seq = 10 /\ TabSize seq = 4 /\ WordSplitAllowed seq = true.
Proof.
  assert (H : exists out oseq,
             StringWrapSplit 100 Examples.long_sentence 10 4 true
             = Ok (out, oseq, None)).
  { eexists. eexists. vm_compute. reflexivity. }
  destruct H as (out & oseq & H).
  destruct (@sequence_echoes_configuration Ref.collaborators true 100
              Examples.long_sentence 10 4 true out oseq H) as (seq & -> & Hc).
  exists out, seq. split; [exact H | exact Hc].
Defined.

(** The word "Hello." pending on an empty line of five columns. *)
Definition hello_pending : wrapStateMachine :=
  let w := initialState 5 4 true true in
  set_pos (set_curWordWidth 6 (pos w)) (set_wordBuffer (lit "Hello.") w).

Lemma hyphen_iff_wordy_neighbours_witness :
  buffer (splitStep hello_pending) = lit "Hell-" ++ [LF]
  /\ wordBuffer (splitStep hello_pending) = lit "o."
  /\ exists before after,
      NewGraphemes (wordBuffer hello_pending) = before ++ after
      /\ wordBuffer (splitStep hello_pending)
         = from (wordBuffer hello_pending) (len (concat before))
      /\ (before <> [] ->
          let hyphen :=
            isWordyGrapheme (last before []) && isWordyGrapheme (hd [] after) in
          after <> []
          /\ buffer (splitStep hello_pending)
             = buffer hello_pending
               ++ lineText (config hello_pending)
                    (lineBuffer hello_pending ++ concat before
                     ++ (if hyphen then [HYPHEN] else []))
               ++ [LF]
          /\ exists l,
              WrappedLines (wrappedStringSeq (splitStep hello_pending))
              = WrappedLines (wrappedStringSeq hello_pending) ++ [l]
              /\ EndsWithSplitWord l = hyphen).
Proof.
  split; [vm_compute; reflexivity |]. split; [vm_compute; reflexivity |].
  apply (proj2 (@hyphen_iff_wordy_neighbours Ref.collaborators 3 hello_pending
                  eq_refl eq_refl eq_refl
                  (fun H : 6 = 0 => Z.neq_sym _ _ (Z.lt_neq 0 6 eq_refl) H))).
Defined.

Lemma limit_is_the_only_error_witness :
  (StringWrap 0 (lit "a b") 1 4 true
   = Ok ([], None, Some (errors_New "limit must be greater than one")))
  /\ exists fuel out seq,
      StringWrap fuel (lit "a b") 2 4 true = Ok (out, Some seq, None).
Proof.
  split.
  - apply (proj1 (@limit_is_the_only_error Ref.collaborators (lit "a b") 1 4 true
                    RefContract.walks_forward_ref)).
    reflexivity.
  - apply (proj1 (proj2 (@limit_is_the_only_error Ref.collaborators (lit "a b")
                           2 4 true RefContract.walks_forward_ref)));
      [apply Z.le_refl | discriminate].
Defined.

Lemma lines_are_terminated_witness :
  exists out seq ts,
    stringWrap 50 Examples.three_lines 8 4 true false = Ok (out, Some seq, None)
    /\ length ts = length (WrappedLines seq)
    /\ Forall noLF ts
    /\ (lastIsHardBreak seq = true -> out = terminated ts)
    /\ (lastIsHardBreak seq = false -> out = strings.Join ts LF).
Proof.
  assert (H : exists out seq,
             stringWrap 50 Examples.three_lines 8 4 true false
             = Ok (out, Some seq, None)).
  { eexists. eexists. vm_compute. reflexivity. }
  destruct H as (out & seq & H).
  destruct (@lines_are_terminated Ref.collaborators 50 Examples.three_lines
              8 4 true false out seq None RefContract.whole_lines_ref H)
    as (ts & Hts).
  exists out, seq, ts. split; [exact H | exact Hts].
Defined.

Lemma segments_and_split_pieces_witness :
  exists out seq,
    stringWrap 50 (lit "ab" ++ [LF]) 8 4 true false = Ok (out, Some seq, None)
    /\ length (strings.Split out LF)
       = (length (WrappedLines seq)
          + match lastWrappedLine seq with
            | Some l => if IsHardBreak l then 1 else 0
            | None => 1
            end)%nat.
Proof.
  eexists. eexists. split; [vm_compute; reflexivity |].
  eapply (@segments_and_split_pieces Ref.collaborators 50 (lit "ab" ++ [LF])
            8 4 true false);
    [exact RefContract.whole_lines_ref |].
  vm_compute. reflexivity.
Defined.

Lemma vertical_tab_only_ends_the_word_witness :
  loopStep 5 (lit "ab" ++ [11] ++ lit "cd") (-1) 2 (initialState 3 4 false false)
  = (w' <- flushWordBuffer 5 (initialState 3 4 false false) ;;
     Ok (w', -1, 3 - 1 + 1)).
Proof.
  apply (proj1 (@vertical_tab_only_ends_the_word Ref.collaborators 5
                  (lit "ab" ++ [11] ++ lit "cd") (-1) 2
                  (initialState 3 4 false false) 11 1 3 true
                  eq_refl (or_introl eq_refl) eq_refl)).
Defined.

(** *** Counterexamples *)

(** C2 as stated fails on an input that ends with a hard break: the
    output of "\n" is "\n", which splits in two pieces, for one segment. *)
Lemma hard_break_ending_adds_a_piece :
  exists out seq,
    StringWrap 10 [LF] 2 4 false = Ok (out, Some seq, None)
    /\ length (WrappedLines seq)
       <> match out with
          | [] => 0%nat
          | _ => length (strings.Split out LF)
          end.
Proof.
  eexists. eexists. split; [vm_compute; reflexivity |].
  vm_compute. discriminate.
Qed.

(** C3 as stated fails on a negative tab size: with limit 2, a tab on an
    empty untrimmed line makes [strings.Repeat] panic, so that no result
    is returned. *)
Lemma negative_tab_size_panics :
  ~ (exists fuel r, StringWrap fuel [9] 2 (-1) false = Ok r).
Proof.
  intros (fuel & r & H). destruct fuel; vm_compute in H; discriminate.
Qed.

(** C7 as stated fails on an input that ends with a hard break: the
    output of "a\n" is "a\n", one line followed by a terminator. *)
Lemma terminator_follows_final_hard_break :
  exists out seq,
    StringWrap 10 (lit "a" ++ [LF]) 2 4 false = Ok (out, Some seq, None)
    /\ ~ (exists ts,
             length ts = length (WrappedLines seq)
             /\ Forall noLF ts
             /\ out = strings.Join ts LF).
Proof.
  eexists. eexists. split; [vm_compute; reflexivity |].
  intros (ts & Hn & Hts & Hout). cbn in Hn.
  destruct ts as [|t [|u ts]]; try discriminate.
  cbn in Hout. subst t. inversion Hts; subst.
  apply H1. right. left. reflexivity.
Qed.

(** C9 as stated fails inside a word: "ab\vcd" at limit 3 is wrapped as
    the two words "ab" and "cd", the same input without the vertical tab
    as the one word "abcd". *)
Definition dropIgnorable (s : bytes) : bytes :=
  filter (fun b => negb ((b =? 11) || (b =? 12))) s.

Lemma vertical_tab_is_a_word_boundary :
  exists r r',
    StringWrap 20 (lit "ab" ++ [11] ++ lit "cd") 3 4 false = Ok r
    /\ StringWrap 20 (dropIgnorable (lit "ab" ++ [11] ++ lit "cd")) 3 4 false
       = Ok r'
    /\ r <> r'.
Proof.
  eexists. eexists. split; [vm_compute; reflexivity |].
  split; [vm_compute; reflexivity |]. discriminate.
Qed.

(** *** Defects *)

(** Two wide characters, of two columns each. *)
Definition wide_word : bytes :=
  utf8.EncodeRune 0x4E16 ++ utf8.EncodeRune 0x754C.

(** C4 fails on the code: with limit 2, [StringWrapSplit] on a word of two
    wide characters never returns.  The first cluster is as wide as the
    limit, so that [iter] takes no cluster, and [flushWordBuffer] calls
    itself on the same word after writing an empty line. *)
Theorem split_recursion_never_returns :
  forall fuel, StringWrapSplit fuel wide_word 2 4 false = Diverge.
Proof.
  intros fuel. unfold StringWrapSplit, stringWrap.
  change (2 <? 2) with false. cbv iota.
  destruct fuel as [|[|fuel]]; [reflexivity | reflexivity |].
  set (fw := S (S fuel)).
  assert (H : exists w,
             loop 2 fw wide_word (-1) 0 (initialState 2 4 false true) = Ok w
             /\ stuck w).
  { eexists. split; [vm_compute; reflexivity |].
    repeat split; try reflexivity.
    eexists. eexists. split; [vm_compute; reflexivity |].
    vm_compute. discriminate. }
  destruct H as (w & Hw & Hs).
  apply loop_more_fuel with (m := fuel) in Hw.
  change (2 + fuel)%nat with fw in Hw. rewrite Hw. cbn [bind].
  unfold finish. rewrite (stuck_diverges fw Hs). reflexivity.
Qed.

(** C6 fails on the code when trimming is enabled: [writeLine] measures
    the trimmed line with [StringWidth], escape sequences included, and
    records that as the width.  The first line of this input (the
    seventh case of the test suite) shows eight columns, "red text"; its
    recorded width is 15, the seven extra columns being the printable
    bytes of the two escape sequences, and it is flagged as not within
    the limit of 10. *)
Definition colored : bytes :=
  [ESC] ++ lit "[31mred" ++ [ESC] ++ lit "[0m text normal".

Theorem trimming_counts_escape_columns :
  Examples.text (StringWrap 50 colored 10 4 true)
  = Some (Examples.lines [[ESC] ++ lit "[31mred" ++ [ESC] ++ lit "[0m text";
                          lit "normal"])
  /\ Examples.widths (StringWrap 50 colored 10 4 true) = Some [15; 6]
  /\ option_map (fun x => map NotWithinLimit (snd x))
                (Examples.wrapped (StringWrap 50 colored 10 4 true))
     = Some [true; false]
  /\ Examples.widths (StringWrap 50 (lit "red text normal") 10 4 true)
     = Some [8; 6]
  /\ Examples.widths (StringWrap 50 colored 10 4 false) = Some [9; 6].
Proof. repeat split; vm_compute; reflexivity. Qed.

End Cases.

(** * Further properties of the engine *)

(** ** The segment sequence: [appendWrappedSeq] and [lastWrappedLine] *)

(** X1: the last wrapped line of an empty sequence is [nil]; after
    [appendWrappedSeq] it is the segment just appended, the earlier
    segments and the configuration of the sequence staying as they were. *)
Theorem last_of_appended (wrapped : WrappedString) (s : WrappedStringSeq) :
  lastWrappedLine (appendWrappedSeq wrapped s) = Some wrapped
  /\ removelast (WrappedLines (appendWrappedSeq wrapped s)) = WrappedLines s
  /\ Limit (appendWrappedSeq wrapped s) = Limit s
  /\ TabSize (appendWrappedSeq wrapped s) = TabSize s
  /\ WordSplitAllowed (appendWrappedSeq wrapped s) = WordSplitAllowed s
  /\ (WrappedLines s = [] <-> lastWrappedLine s = None).
Proof.
  split; [apply lastWrappedLine_snoc |].
  split; [cbn; apply removelast_last |].
  repeat split.
  - intros H. unfold lastWrappedLine. rewrite H. reflexivity.
  - apply lastWrappedLine_None.
Qed.

(** ** Flags of the segments *)

Section SegmentFlags.

Context {C : Collaborators}.

Definition flagsWidth (w : wrapStateMachine) : Prop :=
  Forall (fun x => fst x = (snd x >? limit (config w)))
         (map (fun l => (NotWithinLimit l, Width l))
              (WrappedLines (wrappedStringSeq w))).

Lemma evolves_flagsWidth w w' : evolves w w' -> flagsWidth w -> flagsWidth w'.
Proof.
  apply evolves_keeps with (P := flagsWidth).
  - intros v v' (_ & Hs & Hc & _) H. unfold flagsWidth. rewrite Hs, Hc. exact H.
  - intros v hard split _ H. unfold flagsWidth in *.
    rewrite writeLine_config.
    unfold writeLine. destruct (trimWhitespace (config v)); cbn;
      rewrite map_app; apply Forall_app; (split; [exact H |]);
        constructor; [reflexivity | constructor | reflexivity | constructor].
Qed.

(** X2: every returned segment is flagged [NotWithinLimit] exactly when its
    recorded [Width] is above the [Limit] of the sequence. *)
Theorem flagged_when_wider_than_limit
        fuel str limit tabSize trim split out seq err :
  stringWrap fuel str limit tabSize trim split = Ok (out, Some seq, err) ->
  Forall (fun l => NotWithinLimit l = (Width l >? Limit seq)) (WrappedLines seq).
Proof.
  intros H. destruct (stringWrap_run _ _ _ _ _ _ H) as [w' [E A]].
  assert (F : flagsWidth w').
  { apply (evolves_flagsWidth E). constructor. }
  unfold flagsWidth in F.
  rewrite <- (assembled_lines (fun l => (NotWithinLimit l, Width l))
                              (fun l => eq_refl) A) in F.
  rewrite Forall_map in F. cbn in F.
  destruct (assembled_config A) as (_ & HL & _).
  assert (Ech : echoes w') by (apply (evolves_echoes E); repeat split).
  destruct Ech as (HL' & _). rewrite HL, HL'. exact F.
Qed.

Definition lastIsBreak (w : wrapStateMachine) : Prop :=
  Forall (fun l => LastSegmentInOrig l = IsHardBreak l)
         (WrappedLines (wrappedStringSeq w)).

Lemma evolves_lastIsBreak w w' : evolves w w' -> lastIsBreak w -> lastIsBreak w'.
Proof.
  apply evolves_keeps with (P := lastIsBreak).
  - intros v v' (_ & Hs & _) H. unfold lastIsBreak. rewrite Hs. exact H.
  - intros v hard split _ H. unfold lastIsBreak in *.
    unfold writeLine. destruct (trimWhitespace (config v)); cbn;
      apply Forall_app; (split; [exact H |]);
        constructor; [reflexivity | constructor | reflexivity | constructor].
Qed.

(** X3: the last returned segment is marked [LastSegmentInOrig]; every
    segment before it is marked so exactly when it is a hard break. *)
Theorem last_segment_of_each_line
        fuel str limit tabSize trim split out seq err before l :
  stringWrap fuel str limit tabSize trim split = Ok (out, Some seq, err) ->
  WrappedLines seq = before ++ [l] ->
  LastSegmentInOrig l = true
  /\ Forall (fun x => LastSegmentInOrig x = IsHardBreak x) before.
Proof.
  intros H Hl. destruct (stringWrap_run _ _ _ _ _ _ H) as [w' [E A]].
  assert (F : lastIsBreak w').
  { apply (evolves_lastIsBreak E). constructor. }
  unfold lastIsBreak in F.
  destruct A as [[A Hcase] | (l0 & o & Hl0 & Hh & _ & A)]; inversion A; subst.
  - rewrite Hl in F. apply Forall_app in F. destruct F as [Fb Fl].
    split; [| exact Fb]. inversion Fl; subst.
    destruct Hcase as [Hn | (l1 & Hl1 & Hh1)].
    + apply lastWrappedLine_None in Hn. rewrite Hn in Hl.
      destruct before; discriminate.
    + apply lastWrappedLine_Some in Hl1. rewrite Hl in Hl1.
      apply app_inj_tail in Hl1. destruct Hl1 as [_ ->]. congruence.
  - cbn in Hl. apply app_inj_tail in Hl. destruct Hl as [<- <-].
    split; [reflexivity |].
    rewrite (lastWrappedLine_Some _ Hl0) in F. apply Forall_app in F. apply F.
Qed.

(** X4: the empty input gives the empty output and a sequence without
    segments, for every valid limit and every other argument. *)
Theorem empty_input_gives_nothing fuel limit tabSize trim split :
  2 <= limit ->
  stringWrap (S fuel) [] limit tabSize trim split
  = Ok ([], Some {| WrappedLines := []; WordSplitAllowed := split;
                    TabSize := tabSize; Limit := limit |}, None).
Proof.
  intros Hl. unfold stringWrap.
  replace (limit <? 2) with false by (symmetry; apply Z.ltb_ge; lia).
  cbn [loop len length Z.of_nat Z.ltb Z.compare bind].
  unfold finish. rewrite flushWordBuffer_S. unfold curWritePosition. cbn.
  replace (0 >? limit) with false
    by (symmetry; rewrite Z.gtb_ltb; apply Z.ltb_ge; lia).
  reflexivity.
Qed.

End SegmentFlags.

(** ** A closer account of how the state machine proceeds

    Beside what [frame] keeps, the operations other than the writing of a
    line keep the three line counters, and the count of trimmed whitespace
    when nothing is trimmed.  A line is written softly ([writeSoftLine], as
    a split line only in the splitting branch, after the hyphen is in the
    line) or as a hard break, in which case the loop moves on to the next
    original line at once. *)

Definition keeps (w w' : wrapStateMachine) : Prop :=
  frame w w'
  /\ curLineNum (pos w') = curLineNum (pos w)
  /\ origLineNum (pos w') = origLineNum (pos w)
  /\ origLineSegment (pos w') = origLineSegment (pos w)
  /\ (trimWhitespace (config w) = false ->
      timmedWhiteSpace (pos w') = timmedWhiteSpace (pos w)).

Section Proceeding.

Context {C : Collaborators}.

(** [writeHardLine] followed by [incrementOrigLine] and the reset of
    [origLineSegment], as the loop does on a hard-break rune. *)
Definition hardLine (w : wrapStateMachine) : wrapStateMachine :=
  set_pos (set_origLineSegment 0 (incrementOrigLine (pos (writeHardLine w))))
          (writeHardLine w).

Inductive proceeds : wrapStateMachine -> wrapStateMachine -> Prop :=
| pr_keep w w' : keeps w w' -> proceeds w w'
| pr_soft w split :
    (split = true -> splitWord (config w) = true /\ lineBuffer w <> []) ->
    proceeds w (writeSoftLine split w)
| pr_hard w : proceeds w (hardLine w)
| pr_trans w1 w2 w3 : proceeds w1 w2 -> proceeds w2 w3 -> proceeds w1 w3.

Lemma keeps_refl w : keeps w w.
Proof. repeat split. Qed.

Lemma pr_refl w : proceeds w w.
Proof. apply pr_keep, keeps_refl. Qed.

Lemma proceeds_keeps (P : wrapStateMachine -> Prop) :
  (forall w w', keeps w w' -> P w -> P w') ->
  (forall w split,
      (split = true -> splitWord (config w) = true /\ lineBuffer w <> []) ->
      P w -> P (writeSoftLine split w)) ->
  (forall w, P w -> P (hardLine w)) ->
  forall w w', proceeds w w' -> P w -> P w'.
Proof.
  intros Hk Hs Hh w w' E. induction E; eauto.
Qed.

Lemma proceeds_evolves w w' : proceeds w w' -> evolves w w'.
Proof.
  intros E. induction E.
  - apply ev_frame. apply H.
  - apply ev_line. intros Hs. apply H. exact Hs.
  - eapply ev_trans; [apply (@ev_line _ w true false); discriminate |].
    apply ev_frame. repeat split.
  - eapply ev_trans; eassumption.
Qed.

Lemma proceeds_config w w' : proceeds w w' -> config w' = config w.
Proof. intros E. apply evolves_config, proceeds_evolves, E. Qed.

Ltac keeps_tac :=
  apply pr_keep; unfold keeps, frame; cbn; repeat split;
  try reflexivity; try (intros; congruence).

Lemma flushLineBuffer_proceeds n w : proceeds w (flushLineBuffer n w).
Proof.
  unfold flushLineBuffer.
  destruct (curLineWidth (pos w) + n >? limit (config w)).
  - apply pr_soft. discriminate.
  - apply pr_refl.
Qed.

Lemma writeSpaceToLine_proceeds r w : proceeds w (writeSpaceToLine r w).
Proof.
  unfold writeSpaceToLine.
  eapply pr_trans; [apply (flushLineBuffer_proceeds 1) |].
  destruct (trimWhitespace (config (flushLineBuffer 1 w))) eqn:T; cbn [negb orb].
  - destruct (curLineWidth (pos (flushLineBuffer 1 w)) >? 0); keeps_tac.
  - keeps_tac.
Qed.

Lemma writeTabToLine_proceeds w w' adj :
  writeTabToLine w = Ok (w', adj) -> proceeds w w'.
Proof.
  unfold writeTabToLine.
  set (a := if tabSize (config w) >? 0 then _ else 0).
  intros H.
  eapply pr_trans; [apply (flushLineBuffer_proceeds a) |].
  destruct (len (lineBuffer (flushLineBuffer a w)) =? 0);
    [destruct (trimWhitespace (config (flushLineBuffer a w))) eqn:T |];
    bind_inv H as sp Hsp; inversion H; subst; keeps_tac.
Qed.

Lemma writeWord_proceeds w : proceeds w (writeWord w).
Proof. keeps_tac. Qed.

Lemma splitStep_proceeds w :
  splitWord (config w) = true -> proceeds w (splitStep w).
Proof.
  intros Hs. unfold splitStep.
  set (g := iter _ _ _).
  set (w1 := set_lineBuffer _ w).
  set (w2 := if needsHyphen g then _ else w1).
  set (w3 := set_pos _ w2).
  assert (E3 : proceeds w w3).
  { subst w3 w2 w1. destruct (needsHyphen g); keeps_tac. }
  eapply pr_trans; [exact E3 |].
  eapply pr_trans.
  - apply (@pr_soft w3 (needsHyphen g)).
    intros Hh. split; [rewrite (proceeds_config E3); exact Hs |].
    subst w3 w2 w1. rewrite Hh. cbn. intros E.
    apply app_eq_nil in E. destruct E as [_ E]. discriminate.
  - keeps_tac.
Qed.

Lemma flushWordBuffer_proceeds fuel :
  forall w w', flushWordBuffer fuel w = Ok w' -> proceeds w w'.
Proof.
  induction fuel as [|fuel IH]; intros w w' H; [discriminate |].
  rewrite flushWordBuffer_S in H.
  destruct (curWritePosition (pos w) >? limit (config w));
    [destruct (curWordWidth (pos w) =? 0) |]; cbn [andb] in H.
  - inversion H; subst. apply pr_soft. discriminate.
  - destruct (splitWord (config w) && negb (wordHasNbsp w)) eqn:Hs.
    + apply andb_prop in Hs. destruct Hs as [Hs _].
      bind_inv H as w1 Hw1. inversion H; subst.
      eapply pr_trans; [apply splitStep_proceeds; exact Hs |].
      eapply pr_trans; [apply IH; exact Hw1 |]. keeps_tac.
    + inversion H; subst. destruct (curLineWidth (pos w) >? 0).
      * eapply pr_trans; [apply (@pr_soft w false); discriminate | keeps_tac].
      * keeps_tac.
  - inversion H; subst. keeps_tac.
Qed.

Lemma loopStep_proceeds fw str state idx w w' state' idx' :
  loopStep fw str state idx w = Ok (w', state', idx') -> proceeds w w'.
Proof.
  unfold loopStep.
  destruct (ANSIWalk str idx) as [[[r rSize] next] ok].
  intros H. bind_inv H as [w1 st1] H1.
  assert (E1 : proceeds w w1).
  { destruct (ok && (next - rSize >? idx)).
    - bind_inv H1 as w0 H0. bind_inv H1 as esc Hesc. inversion H1; subst.
      eapply pr_trans; [eapply flushWordBuffer_proceeds; eassumption |].
      keeps_tac.
    - inversion H1; subst. apply pr_refl. }
  eapply pr_trans; [exact E1 |]. clear E1 H1.
  destruct (r =? 160).
  - inversion H; subst. keeps_tac.
  - destruct (unicode.IsSpace r).
    + bind_inv H as w2 H2. bind_inv H as w3 H3. inversion H; subst. clear H.
      eapply pr_trans; [eapply flushWordBuffer_proceeds; eassumption |].
      destruct (r =? 32).
      { inversion H3; subst. apply writeSpaceToLine_proceeds. }
      destruct (isHardBreakRune r).
      { inversion H3; subst. apply (@pr_hard w2). }
      destruct (r =? 9).
      { bind_inv H3 as [w4 adj] H4. inversion H3; subst.
        eapply pr_trans; [eapply writeTabToLine_proceeds; eassumption |].
        keeps_tac. }
      destruct ((r =? 11) || (r =? 12)).
      { inversion H3; subst. apply pr_refl. }
      inversion H3; subst.
      eapply pr_trans; [apply writeSpaceToLine_proceeds |]. keeps_tac.
    + bind_inv H as tail Htail.
      destruct (StepString tail st1) as [cl st2].
      destruct (negb (len cl =? 0)); inversion H; subst; keeps_tac.
Qed.

Lemma loop_proceeds fuel fw str :
  forall state idx w w',
    loop fuel fw str state idx w = Ok w' -> proceeds w w'.
Proof.
  induction fuel as [|fuel IH]; intros state idx w w' H; cbn [loop] in H.
  - destruct (idx <? len str); [discriminate |].
    inversion H; subst. apply pr_refl.
  - destruct (idx <? len str).
    + bind_inv H as [[w1 st1] idx1] H1.
      eapply pr_trans; [eapply loopStep_proceeds; eassumption |].
      eapply IH; eassumption.
    + inversion H; subst. apply pr_refl.
Qed.

Lemma lastState_proceeds fuel w w' : lastState fuel w w' -> proceeds w w'.
Proof.
  intros [w1 [H1 ->]].
  eapply pr_trans; [eapply flushWordBuffer_proceeds; exact H1 |].
  destruct (len (lineBuffer w1) >? 0).
  - apply (@pr_soft w1 false). discriminate.
  - apply pr_refl.
Qed.

(** A run that returns a sequence proceeded from the initial state to the
    state its results are assembled from. *)
Lemma stringWrap_proceeds fuel str limit tabSize trim split out seq err :
  stringWrap fuel str limit tabSize trim split = Ok (out, Some seq, err) ->
  exists w',
    proceeds (initialState limit tabSize trim split) w'
    /\ assembled w' (out, Some seq, err).
Proof.
  intros H. apply stringWrap_inv in H.
  destruct H as [[_ H] | [_ [w [w' [Hloop [Hlast Hasm]]]]]]; [discriminate |].
  exists w'. split; [| exact Hasm].
  eapply pr_trans; [eapply loop_proceeds; exact Hloop |].
  eapply lastState_proceeds; exact Hlast.
Qed.

End Proceeding.

(** ** Numbering of the segments *)

(** The numbers of a segment and whether it is a hard break. *)
Definition numbers (l : WrappedString) : Z * Z * Z * bool :=
  (CurLineNum l, OrigLineNum l, SegmentInOrig l, IsHardBreak l).

(** Segments numbered from wrapped line [cur], original line [orig] and
    segment [seg] of that line, up to the counters [cur'], [orig'], [seg']. *)
Fixpoint numbered (cur orig seg : Z) (ks : list (Z * Z * Z * bool))
         (cur' orig' seg' : Z) : Prop :=
  match ks with
  | [] => cur = cur' /\ orig = orig' /\ seg = seg'
  | (c, o, s, h) :: ks' =>
    c = cur /\ o = orig /\ s = seg + 1
    /\ numbered (cur + 1) (if h then orig + 1 else orig)
                (if h then 0 else seg + 1) ks' cur' orig' seg'
  end.

Lemma numbered_snoc ks :
  forall cur orig seg cur' orig' seg' h,
    numbered cur orig seg ks cur' orig' seg' ->
    numbered cur orig seg (ks ++ [(cur', orig', seg' + 1, h)])
             (cur' + 1) (if h then orig' + 1 else orig')
             (if h then 0 else seg' + 1).
Proof.
  induction ks as [|[[[c o] s] h0] ks IH]; intros cur orig seg cur' orig' seg' h H.
  - destruct H as (-> & -> & ->). cbn. repeat split.
  - destruct H as (Hc & Ho & Hs & H). cbn. repeat split; try assumption.
    apply IH. exact H.
Qed.

Lemma numbered_nth ks :
  forall cur orig seg cur' orig' seg' i c o s h,
    numbered cur orig seg ks cur' orig' seg' ->
    nth_error ks i = Some (c, o, s, h) ->
    c = cur + Z.of_nat i.
Proof.
  induction ks as [|[[[c0 o0] s0] h0] ks IH];
    intros cur orig seg cur' orig' seg' i c o s h H Hi.
  - destruct i; discriminate.
  - destruct H as (Hc & _ & _ & H). destruct i as [|i]; cbn in Hi.
    + inversion Hi; subst. lia.
    + rewrite (IH _ _ _ _ _ _ _ _ _ _ _ H Hi). lia.
Qed.

Lemma numbered_consecutive ks :
  forall cur orig seg cur' orig' seg' i c o s h c2 o2 s2 h2,
    numbered cur orig seg ks cur' orig' seg' ->
    nth_error ks i = Some (c, o, s, h) ->
    nth_error ks (S i) = Some (c2, o2, s2, h2) ->
    if h then o2 = o + 1 /\ s2 = 1 else o2 = o /\ s2 = s + 1.
Proof.
  induction ks as [|[[[c0 o0] s0] h0] ks IH];
    intros cur orig seg cur' orig' seg' i c o s h c2 o2 s2 h2 H Hi Hj.
  - destruct i; discriminate.
  - destruct H as (Hc & Ho & Hs & H). destruct i as [|i]; cbn in Hi, Hj.
    + inversion Hi; subst. destruct ks as [|[[[c1 o1] s1] h1] ks']; [discriminate |].
      cbn in Hj. inversion Hj; subst. destruct H as (_ & Ho1 & Hs1 & _).
      destruct h; split; lia.
    + eapply IH; eassumption.
Qed.

Section Numbering.

Context {C : Collaborators}.

Definition counted (w : wrapStateMachine) : Prop :=
  numbered 1 1 0 (map numbers (WrappedLines (wrappedStringSeq w)))
           (curLineNum (pos w)) (origLineNum (pos w)) (origLineSegment (pos w)).

Lemma writeLine_numbers hard split w :
  exists l,
    WrappedLines (wrappedStringSeq (writeLine hard split w))
    = WrappedLines (wrappedStringSeq w) ++ [l]
    /\ numbers l = (curLineNum (pos w), origLineNum (pos w),
                    origLineSegment (pos w) + 1, hard)
    /\ curLineNum (pos (writeLine hard split w)) = curLineNum (pos w) + 1
    /\ origLineNum (pos (writeLine hard split w)) = origLineNum (pos w)
    /\ origLineSegment (pos (writeLine hard split w))
       = origLineSegment (pos w) + 1.
Proof.
  unfold writeLine. destruct (trimWhitespace (config w)); cbn;
    eexists; repeat split.
Qed.

Lemma proceeds_counted w w' : proceeds w w' -> counted w -> counted w'.
Proof.
  apply proceeds_keeps with (P := counted).
  - intros v v' ((_ & Hs & _) & Hc & Ho & Hg & _) H.
    unfold counted. rewrite Hs, Hc, Ho, Hg. exact H.
  - intros v split _ H. unfold counted, writeSoftLine in *.
    destruct (writeLine_numbers false split v)
      as (l & Hl & Hn & Hc & Ho & Hs).
    rewrite Hl, map_app, Hc, Ho, Hs. cbn [map]. rewrite Hn.
    apply (@numbered_snoc _ _ _ _ _ _ _ false H).
  - intros v H. unfold counted, hardLine, writeHardLine in *.
    destruct (writeLine_numbers true false v)
      as (l & Hl & Hn & Hc & Ho & Hs).
    cbn [pos wrappedStringSeq set_pos curLineNum origLineNum origLineSegment
         set_origLineSegment incrementOrigLine].
    rewrite Hl, map_app, Hc, Ho. cbn [map]. rewrite Hn.
    apply (@numbered_snoc _ _ _ _ _ _ _ true H).
Qed.

Lemma stringWrap_counted fuel str limit tabSize trim split out seq err :
  stringWrap fuel str limit tabSize trim split = Ok (out, Some seq, err) ->
  exists cur orig seg,
    numbered 1 1 0 (map numbers (WrappedLines seq)) cur orig seg.
Proof.
  intros H. destruct (stringWrap_proceeds _ _ _ _ _ _ H) as [w' [E A]].
  assert (N : counted w').
  { apply (proceeds_counted E). repeat split. }
  unfold counted in N.
  rewrite <- (assembled_lines numbers (fun l => eq_refl) A) in N.
  eauto.
Qed.

(** X5: the wrapped lines are numbered from 1: the segment at index [i] of the
    returned sequence has [CurLineNum] [i + 1]. *)
Theorem wrapped_lines_are_numbered
        fuel str limit tabSize trim split out seq err i l :
  stringWrap fuel str limit tabSize trim split = Ok (out, Some seq, err) ->
  nth_error (WrappedLines seq) i = Some l ->
  CurLineNum l = Z.of_nat i + 1.
Proof.
  intros H Hi. destruct (stringWrap_counted _ _ _ _ _ _ H) as (c & o & s & N).
  assert (Hk : nth_error (map numbers (WrappedLines seq)) i = Some (numbers l)).
  { apply map_nth_error. exact Hi. }
  unfold numbers in Hk at 2.
  rewrite (numbered_nth _ _ _ _ _ _ _ _ N Hk). lia.
Qed.

(** X6: the original lines are numbered from 1 and the segments of each from
    1: the first segment is segment 1 of original line 1; after a segment
    that is a hard break comes segment 1 of the next original line, after
    any other segment the next segment of the same original line. *)
Theorem original_lines_are_numbered
        fuel str limit tabSize trim split out seq err :
  stringWrap fuel str limit tabSize trim split = Ok (out, Some seq, err) ->
  (forall l, nth_error (WrappedLines seq) 0 = Some l ->
             OrigLineNum l = 1 /\ SegmentInOrig l = 1)
  /\ (forall i a b,
         nth_error (WrappedLines seq) i = Some a ->
         nth_error (WrappedLines seq) (S i) = Some b ->
         if IsHardBreak a
         then OrigLineNum b = OrigLineNum a + 1 /\ SegmentInOrig b = 1
         else OrigLineNum b = OrigLineNum a
              /\ SegmentInOrig b = SegmentInOrig a + 1).
Proof.
  intros H. destruct (stringWrap_counted _ _ _ _ _ _ H) as (c & o & s & N).
  split.
  - intros l Hl. destruct (WrappedLines seq) as [|x ls]; [discriminate |].
    cbn in Hl. inversion Hl; subst. cbn in N.
    destruct N as (_ & Ho & Hs & _). split; [exact Ho | lia].
  - intros i a b Ha Hb.
    apply (map_nth_error numbers) in Ha, Hb. unfold numbers in Ha at 2, Hb at 2.
    exact (@numbered_consecutive _ _ _ _ _ _ _ _ _ _ _ _ _ _ _ _ N Ha Hb).
Qed.

Definition breaksAreWhole (w : wrapStateMachine) : Prop :=
  Forall (fun x => fst x = true -> snd x = false)
         (map (fun l => (IsHardBreak l, EndsWithSplitWord l))
              (WrappedLines (wrappedStringSeq w))).

Lemma proceeds_breaksAreWhole w w' :
  proceeds w w' -> breaksAreWhole w -> breaksAreWhole w'.
Proof.
  apply proceeds_keeps with (P := breaksAreWhole).
  - intros v v' ((_ & Hs & _) & _) H. unfold breaksAreWhole. rewrite Hs. exact H.
  - intros v split _ H. unfold breaksAreWhole, writeSoftLine in *.
    destruct (writeLine_segment false split v) as (l & Hl & _ & _ & _ & _ & Hh & _).
    rewrite Hl, map_app. apply Forall_app. split; [exact H |].
    constructor; [| constructor]. cbn. rewrite Hh. discriminate.
  - intros v H. unfold breaksAreWhole, hardLine, writeHardLine in *.
    destruct (writeLine_segment true false v) as (l & Hl & _ & _ & _ & _ & _ & Hsp).
    cbn [wrappedStringSeq set_pos].
    rewrite Hl, map_app. apply Forall_app. split; [exact H |].
    constructor; [| constructor]. cbn. intros _. exact Hsp.
Qed.

(** X7: a segment that ends at a hard break never ends with a split word. *)
Theorem hard_breaks_end_no_split_word
        fuel str limit tabSize trim split out seq err :
  stringWrap fuel str limit tabSize trim split = Ok (out, Some seq, err) ->
  Forall (fun l => IsHardBreak l = true -> EndsWithSplitWord l = false)
         (WrappedLines seq).
Proof.
  intros H. destruct (stringWrap_proceeds _ _ _ _ _ _ H) as [w' [E A]].
  assert (B : breaksAreWhole w').
  { apply (proceeds_breaksAreWhole E). constructor. }
  unfold breaksAreWhole in B.
  rewrite <- (assembled_lines (fun l => (IsHardBreak l, EndsWithSplitWord l))
                              (fun l => eq_refl) A) in B.
  rewrite Forall_map in B. exact B.
Qed.

End Numbering.

(** ** Spans of the segments when nothing is trimmed *)

(** A line feed after a string is a rune of its own: it does not change
    how the string before it is decoded. *)
Lemma DecodeRuneInString_before_LF s :
  s <> [] ->
  utf8.DecodeRuneInString (s ++ [LF]) = utf8.DecodeRuneInString s.
Proof.
  intros Hs. destruct s as [|s0 t]; [contradiction |].
  unfold utf8.DecodeRuneInString. cbn [app].
  destruct (s0 <? utf8.RuneSelf); [reflexivity |].
  destruct (utf8.first s0) as [[[sz lo] hi]|] eqn:Ef; [| reflexivity].
  assert (Hsz : sz = 2 /\ 128 <= lo \/ sz = 3  /\ 128 <= lo \/ sz = 4 /\ 128 <= lo).
  { unfold utf8.first in Ef.
    repeat match type of Ef with
           | (if ?c then _ else _) = _ => destruct c
           end; inversion Ef; lia. }
  change (s0 :: t ++ [LF]) with ((s0 :: t) ++ [LF]). rewrite len_app.
  change (len [LF]) with 1.
  assert (L : forall x u, len (x :: u) = 1 + len u).
  { intros x u. unfold len. cbn [length]. lia. }
  rewrite !L.
  destruct t as [|s1 [|s2 [|s3 t3]]]; cbn [app]; rewrite ?L;
    change (len []) with 0; unfold utf8.notCont, LF;
    repeat match goal with
           | |- context [if ?c then _ else _] => destruct c eqn:?
           end; try reflexivity;
    rewrite ?orb_true_iff, ?orb_false_iff, ?Z.ltb_lt, ?Z.ltb_ge, ?Z.leb_le, ?Z.leb_gt in *;
    try (unfold len in *; lia).
Qed.

Lemma DecodeRuneInString_within s :
  snd (utf8.DecodeRuneInString s) <= len s.
Proof.
  assert (L : forall x u, len (x :: u) = 1 + len u).
  { intros x u. unfold len. cbn [length]. lia. }
  unfold utf8.DecodeRuneInString.
  destruct s as [|s0 t]; [cbn [snd]; unfold len in *; cbn [length] in *; lia |].
  pose proof (len_nonneg t).
  destruct (s0 <? utf8.RuneSelf); [rewrite L; cbn [snd]; unfold len in *; cbn [length] in *; lia |].
  destruct (utf8.first s0) as [[[sz lo] hi]|]; [| rewrite L; cbn [snd]; unfold len in *; cbn [length] in *; lia].
  destruct (len (s0 :: t) <? sz); [rewrite L; cbn [snd]; unfold len in *; cbn [length] in *; lia |].
  destruct t as [|s1 t1]; [cbn [snd]; unfold len in *; cbn [length] in *; lia |].
  pose proof (len_nonneg t1).
  destruct ((s1 <? lo) || (hi <? s1)); [rewrite !L; cbn [snd]; unfold len in *; cbn [length] in *; lia |].
  destruct (sz <=? 2); [rewrite !L; cbn [snd]; unfold len in *; cbn [length] in *; lia |].
  destruct t1 as [|s2 t2]; [cbn [snd]; unfold len in *; cbn [length] in *; lia |].
  pose proof (len_nonneg t2).
  destruct (utf8.notCont s2); [rewrite !L; cbn [snd]; unfold len in *; cbn [length] in *; lia |].
  destruct (sz <=? 3); [rewrite !L; cbn [snd]; unfold len in *; cbn [length] in *; lia |].
  destruct t2 as [|s3 t3]; [cbn [snd]; unfold len in *; cbn [length] in *; lia |].
  pose proof (len_nonneg t3).
  destruct (utf8.notCont s3); rewrite !L; cbn [snd]; unfold len in *; cbn [length] in *; lia.
Qed.

Lemma runeCount_before_LF n :
  forall s, (length s <= n)%nat ->
            utf8.runeCount (S n) (s ++ [LF]) = utf8.runeCount n s + 1.
Proof.
  induction n as [|n IH]; intros s Hn.
  - destruct s; [reflexivity | cbn in Hn; lia].
  - destruct s as [|s0 t]; [reflexivity |].
    change (utf8.runeCount (S (S n)) ((s0 :: t) ++ [LF]))
      with (1 + utf8.runeCount (S n)
                  (from ((s0 :: t) ++ [LF])
                        (snd (utf8.DecodeRuneInString ((s0 :: t) ++ [LF]))))).
    change (utf8.runeCount (S n) (s0 :: t))
      with (1 + utf8.runeCount n
                  (from (s0 :: t) (snd (utf8.DecodeRuneInString (s0 :: t))))).
    rewrite DecodeRuneInString_before_LF by discriminate.
    pose proof (@DecodeRuneInString_size (s0 :: t)) as Hsz.
    specialize (Hsz ltac:(discriminate)).
    destruct (utf8.DecodeRuneInString (s0 :: t)) as [r sz] eqn:Hd.
    cbn [snd] in *.
    pose proof (DecodeRuneInString_within (s0 :: t)) as Hle.
    rewrite Hd in Hle. cbn [snd] in Hle.
    unfold from. rewrite skipn_app.
    replace (Z.to_nat sz - length (s0 :: t))%nat with 0%nat
      by (unfold len in Hle; lia).
    cbn [skipn]. rewrite IH; [lia |].
    rewrite length_skipn. cbn [length] in *. lia.
Qed.

Lemma RuneCountInString_before_LF s :
  utf8.RuneCountInString (s ++ [LF]) = utf8.RuneCountInString s + 1.
Proof.
  unfold utf8.RuneCountInString. rewrite length_app, Nat.add_comm.
  apply runeCount_before_LF. lia.
Qed.

Lemma RuneCountInString_positive s :
  s <> [] -> 1 <= utf8.RuneCountInString s.
Proof.
  unfold utf8.RuneCountInString. destruct s as [|s0 t]; [contradiction |].
  intros _. cbn [length utf8.runeCount].
  assert (H : forall n u, 0 <= utf8.runeCount n u).
  { induction n as [|n IH]; intros u; cbn [utf8.runeCount]; [lia |].
    destruct u as [|u0 u']; [lia |].
    specialize (IH (from (u0 :: u')
                         (snd (utf8.DecodeRuneInString (u0 :: u'))))). lia. }
  specialize (H (length t) (from (s0 :: t) (snd (utf8.DecodeRuneInString (s0 :: t))))).
  lia.
Qed.

(** The span of a segment against its line of the output: one byte (one
    rune) per byte (rune) of the line, one more for the hard-break
    character, one less for the hyphen of a split word, which is then in
    the line. *)
Definition spanned (t : bytes) (l : WrappedString) : Prop :=
  End_ (OrigByteOffset l) - Start (OrigByteOffset l)
  = len t + btoi (IsHardBreak l) - btoi (EndsWithSplitWord l)
  /\ End_ (OrigRuneOffset l) - Start (OrigRuneOffset l)
     = utf8.RuneCountInString t
       + btoi (IsHardBreak l) - btoi (EndsWithSplitWord l)
  /\ (EndsWithSplitWord l = true -> t <> []).

Section Untrimmed.

Context {C : Collaborators}.

Definition accounted (w : wrapStateMachine) : Prop :=
  timmedWhiteSpace (pos w) = 0
  /\ exists ts,
      buffer w = terminated ts
      /\ Forall2 spanned ts (WrappedLines (wrappedStringSeq w)).

Lemma writeLine_untrimmed hard split w :
  trimWhitespace (config w) = false ->
  timmedWhiteSpace (pos w) = 0 ->
  (split = true -> lineBuffer w <> []) ->
  timmedWhiteSpace (pos (writeLine hard split w)) = 0
  /\ buffer (writeLine hard split w) = buffer w ++ lineBuffer w ++ [LF]
  /\ exists l,
      WrappedLines (wrappedStringSeq (writeLine hard split w))
      = WrappedLines (wrappedStringSeq w) ++ [l]
      /\ spanned (lineBuffer w) l.
Proof.
  intros Ht H0 Hs. unfold writeLine. rewrite Ht. cbn.
  split; [reflexivity |]. split; [reflexivity |].
  eexists. split; [reflexivity |].
  unfold spanned, endCalc. cbn. rewrite H0.
  rewrite RuneCountInString_before_LF, len_app. change (len [LF]) with 1.
  repeat split; try lia. exact Hs.
Qed.

Lemma accounted_writeLine hard split w :
  trimWhitespace (config w) = false ->
  (split = true -> lineBuffer w <> []) ->
  accounted w -> accounted (writeLine hard split w).
Proof.
  intros Ht Hs (H0 & ts & Hb & Hts).
  destruct (@writeLine_untrimmed hard split w Ht H0 Hs)
    as (H0' & Hb' & l & Hl & Hsp).
  split; [exact H0' |].
  exists (ts ++ [lineBuffer w]).
  rewrite Hb', Hb, Hl, terminated_snoc. split; [reflexivity |].
  apply Forall2_app; [exact Hts |]. constructor; [exact Hsp | constructor].
Qed.

Lemma proceeds_accounted w w' :
  trimWhitespace (config w) = false ->
  proceeds w w' -> accounted w -> accounted w'.
Proof.
  intros Ht E. revert Ht.
  induction E as [v v' K | v split Hs | v | v1 v2 v3 E1 IH1 E2 IH2];
    intros Ht A.
  - destruct K as ((Hb & Hs & _) & _ & _ & _ & H0).
    destruct A as (A0 & ts & Ab & Ats).
    split; [rewrite (H0 Ht); exact A0 |].
    exists ts. rewrite Hb, Hs. split; assumption.
  - apply accounted_writeLine; [exact Ht | | exact A].
    intros E. apply Hs. exact E.
  - pose proof (@accounted_writeLine true false v Ht ltac:(discriminate) A)
      as (A0 & ts & Ab & Ats).
    split; [exact A0 |]. exists ts. split; assumption.
  - apply IH2; [| apply IH1; assumption].
    rewrite (proceeds_config E1). exact Ht.
Qed.

Lemma spanned_markLast t l : spanned t l -> spanned t (markLast l).
Proof. intros H. exact H. Qed.

(** Without trimming, the results of a run: the lines of the output, one
    per segment, with the span of each. *)
Lemma stringWrap_accounted fuel str limit tabSize split out seq err :
  stringWrap fuel str limit tabSize false split = Ok (out, Some seq, err) ->
  exists ts,
    out = (if lastIsHardBreak seq then terminated ts else strings.Join ts LF)
    /\ Forall2 spanned ts (WrappedLines seq).
Proof.
  intros H. destruct (stringWrap_proceeds _ _ _ _ _ _ H) as [w' [E A]].
  assert (Acc : accounted w').
  { apply (proceeds_accounted (w := initialState limit tabSize false split));
      [reflexivity | exact E |].
    split; [reflexivity |]. exists []. split; [reflexivity | constructor]. }
  destruct Acc as (_ & ts & Hb & Hts).
  destruct A as [[A Hcase] | (l & o & Hl & Hh & Ht & A)]; inversion A; subst.
  - exists ts. split; [| exact Hts].
    destruct Hcase as [Hnone | (l & Hl & Hh)]; unfold lastIsHardBreak.
    + rewrite Hnone. apply lastWrappedLine_None in Hnone.
      rewrite Hnone in Hts. inversion Hts; subst. exact Hb.
    + rewrite Hl, Hh. exact Hb.
  - pose proof (lastWrappedLine_Some _ Hl) as Hls.
    rewrite Hls in Hts. apply Forall2_app_inv_r in Hts.
    destruct Hts as (ts1 & ts2 & H1 & H2 & ->).
    inversion H2 as [|t l' ts3 ls3 Hsp H3]; subst. inversion H3; subst.
    exists (ts1 ++ [t]). split.
    + unfold lastIsHardBreak, setLastSegmentInOrig.
      rewrite lastWrappedLine_snoc. cbn [IsHardBreak markLast]. rewrite Hh.
      rewrite Join_snoc. unfold Truncate in Ht.
      destruct ((len (buffer w') - 1 <? 0)
                || (len (buffer w') <? len (buffer w') - 1));
        [discriminate |].
      inversion Ht. rewrite Hb, terminated_snoc.
      rewrite app_assoc, len_app.
      replace (len (terminated ts1 ++ t) + len [LF] - 1)
        with (len (terminated ts1 ++ t)) by (cbn; lia).
      apply upto_app_all.
    + cbn [WrappedLines setLastSegmentInOrig].
      apply Forall2_app; [exact H1 |].
      constructor; [apply spanned_markLast; exact Hsp | constructor].
Qed.

(** X8: without trimming, the output is made of one line per segment (each
    followed by a line feed, that of the last segment apart unless it is
    a hard break), and the byte span and the rune span of every segment
    are as long as its line, plus one for a hard break, minus one for the
    hyphen of a split word. *)
Theorem untrimmed_spans_follow_the_lines
        fuel str limit tabSize split out seq err :
  stringWrap fuel str limit tabSize false split = Ok (out, Some seq, err) ->
  exists ts,
    (lastIsHardBreak seq = true -> out = terminated ts)
    /\ (lastIsHardBreak seq = false -> out = strings.Join ts LF)
    /\ Forall2 spanned ts (WrappedLines seq).
Proof.
  intros H. destruct (stringWrap_accounted _ _ _ _ _ H) as (ts & Hout & Hts).
  exists ts. split; [| split; [| exact Hts]];
    intros E; rewrite E in Hout; exact Hout.
Qed.

(** X9: without trimming no span runs backwards: the byte interval and the
    rune interval of every segment end at or after their start. *)
Theorem untrimmed_spans_run_forward
        fuel str limit tabSize split out seq err :
  stringWrap fuel str limit tabSize false split = Ok (out, Some seq, err) ->
  Forall (fun l => Start (OrigByteOffset l) <= End_ (OrigByteOffset l)
                   /\ Start (OrigRuneOffset l) <= End_ (OrigRuneOffset l))
         (WrappedLines seq).
Proof.
  intros H. destruct (stringWrap_accounted _ _ _ _ _ H) as (ts & _ & Hts).
  induction Hts as [|t l ts ls (Hb & Hr & Hne) _ IH]; constructor; [| exact IH].
  pose proof (len_nonneg t) as Hlen.
  assert (Hh : 0 <= btoi (IsHardBreak l)) by (destruct (IsHardBreak l); cbn; lia).
  destruct (EndsWithSplitWord l); cbn [btoi] in *.
  - specialize (Hne eq_refl).
    pose proof (RuneCountInString_positive Hne).
    assert (1 <= len t) by (destruct t; [contradiction | unfold len; cbn; lia]).
    lia.
  - assert (0 <= utf8.RuneCountInString t).
    { destruct t as [|t0 t']; [cbn; lia |].
      pose proof (@RuneCountInString_positive (t0 :: t') ltac:(discriminate)). lia. }
    lia.
Qed.

End Untrimmed.

(** ** Panics *)

Lemma bind_Panic_inv (A B : Type) (c : result A) (k : A -> result B) :
  bind c k = Panic -> c = Panic \/ exists a, c = Ok a /\ k a = Panic.
Proof.
  destruct c as [a| |]; cbn; intros H; [right; eauto | left; reflexivity |].
  discriminate.
Qed.

Section Panics.

Context {C : Collaborators}.

Lemma flushWordBuffer_no_panic fuel :
  forall w, flushWordBuffer fuel w <> Panic.
Proof.
  induction fuel as [|fuel IH]; intros w; [discriminate |].
  rewrite flushWordBuffer_S.
  destruct ((curWritePosition (pos w) >? limit (config w))
            && (curWordWidth (pos w) =? 0)); [discriminate |].
  destruct (curWritePosition (pos w) >? limit (config w)); [| discriminate].
  destruct (splitWord (config w) && negb (wordHasNbsp w)); [| discriminate].
  intros H. apply bind_Panic_inv in H.
  destruct H as [H | (a & _ & H)]; [exact (IH _ H) | discriminate].
Qed.

Lemma Repeat_Panic_inv b n : strings.Repeat b n = Panic -> n < 0.
Proof.
  unfold strings.Repeat. destruct (n <? 0) eqn:E; [| discriminate].
  intros _. apply Z.ltb_lt. exact E.
Qed.

Lemma writeTabToLine_Panic_inv w :
  writeTabToLine w = Panic ->
  tabSize (config w) < 0
  /\ trimWhitespace (config w) = false
  /\ (lineBuffer w = [] \/ limit (config w) < curLineWidth (pos w)).
Proof.
  unfold writeTabToLine.
  set (a := if tabSize (config w) >? 0 then _ else 0).
  assert (Ha : 0 <= a /\ (tabSize (config w) <= 0 -> a = 0)).
  { subst a. destruct (tabSize (config w) >? 0) eqn:E.
    - apply Z.gtb_lt in E.
      pose proof (Z.rem_bound_abs (curLineWidth (pos w)) (tabSize (config w))).
      lia.
    - lia. }
  destruct Ha as [Ha Ha0].
  destruct (len (lineBuffer (flushLineBuffer a w)) =? 0) eqn:Hlen.
  - rewrite flushLineBuffer_config.
    destruct (trimWhitespace (config w)) eqn:Ht; intros H;
      apply bind_Panic_inv in H; destruct H as [H | (sp & _ & H)];
        try discriminate; apply Repeat_Panic_inv in H.
    split; [exact H |]. split; [reflexivity |].
    rewrite Ha0 in Hlen by lia. unfold flushLineBuffer in Hlen.
    destruct (curLineWidth (pos w) + 0 >? limit (config w)) eqn:E.
    + right. apply Z.gtb_lt in E. lia.
    + left. apply Z.eqb_eq in Hlen. unfold len in Hlen.
      destruct (lineBuffer w); [reflexivity | cbn in Hlen; lia].
  - intros H. apply bind_Panic_inv in H. destruct H as [H | (sp & _ & H)];
      [| discriminate].
    apply Repeat_Panic_inv in H. lia.
Qed.

(** X10: [writeTabToLine] panics exactly when the tab size is negative,
    nothing is trimmed and the tab comes first on its line: the line
    buffer is empty, or the line is above the limit and is written out
    first. *)
Theorem tab_panics_on_negative_size_only w :
  writeTabToLine w = Panic
  <-> tabSize (config w) < 0
      /\ trimWhitespace (config w) = false
      /\ (lineBuffer w = [] \/ limit (config w) < curLineWidth (pos w)).
Proof.
  split; [apply writeTabToLine_Panic_inv |].
  intros (Hs & Ht & Hl). unfold writeTabToLine.
  replace (tabSize (config w) >? 0) with false
    by (symmetry; rewrite Z.gtb_ltb; apply Z.ltb_ge; lia).
  assert (E : lineBuffer (flushLineBuffer 0 w) = []).
  { unfold flushLineBuffer.
    destruct (curLineWidth (pos w) + 0 >? limit (config w)) eqn:E.
    - apply writeLine_buffers.
    - destruct Hl as [Hl | Hl]; [exact Hl |].
      rewrite Z.gtb_ltb in E. apply Z.ltb_ge in E. lia. }
  rewrite E, flushLineBuffer_config, Ht. cbn [len length Z.of_nat Z.eqb].
  unfold strings.Repeat.
  replace (tabSize (config w) <? 0) with true
    by (symmetry; apply Z.ltb_lt; lia).
  reflexivity.
Qed.

Lemma slice_no_panic str a b :
  0 <= a <= b -> b <= len str -> slice str a b <> Panic.
Proof.
  intros H1 H2. destruct (@slice_returns str a b H1 H2) as [s ->]. discriminate.
Qed.

(** The tab size is fit for [writeTabToLine]. *)
Definition tabFits (cfg : wordWrapConfig) : Prop :=
  0 <= tabSize cfg \/ trimWhitespace cfg = true.

Lemma loopStep_no_panic fw str state idx w :
  walks_forward ->
  tabFits (config w) ->
  0 <= idx < len str ->
  loopStep fw str state idx w <> Panic.
Proof.
  intros Hwalk Ht Hidx. unfold loopStep.
  destruct (ANSIWalk str idx) as [[[r rSize] next] ok] eqn:Hw.
  destruct (Hwalk _ _ _ _ _ _ Hidx Hw) as (Hr & Hsz0 & Hsz).
  intros H. apply bind_Panic_inv in H.
  destruct H as [H | ([w1 st1] & H1 & H)].
  { destruct (ok && (next - rSize >? idx)); [| discriminate].
    apply bind_Panic_inv in H. destruct H as [H | (w0 & _ & H)].
    - exact (flushWordBuffer_no_panic _ _ H).
    - apply bind_Panic_inv in H. destruct H as [H | (esc & _ & H)];
        [| discriminate].
      revert H. apply slice_no_panic; lia. }
  assert (Hc : config w1 = config w).
  { destruct (ok && (next - rSize >? idx)).
    - bind_inv H1 as w0 H0. bind_inv H1 as esc He. inversion H1; subst.
      cbn. apply evolves_config. eapply flushWordBuffer_evolves. exact H0.
    - inversion H1; subst. reflexivity. }
  rewrite <- Hc in Ht. clear H1 Hc.
  destruct (r =? 160); [discriminate |].
  destruct (unicode.IsSpace r).
  - apply bind_Panic_inv in H. destruct H as [H | (w2 & H2 & H)];
      [exact (flushWordBuffer_no_panic _ _ H) |].
    apply bind_Panic_inv in H. destruct H as [H | (w3 & _ & H)];
      [| discriminate].
    destruct (r =? 32); [discriminate |].
    destruct (isHardBreakRune r); [discriminate |].
    destruct (r =? 9).
    + apply bind_Panic_inv in H. destruct H as [H | ([w4 adj] & _ & H)];
        [| discriminate].
      apply writeTabToLine_Panic_inv in H. destruct H as (Hs & Htr & _).
      rewrite (evolves_config (flushWordBuffer_evolves _ _ H2)) in Hs, Htr.
      destruct Ht as [Ht | Ht]; [lia | congruence].
    + destruct ((r =? 11) || (r =? 12)); discriminate.
  - apply bind_Panic_inv in H. destruct H as [H | (tail & _ & H)].
    + revert H. apply slice_no_panic; lia.
    + destruct (StepString tail st1) as [cl st2].
      destruct (negb (len cl =? 0)); discriminate.
Qed.

Lemma loopStep_index fw str state idx w w' state' idx' :
  walks_forward ->
  0 <= idx < len str ->
  loopStep fw str state idx w = Ok (w', state', idx') ->
  idx <= idx'.
Proof.
  intros Hwalk Hidx. unfold loopStep.
  destruct (ANSIWalk str idx) as [[[r rSize] next] ok] eqn:Hw.
  destruct (Hwalk _ _ _ _ _ _ Hidx Hw) as (Hr & Hsz0 & Hsz).
  intros H. bind_inv H as [w1 st1] H1. clear H1.
  destruct (r =? 160); [inversion H; subst; lia |].
  destruct (unicode.IsSpace r).
  - bind_inv H as w2 H2. bind_inv H as w3 H3. inversion H; subst. lia.
  - bind_inv H as tail Htail.
    destruct (StepString tail st1) as [cl st2].
    pose proof (len_nonneg cl).
    destruct (negb (len cl =? 0)); inversion H; subst; lia.
Qed.

Lemma loop_no_panic fw str :
  walks_forward ->
  forall fuel state idx w,
    tabFits (config w) -> 0 <= idx ->
    loop fuel fw str state idx w <> Panic.
Proof.
  intros Hwalk.
  induction fuel as [|fuel IH]; intros state idx w Ht Hi; cbn [loop].
  - destruct (idx <? len str); discriminate.
  - destruct (idx <? len str) eqn:Hlt; [| discriminate].
    apply Z.ltb_lt in Hlt. intros H. apply bind_Panic_inv in H.
    destruct H as [H | ([[w1 st1] idx1] & H1 & H)].
    + revert H. apply loopStep_no_panic; [exact Hwalk | exact Ht | lia].
    + revert H. apply IH.
      * rewrite (evolves_config (loopStep_evolves _ _ _ _ _ H1)). exact Ht.
      * pose proof (@loopStep_index _ _ _ _ _ _ _ _ Hwalk (conj Hi Hlt) H1).
        lia.
Qed.

Lemma finish_no_panic fuel w :
  linesInBuffer w -> finish fuel w <> Panic.
Proof.
  intros Hl H. unfold finish in H. apply bind_Panic_inv in H.
  destruct H as [H | (w1 & H1 & H)];
    [exact (flushWordBuffer_no_panic _ _ H) |].
  set (w' := if len (lineBuffer w1) >? 0 then writeSoftLine false w1 else w1)
    in *.
  assert (E : evolves w w').
  { apply lastState_evolves with (fuel := fuel). exists w1. split; auto. }
  pose proof (evolves_linesInBuffer E Hl) as Hl'.
  destruct (lastWrappedLine (wrappedStringSeq w')) as [l|] eqn:Hlast;
    [| discriminate].
  destruct (IsHardBreak l); cbn [negb] in H; [discriminate |].
  apply bind_Panic_inv in H. destruct H as [H | (o & _ & H)]; [| discriminate].
  apply lastWrappedLine_Some in Hlast.
  unfold linesInBuffer in Hl'. rewrite Hlast, length_app in Hl'. cbn in Hl'.
  unfold Truncate in H.
  replace ((len (buffer w') - 1 <? 0) || (len (buffer w') <? len (buffer w') - 1))
    with false in H; [discriminate |].
  symmetry. apply orb_false_iff. rewrite !Z.ltb_ge. lia.
Qed.

(** X11: with an escape scanner that walks forward, no run panics on any
    input, with or without splitting, provided the tab size is not
    negative or whitespace is trimmed; the limit may be any integer. *)
Theorem no_panic_with_fit_tab_size fuel str limit tabSize trim split :
  walks_forward ->
  0 <= tabSize \/ trim = true ->
  stringWrap fuel str limit tabSize trim split <> Panic.
Proof.
  intros Hwalk Ht. unfold stringWrap.
  destruct (limit <? 2); [discriminate |].
  intros H. apply bind_Panic_inv in H. destruct H as [H | (w & Hw & H)].
  - revert H. apply loop_no_panic; [exact Hwalk | exact Ht | lia].
  - revert H. apply finish_no_panic.
    apply (evolves_linesInBuffer (loop_evolves _ _ _ _ _ _ Hw)).
    unfold linesInBuffer. cbn. lia.
Qed.

End Panics.

(** ** Where a word is split *)

Definition total (zs : list Z) : Z := fold_right Z.add 0 zs.

Lemma total_app xs ys : total (xs ++ ys) = total xs + total ys.
Proof.
  unfold total.
  induction xs as [|x xs IH]; cbn [app fold_right]; [lia | rewrite IH; lia].
Qed.

Section Splitting.

Context {C : Collaborators}.

(** The columns of a run of clusters. *)
Definition columns (cs : list bytes) : Z := total (map StringWidth cs).

(** [iterFrom] with the widths: the clusters it takes, the last one
    apart, are counted in [subWordWidth]; whenever it takes a cluster the
    sub-word ends before the limit; it stops when no cluster is left or
    when the pending cluster would reach the limit. *)
Lemma iterFrom_account rest :
  forall g lineWidth lim,
  exists taken rest',
    rest = taken ++ rest'
    /\ subWordBuffer (iterFrom rest g lineWidth lim)
       = subWordBuffer g ++ concat (removelast (cluster g :: taken))
    /\ subWordWidth (iterFrom rest g lineWidth lim)
       = subWordWidth g
         + total (removelast (nextClusterWidth g :: map StringWidth taken))
    /\ nextClusterWidth (iterFrom rest g lineWidth lim)
       = last (nextClusterWidth g :: map StringWidth taken) 0
    /\ (taken <> [] ->
        subWordWidth (iterFrom rest g lineWidth lim) + lineWidth < lim)
    /\ (rest' = [] \/ lim <= totalWidth (iterFrom rest g lineWidth lim) lineWidth).
Proof.
  induction rest as [|c rest IH]; intros g lineWidth lim.
  - exists [], []. cbn. rewrite app_nil_r.
    repeat split; try lia; [contradiction | left; reflexivity].
  - cbn [iterFrom]. destruct (totalWidth g lineWidth <? lim) eqn:Hlt.
    + apply Z.ltb_lt in Hlt. unfold totalWidth in Hlt.
      match goal with
      | |- context [iterFrom rest ?g1 _ _] =>
        destruct (IH g1 lineWidth lim)
          as (taken & rest' & Hr & Hb & Hs & Hn & Hfit & Hmax)
      end.
      cbn [subWordBuffer subWordWidth nextClusterWidth cluster] in Hb, Hs, Hn.
      exists (c :: taken), rest'.
      split; [cbn; congruence |].
      split; [rewrite Hb, <- app_assoc; reflexivity |].
      split; [rewrite Hs; cbn [map removelast total fold_right]; lia |].
      split; [rewrite Hn; reflexivity |].
      split; [| exact Hmax].
      intros _. destruct taken as [|t taken'].
      * rewrite Hs. cbn. lia.
      * apply Hfit. discriminate.
    + apply Z.ltb_ge in Hlt. exists [], (c :: rest). cbn.
      rewrite app_nil_r. repeat split; try lia; [contradiction |].
      right. exact Hlt.
Qed.

(** The split point of [iter] from a fresh iterator. *)
Lemma iter_split word lineWidth lim :
  exists before after,
    NewGraphemes word = before ++ after
    /\ subWordBuffer (iter (newIter word) lineWidth lim) = concat before
    /\ subWordWidth (iter (newIter word) lineWidth lim) = columns before
    /\ (NewGraphemes word <> [] -> after <> [])
    /\ (before <> [] -> lineWidth + columns before < lim)
    /\ (lineWidth < lim ->
        forall c rest, after = c :: rest ->
                       rest = [] \/ lim <= lineWidth + columns (before ++ [c])).
Proof.
  unfold iter. cbn [graphemes newIter].
  destruct (iterFrom_account (NewGraphemes word) (newIter word) lineWidth lim)
    as (taken & rest' & Hr & Hb & Hs & Hn & Hfit & Hmax).
  cbn [subWordBuffer subWordWidth nextClusterWidth cluster newIter] in Hb, Hs, Hn.
  unfold totalWidth in Hmax. rewrite Hs, Hn in Hmax. rewrite Hs in Hfit.
  rewrite Hb, Hs. clear Hb Hs Hn.
  destruct taken as [|t taken] using rev_ind.
  - exists [], (NewGraphemes word). cbn in *.
    split; [reflexivity |]. split; [reflexivity |]. split; [reflexivity |].
    split; [trivial |]. split; [contradiction |].
    intros Hlt c rest Hc. destruct Hmax as [-> | Hmax]; [| lia].
    rewrite Hc in Hr. discriminate.
  - clear IHtaken. exists taken, (t :: rest').
    rewrite map_app in *. cbn [map] in *.
    change ([] :: taken ++ [t]) with (([] :: taken) ++ [t]).
    change (0 :: map StringWidth taken ++ [StringWidth t])
      with ((0 :: map StringWidth taken) ++ [StringWidth t]) in *.
    rewrite !removelast_last in *. rewrite last_last in Hmax.
    split; [rewrite Hr, <- app_assoc; reflexivity |].
    split; [reflexivity |].
    assert (Hne : taken ++ [t] <> []) by (destruct taken; discriminate).
    specialize (Hfit Hne).
    assert (Hsnoc : forall c, columns (taken ++ [c])
                              = columns taken + StringWidth c).
    { intros c. unfold columns. rewrite map_app, total_app.
      unfold total. cbn [map fold_right]. lia. }
    unfold total in Hfit, Hmax. cbn [fold_right] in Hfit, Hmax.
    fold (total (map StringWidth taken)) in Hfit, Hmax.
    fold (columns taken) in Hfit, Hmax.
    split; [unfold columns, total at 1; cbn [fold_right];
            fold (total (map StringWidth taken)); lia |].
    split; [discriminate |].
    split; [intros _; lia |].
    intros _ c rest Hc. inversion Hc; subst.
    destruct Hmax as [-> | Hmax]; [left; reflexivity | right].
    rewrite Hsnoc. lia.
Qed.

(** X12: the split point of a word on a line of width [lineWidth]: the
    sub-word that [iter] builds is made of the clusters [before] the
    split point, and its width is the sum of theirs; the last cluster of
    the word is never taken; when clusters are taken, the line with the
    sub-word stays below the limit, a column being left for the hyphen;
    and on a line below the limit the taking stops only before the last
    cluster of the word or before a cluster with which the line would
    reach the limit. *)
Theorem split_point_of_a_word word lineWidth lim :
  exists before after,
    NewGraphemes word = before ++ after
    /\ subWordBuffer (iter (newIter word) lineWidth lim) = concat before
    /\ subWordWidth (iter (newIter word) lineWidth lim) = columns before
    /\ (NewGraphemes word <> [] -> after <> [])
    /\ (before <> [] -> lineWidth + columns before < lim)
    /\ (lineWidth < lim ->
        forall c rest, after = c :: rest ->
                       rest = [] \/ lim <= lineWidth + columns (before ++ [c])).
Proof. apply iter_split. Qed.

(** X13: the line of a split step: when nothing is trimmed and the line was
    below the limit, the segment that the splitting branch of
    [flushWordBuffer] writes is within the limit, hyphen included, and is
    not flagged [NotWithinLimit]. *)
Theorem split_line_is_within_limit w :
  trimWhitespace (config w) = false ->
  curLineWidth (pos w) < limit (config w) ->
  exists l,
    WrappedLines (wrappedStringSeq (splitStep w))
    = WrappedLines (wrappedStringSeq w) ++ [l]
    /\ Width l
       = curLineWidth (pos w)
         + subWordWidth (iter (newIter (wordBuffer w))
                              (curLineWidth (pos w)) (limit (config w)))
         + btoi (EndsWithSplitWord l)
    /\ Width l <= limit (config w)
    /\ NotWithinLimit l = false
    /\ IsHardBreak l = false.
Proof.
  intros Ht Hlt.
  destruct (iterFrom_account (NewGraphemes (wordBuffer w))
                             (newIter (wordBuffer w))
                             (curLineWidth (pos w)) (limit (config w)))
    as (taken & rest' & _ & _ & Hs & _ & Hfit & _).
  cbn [subWordWidth nextClusterWidth newIter] in Hs.
  assert (Hw : curLineWidth (pos w)
               + subWordWidth (iter (newIter (wordBuffer w))
                                    (curLineWidth (pos w)) (limit (config w)))
               < limit (config w)).
  { unfold iter. cbn [graphemes newIter].
    destruct taken as [|t taken]; [rewrite Hs; cbn; lia |].
    specialize (Hfit ltac:(discriminate)). lia. }
  clear Hs Hfit. unfold splitStep. revert Hw.
  generalize (iter (newIter (wordBuffer w)) (curLineWidth (pos w))
                   (limit (config w))).
  intros g Hw. unfold writeSoftLine, writeLine.
  destruct (needsHyphen g); cbn; rewrite Ht; cbn;
    eexists; (split; [reflexivity |]); cbn;
      (split; [lia |]); (split; [lia |]);
        (split; [| reflexivity]);
        rewrite Z.gtb_ltb; apply Z.ltb_ge; lia.
Qed.

End Splitting.

(** ** The operations on the line *)

Section Operations.

Context {C : Collaborators}.

(** X14: a tab moves the line to its next tab stop.  With a positive tab size,
    on a line whose width is not negative (and is 0 when the line buffer
    is empty), [writeTabToLine] returns, and either the tab is dropped
    (whitespace is trimmed and the tab comes first on its line: nothing is
    written and 0 is returned) or between 1 and [tabSize] spaces are
    written, after the line so far or at the start of a new line, and the
    width of the line plus the returned count is a multiple of the tab
    size; with a tab size within the limit it is within the limit. *)
Theorem tab_moves_to_the_next_stop w :
  0 < tabSize (config w) ->
  0 <= curLineWidth (pos w) ->
  (lineBuffer w = [] -> curLineWidth (pos w) = 0) ->
  exists w' adj,
    writeTabToLine w = Ok (w', adj)
    /\ ((trimWhitespace (config w) = true /\ adj = 0 /\ lineBuffer w' = [])
        \/ (0 < adj <= tabSize (config w)
            /\ (curLineWidth (pos w') + adj) mod tabSize (config w) = 0
            /\ (tabSize (config w) <= limit (config w) ->
                curLineWidth (pos w') + adj <= limit (config w))
            /\ (lineBuffer w' = lineBuffer w ++ repeat SPACE (Z.to_nat adj)
                \/ lineBuffer w' = repeat SPACE (Z.to_nat adj)))).
Proof.
  intros Hts Hw He. unfold writeTabToLine.
  replace (tabSize (config w) >? 0) with true
    by (symmetry; apply Z.gtb_lt; lia).
  rewrite Z.rem_mod_nonneg by lia.
  pose proof (Z.mod_pos_bound (curLineWidth (pos w)) (tabSize (config w)) Hts)
    as Hm.
  pose proof (Z.div_mod (curLineWidth (pos w)) (tabSize (config w))
                        ltac:(lia)) as Hd.
  set (m := curLineWidth (pos w) mod tabSize (config w)) in *.
  set (q := curLineWidth (pos w) / tabSize (config w)) in *.
  assert (R : forall n, 0 <= n ->
                        strings.Repeat SPACE n = Ok (repeat SPACE (Z.to_nat n))).
  { intros n Hn. unfold strings.Repeat.
    destruct (n <? 0) eqn:E; [apply Z.ltb_lt in E; lia | reflexivity]. }
  assert (Stop : (curLineWidth (pos w) + (tabSize (config w) - m))
                 mod tabSize (config w) = 0).
  { replace (curLineWidth (pos w) + (tabSize (config w) - m))
      with ((q + 1) * tabSize (config w)) by lia.
    apply Z.mod_mul. lia. }
  unfold flushLineBuffer.
  destruct (curLineWidth (pos w) + (tabSize (config w) - m) >? limit (config w))
    eqn:Hfl.
  - (* the line is written out first *)
    unfold writeSoftLine.
    destruct (writeLine_buffers false false w) as (_ & Hlb & _).
    rewrite Hlb, writeLine_config. cbn [len length Z.of_nat Z.eqb].
    assert (W0 : curLineWidth (pos (writeLine false false w)) = 0).
    { unfold writeLine. destruct (trimWhitespace (config w)); reflexivity. }
    destruct (trimWhitespace (config w)) eqn:Ht.
    + rewrite R by lia. cbn [bind]. do 2 eexists. split; [reflexivity |].
      left. repeat split. cbn. rewrite Hlb. reflexivity.
    + rewrite R by lia. cbn [bind]. do 2 eexists. split; [reflexivity |].
      right. cbn [pos set_lineBuffer lineBuffer]. rewrite W0, Hlb.
      split; [lia |]. split; [apply Z_mod_same_full |].
      split; [lia |]. right. reflexivity.
  - rewrite Z.gtb_ltb in Hfl. apply Z.ltb_ge in Hfl.
    destruct (len (lineBuffer w) =? 0) eqn:Hlen.
    + apply Z.eqb_eq in Hlen.
      assert (Hnil : lineBuffer w = []).
      { unfold len in Hlen. destruct (lineBuffer w); [reflexivity |].
        cbn in Hlen. lia. }
      specialize (He Hnil).
      destruct (trimWhitespace (config w)) eqn:Ht.
      * rewrite R by lia. cbn [bind]. do 2 eexists. split; [reflexivity |].
        left. repeat split. cbn. rewrite Hnil. reflexivity.
      * rewrite R by lia. cbn [bind]. do 2 eexists. split; [reflexivity |].
        right. cbn [pos set_lineBuffer lineBuffer]. rewrite He.
        split; [lia |]. split; [apply Z_mod_same_full |].
        split; [lia |]. left. reflexivity.
    + rewrite R by lia. cbn [bind]. do 2 eexists. split; [reflexivity |].
      right. cbn [pos set_lineBuffer lineBuffer].
      split; [lia |]. split; [exact Stop |].
      split; [lia |]. left. reflexivity.
Qed.

(** X15: a space never takes the line over the limit: with a limit of at
    least 1, whatever the state, the width of the line after
    [writeSpaceToLine] is within the limit (a line that the space does
    not fit on is written out first). *)
Theorem space_keeps_the_line_within_limit r w :
  1 <= limit (config w) ->
  curLineWidth (pos (writeSpaceToLine r w)) <= limit (config w).
Proof.
  intros Hl. unfold writeSpaceToLine, flushLineBuffer.
  destruct (curLineWidth (pos w) + 1 >? limit (config w)) eqn:Hfl.
  - unfold writeSoftLine.
    assert (W0 : curLineWidth (pos (writeLine false false w)) = 0).
    { unfold writeLine. destruct (trimWhitespace (config w)); reflexivity. }
    destruct (negb (trimWhitespace (config (writeLine false false w)))
              || (curLineWidth (pos (writeLine false false w)) >? 0));
      cbn; rewrite W0; lia.
  - rewrite Z.gtb_ltb in Hfl. apply Z.ltb_ge in Hfl.
    destruct (negb (trimWhitespace (config w)) || (curLineWidth (pos w) >? 0));
      cbn; lia.
Qed.

(** X16: a word that is not split is moved whole.  When splitting is off, or
    the word holds a non-breaking space, [flushWordBuffer] returns at
    once; a word of a width other than 0 goes to the line buffer in one
    piece and leaves the word buffer empty: after the line so far when
    it fits or the line has no width, otherwise on a new line, after one
    soft break that is not flagged as a split. *)
Theorem unsplit_word_is_moved_whole fuel w :
  splitWord (config w) && negb (wordHasNbsp w) = false ->
  curWordWidth (pos w) <> 0 ->
  exists w',
    flushWordBuffer (S fuel) w = Ok w'
    /\ wordBuffer w' = []
    /\ curWordWidth (pos w') = 0
    /\ wordHasNbsp w' = false
    /\ if (curWritePosition (pos w) >? limit (config w))
          && (curLineWidth (pos w) >? 0)
       then lineBuffer w' = wordBuffer w
            /\ curLineWidth (pos w') = curWordWidth (pos w)
            /\ exists l,
                WrappedLines (wrappedStringSeq w')
                = WrappedLines (wrappedStringSeq w) ++ [l]
                /\ IsHardBreak l = false /\ EndsWithSplitWord l = false
       else lineBuffer w' = lineBuffer w ++ wordBuffer w
            /\ curLineWidth (pos w') = curLineWidth (pos w) + curWordWidth (pos w)
            /\ wrappedStringSeq w' = wrappedStringSeq w.
Proof.
  intros Hs Hw. rewrite flushWordBuffer_S, Hs.
  replace (curWordWidth (pos w) =? 0) with false
    by (symmetry; apply Z.eqb_neq; exact Hw).
  rewrite andb_false_r.
  destruct (curWritePosition (pos w) >? limit (config w)); cbn [andb].
  - destruct (curLineWidth (pos w) >? 0).
    + eexists. split; [reflexivity |].
      destruct (writeLine_buffers false false w) as (_ & Hlb & Hwb).
      destruct (writeLine_segment false false w)
        as (l & Hl & _ & _ & _ & _ & Hh & Hsp).
      unfold writeSoftLine. cbn. rewrite Hlb, Hwb.
      repeat split.
      * unfold writeLine. destruct (trimWhitespace (config w)); cbn; lia.
      * exists l. repeat split; assumption.
    + eexists. split; [reflexivity |]. cbn. repeat split.
  - eexists. split; [reflexivity |]. cbn. repeat split.
Qed.

(** X17: whenever [flushWordBuffer] returns, no width is left pending for the
    word; and unless the word had no width the mark of a non-breaking
    space is cleared. *)
Theorem flushed_word_has_no_width fuel :
  forall w w',
    flushWordBuffer fuel w = Ok w' ->
    curWordWidth (pos w') = 0
    /\ (curWordWidth (pos w) <> 0 -> wordHasNbsp w' = false).
Proof.
  induction fuel as [|fuel IH]; intros w w' H; [discriminate |].
  rewrite flushWordBuffer_S in H.
  destruct (curWritePosition (pos w) >? limit (config w));
    [destruct (curWordWidth (pos w) =? 0) eqn:E0 |]; cbn [andb] in H.
  - inversion H; subst. apply Z.eqb_eq in E0. split; [| contradiction].
    unfold writeSoftLine, writeLine.
    destruct (trimWhitespace (config w)); exact E0.
  - destruct (splitWord (config w) && negb (wordHasNbsp w)).
    + bind_inv H as w1 H1. inversion H; subst.
      destruct (IH _ _ H1) as [Hw _]. split; [exact Hw | reflexivity].
    + inversion H; subst. split; reflexivity.
  - inversion H; subst. split; reflexivity.
Qed.

(** X18: every iteration of the loop of [stringWrap] that returns consumes at
    least one byte of the input, with or without splitting, given an
    escape scanner that walks forward: the loop makes at most [len(str)]
    iterations. *)
Theorem every_iteration_consumes_input fw str state idx w w' state' idx' :
  walks_forward ->
  0 <= idx < len str ->
  loopStep fw str state idx w = Ok (w', state', idx') ->
  idx < idx'.
Proof.
  intros Hwalk Hidx. unfold loopStep.
  destruct (ANSIWalk str idx) as [[[r rSize] next] ok] eqn:Hw.
  destruct (Hwalk _ _ _ _ _ _ Hidx Hw) as (Hr & Hsz0 & Hsz).
  assert (Hadv : idx < next - rSize + rSize).
  { destruct (Z.eq_dec (next - rSize) (len str)); lia. }
  intros H. bind_inv H as [w1 st1] H1. clear H1.
  destruct (r =? 160); [inversion H; subst; exact Hadv |].
  destruct (unicode.IsSpace r).
  - bind_inv H as w2 H2. bind_inv H as w3 H3. inversion H; subst. exact Hadv.
  - bind_inv H as tail Htail.
    destruct (StepString tail st1) as [cl st2].
    destruct (negb (len cl =? 0)) eqn:Hcl; inversion H; subst; [| exact Hadv].
    apply negb_true_iff, Z.eqb_neq in Hcl.
    pose proof (len_nonneg cl). lia.
Qed.

End Operations.

(** ** When the splitting of a word ends

    [flushWordBuffer] calls itself after every split step.  The recursion
    ends when every cluster of the word is narrower than the limit: the
    first step may take nothing, on a line that is full, and every later
    step starts on an empty line and takes at least one cluster. *)

Section SplitReturns.

Context {C : Collaborators}.

(** The segmenter cuts the rest of a word as it cut the word: the
    clusters of what follows a run of clusters are the clusters that
    followed it. *)
Definition splittable (word : bytes) : Prop :=
  forall before after,
    NewGraphemes word = before ++ after ->
    NewGraphemes (from word (len (concat before))) = after.

(** The pending word is measured by its clusters, each of them narrower
    than the limit. *)
Definition narrow (w : wrapStateMachine) : Prop :=
  splittable (wordBuffer w)
  /\ curWordWidth (pos w) = columns (NewGraphemes (wordBuffer w))
  /\ Forall (fun c => StringWidth c < limit (config w))
            (NewGraphemes (wordBuffer w)).

Lemma columns_app xs ys : columns (xs ++ ys) = columns xs + columns ys.
Proof. unfold columns. rewrite map_app. apply total_app. Qed.

Lemma splitStep_state w :
  config (splitStep w) = config w
  /\ curLineWidth (pos (splitStep w)) = 0
  /\ wordBuffer (splitStep w)
     = from (wordBuffer w)
            (len (subWordBuffer (iter (newIter (wordBuffer w))
                                      (curLineWidth (pos w)) (limit (config w)))))
  /\ curWordWidth (pos (splitStep w))
     = curWordWidth (pos w)
       - subWordWidth (iter (newIter (wordBuffer w))
                            (curLineWidth (pos w)) (limit (config w))).
Proof.
  unfold splitStep.
  generalize (iter (newIter (wordBuffer w)) (curLineWidth (pos w))
                   (limit (config w))).
  intros g. unfold writeSoftLine, writeLine.
  destruct (needsHyphen g); cbn; destruct (trimWhitespace (config w)); cbn;
    repeat split.
Qed.

Lemma splitStep_narrow w :
  narrow w ->
  narrow (splitStep w)
  /\ (length (NewGraphemes (wordBuffer (splitStep w)))
      <= length (NewGraphemes (wordBuffer w)))%nat
  /\ (curLineWidth (pos w) = 0 ->
      0 < limit (config w) ->
      limit (config w) < curWritePosition (pos w) ->
      (length (NewGraphemes (wordBuffer (splitStep w)))
       < length (NewGraphemes (wordBuffer w)))%nat).
Proof.
  intros (Hsp & Hwd & Hnar).
  destruct (splitStep_state w) as (Hc & _ & Hwb & Hww).
  destruct (iter_split (wordBuffer w) (curLineWidth (pos w)) (limit (config w)))
    as (before & after & Hcs & Hsub & Hwid & _ & _ & Hmax).
  rewrite Hsub in Hwb. rewrite Hwid in Hww.
  assert (Hafter : NewGraphemes (wordBuffer (splitStep w)) = after).
  { rewrite Hwb. apply Hsp. exact Hcs. }
  rewrite Hafter, Hcs.
  split; [| split].
  - unfold narrow. rewrite Hafter, Hc, Hww, Hwd, Hcs, columns_app.
    split; [| split; [lia |]].
    + intros b2 a2 H2. rewrite Hwb in *. rewrite (Hsp _ _ Hcs) in H2.
      rewrite RefContract.from_from by apply len_nonneg.
      rewrite <- len_app, <- concat_app. apply Hsp.
      rewrite Hcs, H2, app_assoc. reflexivity.
    + rewrite Hcs in Hnar. apply Forall_app in Hnar. apply Hnar.
  - rewrite length_app. lia.
  - intros H0 Hlim Hex. rewrite length_app.
    destruct before as [|b before']; [exfalso | cbn; lia].
    cbn [app] in Hcs. unfold curWritePosition in Hex.
    rewrite Hwd, H0, Hcs in Hex. rewrite Hcs in Hnar.
    destruct after as [|c rest].
    + unfold columns, total in Hex. cbn in Hex. lia.
    + inversion Hnar as [|c' rest' Hcn Hrest]; subst.
      destruct (Hmax ltac:(lia) c rest eq_refl) as [-> | Hge].
      * unfold columns, total in Hex. cbn in Hex. lia.
      * rewrite H0 in Hge. unfold columns, total in Hge. cbn in Hge. lia.
Qed.

Lemma narrow_returns n :
  forall w,
    (length (NewGraphemes (wordBuffer w)) <= n)%nat ->
    curLineWidth (pos w) = 0 ->
    0 < limit (config w) ->
    narrow w ->
    exists w', flushWordBuffer (S n) w = Ok w'.
Proof.
  induction n as [|n IH]; intros w Hn H0 Hlim Hnar; rewrite flushWordBuffer_S.
  - destruct ((curWritePosition (pos w) >? limit (config w))
              && (curWordWidth (pos w) =? 0)); [eauto |].
    destruct (curWritePosition (pos w) >? limit (config w)) eqn:Hex; [| eauto].
    exfalso. apply Z.gtb_lt in Hex. destruct Hnar as (_ & Hwd & _).
    destruct (NewGraphemes (wordBuffer w)); [| cbn in Hn; lia].
    unfold curWritePosition in Hex. rewrite Hwd, H0 in Hex.
    unfold columns, total in Hex. cbn in Hex. lia.
  - destruct ((curWritePosition (pos w) >? limit (config w))
              && (curWordWidth (pos w) =? 0)); [eauto |].
    destruct (curWritePosition (pos w) >? limit (config w)) eqn:Hex; [| eauto].
    destruct (splitWord (config w) && negb (wordHasNbsp w)); [| eauto].
    apply Z.gtb_lt in Hex.
    destruct (splitStep_narrow Hnar) as (Hnar1 & _ & Hless).
    specialize (Hless H0 ltac:(lia) ltac:(lia)).
    destruct (splitStep_state w) as (Hc & H01 & _).
    destruct (IH (splitStep w)) as [w1 H1];
      [lia | exact H01 | rewrite Hc; exact Hlim | exact Hnar1 |].
    rewrite H1. cbn [bind]. eauto.
Qed.

(** X19: the splitting of a word returns when the word is measured by its
    clusters, every cluster is narrower than the limit and the segmenter
    cuts the rest of a word as it cut the word: the recursion of
    [flushWordBuffer] is then at most one call deeper than the word has
    clusters, plus one. *)
Theorem narrow_clusters_are_split_in_finite_steps w :
  0 < limit (config w) ->
  splittable (wordBuffer w) ->
  curWordWidth (pos w) = columns (NewGraphemes (wordBuffer w)) ->
  Forall (fun c => StringWidth c < limit (config w))
         (NewGraphemes (wordBuffer w)) ->
  exists w',
    flushWordBuffer (length (NewGraphemes (wordBuffer w)) + 2) w = Ok w'.
Proof.
  intros Hlim Hsp Hwd Hfa.
  assert (Hnar : narrow w) by (repeat split; assumption).
  rewrite Nat.add_comm. cbn [Nat.add]. rewrite flushWordBuffer_S.
  destruct ((curWritePosition (pos w) >? limit (config w))
            && (curWordWidth (pos w) =? 0)); [eauto |].
  destruct (curWritePosition (pos w) >? limit (config w)); [| eauto].
  destruct (splitWord (config w) && negb (wordHasNbsp w)); [| eauto].
  destruct (splitStep_narrow Hnar) as (Hnar1 & Hle & _).
  destruct (splitStep_state w) as (Hc & H01 & _).
  destruct (@narrow_returns (length (NewGraphemes (wordBuffer w))) (splitStep w))
    as [w1 H1]; [exact Hle | exact H01 | rewrite Hc; exact Hlim | exact Hnar1 |].
  rewrite H1. cbn [bind]. eauto.
Qed.

End SplitReturns.

(** ** The further properties on concrete inputs, with the reference
    collaborators *)

Module Samples.

#[local] Existing Instance Ref.collaborators.

(** Two original lines, the first one wrapped in two segments. *)
Definition two_lines : bytes := lit "ab cd" ++ [LF] ++ lit "ef".

(** A word pending on a line that holds [line], of the given widths. *)
Definition pending (line word : bytes) (lineWidth wordWidth limit tabSize : Z)
           (trim split nbsp : bool) : wrapStateMachine :=
  let w := initialState limit tabSize trim split in
  set_wordHasNbsp nbsp
    (set_pos (set_curLineWidth lineWidth (set_curWordWidth wordWidth (pos w)))
             (set_wordBuffer word (set_lineBuffer line w))).

Lemma flagged_when_wider_than_limit_witness :
  exists out seq,
    StringWrap 50 (lit "abcdefgh ij") 4 4 false = Ok (out, Some seq, None)
    /\ Forall (fun l => NotWithinLimit l = (Width l >? Limit seq))
              (WrappedLines seq).
Proof.
  eexists. eexists. split; [vm_compute; reflexivity |].
  eapply (@flagged_when_wider_than_limit Ref.collaborators 50
            (lit "abcdefgh ij") 4 4 false false).
  vm_compute. reflexivity.
Defined.

Lemma last_segment_of_each_line_witness :
  exists out seq before l,
    stringWrap 50 two_lines 3 4 true false = Ok (out, Some seq, None)
    /\ WrappedLines seq = before ++ [l]
    /\ LastSegmentInOrig l = true
    /\ Forall (fun x => LastSegmentInOrig x = IsHardBreak x) before.
Proof.
  eexists. eexists. eexists [_; _]. eexists.
  split; [vm_compute; reflexivity |]. split; [reflexivity |].
  eapply (@last_segment_of_each_line Ref.collaborators 50 two_lines 3 4
            true false).
  - vm_compute. reflexivity.
  - reflexivity.
Defined.

Lemma empty_input_gives_nothing_witness :
  2 <= 2
  /\ stringWrap 1 [] 2 4 true true
     = Ok ([], Some {| WrappedLines := []; WordSplitAllowed := true;
                       TabSize := 4; Limit := 2 |}, None).
Proof.
  split; [apply Z.le_refl |].
  apply (@empty_input_gives_nothing Ref.collaborators 0 2 4 true true).
  apply Z.le_refl.
Defined.

Lemma wrapped_lines_are_numbered_witness :
  exists out seq l,
    stringWrap 50 two_lines 3 4 true false = Ok (out, Some seq, None)
    /\ nth_error (WrappedLines seq) 2 = Some l
    /\ CurLineNum l = Z.of_nat 2 + 1.
Proof.
  eexists. eexists. eexists.
  split; [vm_compute; reflexivity |]. split; [reflexivity |].
  eapply (@wrapped_lines_are_numbered Ref.collaborators 50 two_lines 3 4
            true false).
  - vm_compute. reflexivity.
  - reflexivity.
Defined.

Lemma original_lines_are_numbered_witness :
  exists out seq,
    stringWrap 50 two_lines 3 4 true false = Ok (out, Some seq, None)
    /\ (forall l, nth_error (WrappedLines seq) 0 = Some l ->
                  OrigLineNum l = 1 /\ SegmentInOrig l = 1)
    /\ (forall i a b,
           nth_error (WrappedLines seq) i = Some a ->
           nth_error (WrappedLines seq) (S i) = Some b ->
           if IsHardBreak a
           then OrigLineNum b = OrigLineNum a + 1 /\ SegmentInOrig b = 1
           else OrigLineNum b = OrigLineNum a
                /\ SegmentInOrig b = SegmentInOrig a + 1).
Proof.
  eexists. eexists. split; [vm_compute; reflexivity |].
  eapply (@original_lines_are_numbered Ref.collaborators 50 two_lines 3 4
            true false).
  vm_compute. reflexivity.
Defined.

Lemma hard_breaks_end_no_split_word_witness :
  exists out seq,
    StringWrapSplit 50 (lit "abcdef" ++ [LF] ++ lit "gh") 4 4 false
    = Ok (out, Some seq, None)
    /\ Forall (fun l => IsHardBreak l = true -> EndsWithSplitWord l = false)
              (WrappedLines seq).
Proof.
  eexists. eexists. split; [vm_compute; reflexivity |].
  eapply (@hard_breaks_end_no_split_word Ref.collaborators 50
            (lit "abcdef" ++ [LF] ++ lit "gh") 4 4 false true).
  vm_compute. reflexivity.
Defined.

Lemma untrimmed_spans_follow_the_lines_witness :
  exists out seq ts,
    stringWrap 50 (lit "abcdef" ++ [LF] ++ lit "gh") 4 4 false true
    = Ok (out, Some seq, None)
    /\ (lastIsHardBreak seq = true -> out = terminated ts)
    /\ (lastIsHardBreak seq = false -> out = strings.Join ts LF)
    /\ Forall2 spanned ts (WrappedLines seq).
Proof.
  assert (H : exists out seq,
             stringWrap 50 (lit "abcdef" ++ [LF] ++ lit "gh") 4 4 false true
             = Ok (out, Some seq, None)).
  { eexists. eexists. vm_compute. reflexivity. }
  destruct H as (out & seq & H).
  destruct (@untrimmed_spans_follow_the_lines Ref.collaborators 50
              (lit "abcdef" ++ [LF] ++ lit "gh") 4 4 true out seq None H)
    as (ts & Hts).
  exists out, seq, ts. split; [exact H | exact Hts].
Defined.

Lemma untrimmed_spans_run_forward_witness :
  exists out seq,
    StringWrapSplit 50 (lit "abcdef" ++ [LF] ++ lit "gh") 4 4 false
    = Ok (out, Some seq, None)
    /\ Forall (fun l => Start (OrigByteOffset l) <= End_ (OrigByteOffset l)
                        /\ Start (OrigRuneOffset l) <= End_ (OrigRuneOffset l))
              (WrappedLines seq).
Proof.
  eexists. eexists. split; [vm_compute; reflexivity |].
  eapply (@untrimmed_spans_run_forward Ref.collaborators 50
            (lit "abcdef" ++ [LF] ++ lit "gh") 4 4 true).
  vm_compute. reflexivity.
Defined.

Lemma no_panic_with_fit_tab_size_witness :
  walks_forward
  /\ StringWrapSplit 50 ([9] ++ lit "ab" ++ [9] ++ lit "cd") 4 (-1) true
     <> Panic.
Proof.
  split; [exact RefContract.walks_forward_ref |].
  apply (@no_panic_with_fit_tab_size Ref.collaborators 50
           ([9] ++ lit "ab" ++ [9] ++ lit "cd") 4 (-1) true true
           RefContract.walks_forward_ref).
  right. reflexivity.
Defined.

(** The word "hello" pending on an empty line of three columns, nothing
    trimmed, splitting allowed. *)
Definition hello : wrapStateMachine :=
  pending [] (lit "hello") 0 5 3 4 false true false.

Lemma split_line_is_within_limit_witness :
  exists l,
    WrappedLines (wrappedStringSeq (splitStep hello))
    = WrappedLines (wrappedStringSeq hello) ++ [l]
    /\ Width l
       = curLineWidth (pos hello)
         + subWordWidth (iter (newIter (wordBuffer hello))
                              (curLineWidth (pos hello)) (limit (config hello)))
         + btoi (EndsWithSplitWord l)
    /\ Width l <= limit (config hello)
    /\ NotWithinLimit l = false
    /\ IsHardBreak l = false.
Proof.
  apply (@split_line_is_within_limit Ref.collaborators hello);
    reflexivity.
Defined.

Lemma splittable_hello : splittable (wordBuffer hello).
Proof.
  intros before after H. vm_compute in H.
  repeat (destruct before as [|? before];
          [cbn [app] in H; subst after; vm_compute; reflexivity
          | cbn [app] in H; try discriminate H;
            injection H as <- H]).
Qed.

Lemma narrow_clusters_are_split_in_finite_steps_witness :
  exists w',
    flushWordBuffer (length (NewGraphemes (wordBuffer hello)) + 2) hello = Ok w'.
Proof.
  apply (@narrow_clusters_are_split_in_finite_steps Ref.collaborators hello).
  - reflexivity.
  - exact splittable_hello.
  - vm_compute. reflexivity.
  - set (cs := NewGraphemes (wordBuffer hello)). vm_compute in cs. subst cs.
    repeat (constructor; [vm_compute; reflexivity |]). constructor.
Defined.

(** The line "ab" of width 2, tab stops every four columns. *)
Definition after_ab : wrapStateMachine :=
  pending (lit "ab") [] 2 0 10 4 false false false.

Lemma tab_moves_to_the_next_stop_witness :
  exists w' adj,
    writeTabToLine after_ab = Ok (w', adj)
    /\ ((trimWhitespace (config after_ab) = true /\ adj = 0
         /\ lineBuffer w' = [])
        \/ (0 < adj <= tabSize (config after_ab)
            /\ (curLineWidth (pos w') + adj) mod tabSize (config after_ab) = 0
            /\ (tabSize (config after_ab) <= limit (config after_ab) ->
                curLineWidth (pos w') + adj <= limit (config after_ab))
            /\ (lineBuffer w'
                = lineBuffer after_ab ++ repeat SPACE (Z.to_nat adj)
                \/ lineBuffer w' = repeat SPACE (Z.to_nat adj)))).
Proof.
  apply (@tab_moves_to_the_next_stop Ref.collaborators after_ab).
  - reflexivity.
  - discriminate.
  - intros H. vm_compute in H. discriminate H.
Defined.

Lemma space_keeps_the_line_within_limit_witness :
  1 <= limit (config after_ab)
  /\ curLineWidth (pos (writeSpaceToLine 32 after_ab))
     <= limit (config after_ab).
Proof.
  split; [discriminate |].
  apply (@space_keeps_the_line_within_limit Ref.collaborators 32 after_ab).
  discriminate.
Defined.

(** The word "a b" with a non-breaking space, pending after "x" on a line
    of three columns, splitting allowed. *)
Definition unbreakable : wrapStateMachine :=
  pending (lit "x") (lit "a" ++ utf8.EncodeRune 0xA0 ++ lit "b") 1 3 3 4
          false true true.

Lemma unsplit_word_is_moved_whole_witness :
  exists w',
    flushWordBuffer 1 unbreakable = Ok w'
    /\ wordBuffer w' = []
    /\ curWordWidth (pos w') = 0
    /\ wordHasNbsp w' = false
    /\ lineBuffer w' = wordBuffer unbreakable
    /\ curLineWidth (pos w') = curWordWidth (pos unbreakable)
    /\ exists l,
        WrappedLines (wrappedStringSeq w')
        = WrappedLines (wrappedStringSeq unbreakable) ++ [l]
        /\ IsHardBreak l = false /\ EndsWithSplitWord l = false.
Proof.
  apply (@unsplit_word_is_moved_whole Ref.collaborators 0 unbreakable).
  - reflexivity.
  - discriminate.
Defined.

Lemma flushed_word_has_no_width_witness :
  exists w',
    flushWordBuffer 7 hello = Ok w'
    /\ curWordWidth (pos w') = 0
    /\ (curWordWidth (pos hello) <> 0 -> wordHasNbsp w' = false).
Proof.
  eexists. split; [vm_compute; reflexivity |].
  eapply (@flushed_word_has_no_width Ref.collaborators 7 hello).
  vm_compute. reflexivity.
Defined.

Lemma every_iteration_consumes_input_witness :
  exists w' state' idx',
    loopStep 5 (lit "ab cd") (-1) 0 (initialState 3 4 false false)
    = Ok (w', state', idx')
    /\ 0 < idx'.
Proof.
  eexists. eexists. eexists. split; [vm_compute; reflexivity |].
  eapply (@every_iteration_consumes_input Ref.collaborators 5 (lit "ab cd")
            (-1) 0 (initialState 3 4 false false)).
  - exact RefContract.walks_forward_ref.
  - split; [apply Z.le_refl | reflexivity].
  - vm_compute. reflexivity.
Defined.

End Samples.
